(** * A shallow embedding of [tess_cpm.CPM] (src/tess_cpm/tess_cpm.py)

    The Causal Pixel Model object is embedded as a record of its attributes
    and every method as a computation in a small state-and-exception monad:
    a Python method mutates [self] statement by statement and may raise half
    way, so a raised outcome still carries the attributes assigned so far.

    Numbers.  numpy's float64 values are modelled by the exact rationals
    [Qc]: sums, products and quotients are exact, there is no rounding, no
    NaN and no infinity.  The places where the program would produce a NaN
    that changes the control flow (0/0 in the sigma-clipping threshold) are
    modelled explicitly; elsewhere a division by zero, which numpy turns
    into an infinity or a NaN, is the [0] of [Qcdiv], and no statement
    below rests on its value.  Functions that are not rational (square root) or
    not determined by their documentation (the order [np.argsort] gives to
    ties, the pseudo-random generator) are operations of the class
    [Numpy], over which the methods are parameterised. *)

From Stdlib Require Import String.
From Stdlib Require Import List Bool Arith ZArith QArith Qcanon Lia.
From Stdlib Require Import Permutation Sorted.
Import ListNotations.

Set Implicit Arguments.

(* ================================================================== *)
(** * Part I: the program *)

(* ================================================================== *)
(** ** Scalars *)

Module Scalar.

Definition Qc_eqb (x y : Qc) : bool := Qeq_bool x y.

Definition Qc_ltb (x y : Qc) : bool :=
  match (x ?= y)%Qc with Lt => true | _ => false end.

Definition Qc_leb (x y : Qc) : bool :=
  match (x ?= y)%Qc with Gt => false | _ => true end.

(** [np.abs] on a scalar. *)
Definition Qc_abs (x : Qc) : Qc := if Qc_ltb x 0%Qc then (- x)%Qc else x.

Definition of_Z (z : Z) : Qc := Q2Qc (inject_Z z).

Definition of_nat (n : nat) : Qc := of_Z (Z.of_nat n).

End Scalar.
Import Scalar.

(* ================================================================== *)
(** ** One-dimensional arrays *)

Abbreviation vec := (list Qc).

Module Vec.

Open Scope Qc_scope.

Fixpoint sum (v : vec) : Qc :=
  match v with
  | [] => 0
  | x :: v' => x + sum v'
  end.

(** The inner product of two equally long arrays; callers check the
    lengths, as [np.dot] does. *)
Fixpoint dot (a b : vec) : Qc :=
  match a, b with
  | x :: a', y :: b' => x * y + dot a' b'
  | _, _ => 0
  end.

Definition scale (c : Qc) (v : vec) : vec := map (Qcmult c) v.

Fixpoint zip_with (f : Qc -> Qc -> Qc) (a b : vec) : vec :=
  match a, b with
  | x :: a', y :: b' => f x y :: zip_with f a' b'
  | _, _ => []
  end.

Definition sub (a b : vec) : vec := zip_with Qcminus a b.

Definition add (a b : vec) : vec := zip_with Qcplus a b.

(** numpy broadcasting of a binary operation on two 1-D arrays: equal
    lengths pair up, a length-one array is stretched, anything else
    raises ([None]). *)
Definition broadcast (f : Qc -> Qc -> Qc) (a b : vec) : option vec :=
  if Nat.eqb (length a) (length b) then Some (zip_with f a b)
  else match a, b with
       | [x], _ => Some (map (f x) b)
       | _, [y] => Some (map (fun x => f x y) a)
       | _, _ => None
       end.

(** [a[mask]] for a boolean mask of the same length. *)
Fixpoint select (A : Type) (mask : list bool) (a : list A) : list A :=
  match mask, a with
  | b :: mask', x :: a' => if b then x :: select mask' a' else select mask' a'
  | _, _ => []
  end.

End Vec.

(* ================================================================== *)
(** ** The linear solver behind [np.linalg.solve]

    [np.linalg.solve a b] returns the solution of a square system and
    raises [LinAlgError] when [a] is singular.  In exact arithmetic this is
    elimination with a non-zero pivot followed by back substitution; rows
    are kept with their right-hand side. *)

Module Solve.

Open Scope Qc_scope.

Abbreviation row := (list Qc * Qc)%type.

(** The first row whose leading coefficient is not zero, and the others. *)
Fixpoint find_pivot (rs : list row) : option (row * list row) :=
  match rs with
  | [] => None
  | r :: rs' =>
      if Qc_eqb (hd 0 (fst r)) 0 then
        match find_pivot rs' with
        | Some (p, rest) => Some (p, r :: rest)
        | None => None
        end
      else Some (r, rs')
  end.

(** Subtract from [r] the multiple of the pivot row that clears its
    leading coefficient, and drop that coefficient. *)
Definition reduce (p r : row) : row :=
  let f := hd 0 (fst r) / hd 0 (fst p) in
  (Vec.sub (tl (fst r)) (Vec.scale f (tl (fst p))), snd r - f * snd p).

Fixpoint eliminate (n : nat) (rs : list row) : option vec :=
  match n with
  | O => Some []
  | S n' =>
      match find_pivot rs with
      | None => None
      | Some (p, rest) =>
          match eliminate n' (map (reduce p) rest) with
          | None => None
          | Some x' => Some ((snd p - Vec.dot (tl (fst p)) x') / hd 0 (fst p) :: x')
          end
      end
  end.

Definition satisfies (x : vec) (r : row) : Prop := Vec.dot (fst r) x = snd r.

Definition well_shaped (n : nat) (rs : list row) : Prop :=
  Forall (fun r => length (fst r) = n) rs.

End Solve.

(* ================================================================== *)
(** ** Two-dimensional arrays

    A 2-D array keeps its number of columns next to its rows, so that an
    array with no rows (every sample clipped) still has a shape. *)

Record ndarray2 : Type := mk_ndarray2 { ncols : nat; rows : list vec }.

Module Mat.

Open Scope Qc_scope.

Definition nrows (a : ndarray2) : nat := length (rows a).

Definition well_formed (a : ndarray2) : Prop :=
  Forall (fun r => length r = ncols a) (rows a).

Definition column (j : nat) (a : ndarray2) : vec :=
  map (fun r => nth j r 0) (rows a).

(** [a.T] *)
Definition transpose (a : ndarray2) : ndarray2 :=
  {| ncols := nrows a; rows := map (fun j => column j a) (seq 0 (ncols a)) |}.

(** [np.dot(a, v)] for a 2-D [a] and a 1-D [v]. *)
Definition dot_mv (a : ndarray2) (v : vec) : option vec :=
  if Nat.eqb (ncols a) (length v)
  then Some (map (fun r => Vec.dot r v) (rows a))
  else None.

(** [np.dot(a, b)] for 2-D arrays. *)
Definition dot_mm (a b : ndarray2) : option ndarray2 :=
  if Nat.eqb (ncols a) (nrows b)
  then Some {| ncols := ncols b;
               rows := map (fun r => map (Vec.dot r) (rows (transpose b))) (rows a) |}
  else None.

(** [np.identity(n)] *)
Definition identity (n : nat) : ndarray2 :=
  {| ncols := n;
     rows := map (fun i => map (fun j => if Nat.eqb i j then 1 else 0) (seq 0 n))
                 (seq 0 n) |}.

(** [c * a] for a scalar [c]. *)
Definition scale (c : Qc) (a : ndarray2) : ndarray2 :=
  {| ncols := ncols a; rows := map (Vec.scale c) (rows a) |}.

(** A 1-D array seen as one row, as broadcasting against a 2-D array
    does. *)
Definition of_row (v : vec) : ndarray2 := {| ncols := length v; rows := [v] |}.

(** The broadcast of two extents: equal, or one of them is 1. *)
Definition bshape (x y : nat) : option nat :=
  if Nat.eqb x y then Some x
  else if Nat.eqb x 1 then Some y
  else if Nat.eqb y 1 then Some x
  else None.

Definition stretch (A : Type) (d : A) (n : nat) (l : list A) : list A :=
  if Nat.eqb (length l) n then l else repeat (hd d l) n.

Fixpoint zip_rows (f : vec -> vec -> vec) (a b : list vec) : list vec :=
  match a, b with
  | x :: a', y :: b' => f x y :: zip_rows f a' b'
  | _, _ => []
  end.

(** numpy broadcasting of an elementwise operation on two 2-D arrays. *)
Definition broadcast (f : Qc -> Qc -> Qc) (a b : ndarray2) : option ndarray2 :=
  match bshape (nrows a) (nrows b), bshape (ncols a) (ncols b) with
  | Some r, Some c =>
      Some {| ncols := c;
              rows := zip_rows (fun x y => Vec.zip_with f (stretch 0 c x) (stretch 0 c y))
                               (stretch [] r (rows a)) (stretch [] r (rows b)) |}
  | _, _ => None
  end.

(** [np.hstack((a, b))] for 2-D arrays: the row counts must agree. *)
Definition hstack (a b : ndarray2) : option ndarray2 :=
  if Nat.eqb (nrows a) (nrows b)
  then Some {| ncols := ncols a + ncols b; rows := zip_rows (@app Qc) (rows a) (rows b) |}
  else None.

(** [a[mask, :]] for a boolean mask over the rows. *)
Definition select_rows (mask : list bool) (a : ndarray2) : option ndarray2 :=
  if Nat.eqb (length mask) (nrows a)
  then Some {| ncols := ncols a; rows := Vec.select mask (rows a) |}
  else None.

Fixpoint gather (A : Type) (idx : list nat) (l : list A) : option (list A) :=
  match idx with
  | [] => Some []
  | i :: idx' =>
      match nth_error l i, gather idx' l with
      | Some x, Some xs => Some (x :: xs)
      | _, _ => None
      end
  end.

(** [a[idx, :]] for an array of row numbers. *)
Definition take_rows (idx : list nat) (a : ndarray2) : option ndarray2 :=
  match gather idx (rows a) with
  | Some rs => Some {| ncols := ncols a; rows := rs |}
  | None => None
  end.

(** [a[:, :n]] and [a[:, n:]] *)
Definition cols_to (n : nat) (a : ndarray2) : ndarray2 :=
  {| ncols := Nat.min n (ncols a); rows := map (firstn n) (rows a) |}.

Definition cols_from (n : nat) (a : ndarray2) : ndarray2 :=
  {| ncols := ncols a - n; rows := map (skipn n) (rows a) |}.

(** The diagonal matrix of a vector: the regularisation matrix as the
    normal equations write it. *)
Definition diag (v : vec) : ndarray2 :=
  {| ncols := length v;
     rows := map (fun i => map (fun j => if Nat.eqb i j then nth i v 0 else 0)
                               (seq 0 (length v)))
                 (seq 0 (length v)) |}.

(** Entrywise sum of two arrays of one shape. *)
Definition add (a b : ndarray2) : ndarray2 :=
  {| ncols := ncols a; rows := zip_rows Vec.add (rows a) (rows b) |}.

(** [np.linalg.solve(a, b)]: [a] must be square and [b] as long as [a]
    has rows; a singular [a] raises. *)
Definition solve (a : ndarray2) (b : vec) : option vec :=
  if Nat.eqb (nrows a) (ncols a) && Nat.eqb (length b) (nrows a)
  then Solve.eliminate (nrows a) (combine (rows a) b)
  else None.

End Mat.

(* ================================================================== *)
(** ** What the program takes from numpy and scikit-learn *)

(** [np.sqrt] maps a float to a float; [np.argsort] (default kind, which
    is not a stable sort) returns some order of the indices that sorts its
    argument; [np.random] is a generator whose state is a number, and
    [np_random_seed] is the state that a seed it accepts puts it in. *)
Class Numpy : Type := {
  np_sqrt : Qc -> Qc;
  np_argsort : vec -> list nat;
  np_random_seed : Z -> N;
  np_random_permutation : N -> nat -> list nat * N
}.

(** What numpy's documentation promises of those operations. *)
Class NumpyLaws (np : Numpy) : Prop := {
  np_argsort_perm : forall v, Permutation (np_argsort v) (seq 0 (length v));
  np_argsort_sorted : forall v,
    StronglySorted (fun i j => nth i v 0 <= nth j v 0)%Qc (np_argsort v);
  np_random_permutation_perm : forall g n,
    Permutation (fst (np_random_permutation g n)) (seq 0 n)
}.

Module Stats.

Open Scope Qc_scope.

Fixpoint insert (x : Qc) (l : vec) : vec :=
  match l with
  | [] => [x]
  | y :: l' => if Qc_leb x y then x :: l else y :: insert x l'
  end.

Definition sort (v : vec) : vec := fold_right insert [] v.

(** [np.median] (and [np.nanmedian], there being no NaN among the
    rationals): the middle of the sorted values, or the mean of the two
    middle ones. *)
Definition median (v : vec) : Qc :=
  let s := sort v in
  let n := length s in
  if Nat.even n then (nth (n / 2 - 1) s 0 + nth (n / 2) s 0) / Scalar.of_nat 2
  else nth (n / 2) s 0.

(** [np.linalg.norm] of a 1-D array. *)
Definition norm {np : Numpy} (v : vec) : Qc := np_sqrt (Vec.dot v v).

End Stats.

(** [KFold(k).split(X)] of scikit-learn without shuffling: consecutive
    test folds, the first [n mod k] of them one longer than the others;
    [k] must be at least 2 and at most the number of samples. *)
Module KFold.

Fixpoint fold_sizes (k : nat) (q r : nat) : list nat :=
  match k with
  | O => []
  | S k' => (if Nat.ltb 0 r then S q else q) :: fold_sizes k' q (pred r)
  end.

Fixpoint test_folds (start : nat) (sizes : list nat) : list (list nat) :=
  match sizes with
  | [] => []
  | sz :: sizes' => seq start sz :: test_folds (start + sz) sizes'
  end.

Definition train_of (n : nat) (test : list nat) : list nat :=
  filter (fun i => negb (existsb (Nat.eqb i) test)) (seq 0 n).

Definition split (k n : nat) : option (list (list nat * list nat)) :=
  if Nat.ltb k 2 || Nat.ltb n k then None
  else Some (map (fun test => (train_of n test, test))
                 (test_folds 0 (fold_sizes k (n / k) (n mod k)))).

End KFold.

(* ================================================================== *)
(** ** The object *)

Abbreviation image := (list (list Qc)).
Abbreviation cube := (list (list (list Qc))).
Abbreviation mask2 := (list (list bool)).

(** Attributes that [__init__] sets to [None] are options.
    [lsq_prediction] is not assigned by [__init__]: [None] stands for the
    missing attribute.  The attributes of file handling ([file_path],
    [file_name], [wcs_info]) and of the batch driver are left out. *)
Record CPM : Type := mkCPM {
  time : vec;
  im_fluxes : cube;
  im_errors : cube;
  quality : list Z;
  dump_times : vec;
  pixel_medians : image;
  im_sidelength : nat;
  flattened_pixel_medians : vec;
  rescaled_im_fluxes : cube;
  flattened_rescaled_im_fluxes : list vec;
  target_row : option nat;
  target_col : option nat;
  target_fluxes : option vec;
  target_errors : option vec;
  target_median : option Qc;
  rescaled_target_fluxes : option vec;
  rescaled_target_errors : option vec;
  target_pixel_mask : option mask2;
  exclusion : option nat;
  excluded_pixels_mask : option mask2;
  method_predictor_pixels : option string;
  num_predictor_pixels : option nat;
  predictor_pixels_locations : option (list (nat * nat));
  predictor_pixels_mask : option mask2;
  predictor_pixels_fluxes : option ndarray2;
  rescaled_predictor_pixels_fluxes : option ndarray2;
  rescale : option bool;
  polynomials : option bool;
  cpm_regularization : option Qc;
  lsq_params : option vec;
  cpm_params : option vec;
  poly_params : option vec;
  orig_m : option ndarray2;
  m : option ndarray2;
  lsq_prediction : option vec;
  const_prediction : option Qc;
  cpm_prediction : option vec;
  poly_prediction : option vec;
  residual : option vec;
  is_target_set : bool;
  is_exclusion_set : bool;
  are_predictors_set : bool;
  trained : bool;
  valid : option (list bool);
  centered_time : option vec;
  scaled_centered_time : option vec;
  time_interval : option Qc;
  poly_terms : option nat;
  v_matrix : option ndarray2;
  poly_reg : option Qc
}.

Definition CPM_eta (s : CPM) : CPM :=
  mkCPM (time s) (im_fluxes s) (im_errors s) (quality s) (dump_times s)
    (pixel_medians s) (im_sidelength s) (flattened_pixel_medians s)
    (rescaled_im_fluxes s) (flattened_rescaled_im_fluxes s) (target_row s)
    (target_col s) (target_fluxes s) (target_errors s) (target_median s)
    (rescaled_target_fluxes s) (rescaled_target_errors s) (target_pixel_mask s)
    (exclusion s) (excluded_pixels_mask s) (method_predictor_pixels s)
    (num_predictor_pixels s) (predictor_pixels_locations s)
    (predictor_pixels_mask s) (predictor_pixels_fluxes s)
    (rescaled_predictor_pixels_fluxes s) (rescale s) (polynomials s)
    (cpm_regularization s) (lsq_params s) (cpm_params s) (poly_params s)
    (orig_m s) (m s) (lsq_prediction s) (const_prediction s) (cpm_prediction s)
    (poly_prediction s) (residual s) (is_target_set s) (is_exclusion_set s)
    (are_predictors_set s) (trained s) (valid s) (centered_time s)
    (scaled_centered_time s) (time_interval s) (poly_terms s) (v_matrix s)
    (poly_reg s).

(** [self.attr = v]: the record with one attribute replaced. *)
Ltac attribute_setter proj :=
  let e := eval cbv delta [CPM_eta] in CPM_eta in
  match eval pattern proj in e with
  | ?f proj => let t := constr:(fun v s => f (fun _ => v) s) in
               let t' := eval cbv beta in t in exact t'
  end.

Module Assign.
Definition time : vec -> CPM -> CPM := ltac:(attribute_setter time).
Definition im_fluxes : cube -> CPM -> CPM := ltac:(attribute_setter im_fluxes).
Definition im_errors : cube -> CPM -> CPM := ltac:(attribute_setter im_errors).
Definition quality : list Z -> CPM -> CPM := ltac:(attribute_setter quality).
Definition dump_times : vec -> CPM -> CPM := ltac:(attribute_setter dump_times).
Definition pixel_medians : image -> CPM -> CPM := ltac:(attribute_setter pixel_medians).
Definition im_sidelength : nat -> CPM -> CPM := ltac:(attribute_setter im_sidelength).
Definition flattened_pixel_medians : vec -> CPM -> CPM :=
  ltac:(attribute_setter flattened_pixel_medians).
Definition rescaled_im_fluxes : cube -> CPM -> CPM :=
  ltac:(attribute_setter rescaled_im_fluxes).
Definition flattened_rescaled_im_fluxes : list vec -> CPM -> CPM :=
  ltac:(attribute_setter flattened_rescaled_im_fluxes).
Definition target_row : option nat -> CPM -> CPM := ltac:(attribute_setter target_row).
Definition target_col : option nat -> CPM -> CPM := ltac:(attribute_setter target_col).
Definition target_fluxes : option vec -> CPM -> CPM := ltac:(attribute_setter target_fluxes).
Definition target_errors : option vec -> CPM -> CPM := ltac:(attribute_setter target_errors).
Definition target_median : option Qc -> CPM -> CPM := ltac:(attribute_setter target_median).
Definition rescaled_target_fluxes : option vec -> CPM -> CPM :=
  ltac:(attribute_setter rescaled_target_fluxes).
Definition rescaled_target_errors : option vec -> CPM -> CPM :=
  ltac:(attribute_setter rescaled_target_errors).
Definition target_pixel_mask : option mask2 -> CPM -> CPM :=
  ltac:(attribute_setter target_pixel_mask).
Definition exclusion : option nat -> CPM -> CPM := ltac:(attribute_setter exclusion).
Definition excluded_pixels_mask : option mask2 -> CPM -> CPM :=
  ltac:(attribute_setter excluded_pixels_mask).
Definition method_predictor_pixels : option string -> CPM -> CPM :=
  ltac:(attribute_setter method_predictor_pixels).
Definition num_predictor_pixels : option nat -> CPM -> CPM :=
  ltac:(attribute_setter num_predictor_pixels).
Definition predictor_pixels_locations : option (list (nat * nat)) -> CPM -> CPM :=
  ltac:(attribute_setter predictor_pixels_locations).
Definition predictor_pixels_mask : option mask2 -> CPM -> CPM :=
  ltac:(attribute_setter predictor_pixels_mask).
Definition predictor_pixels_fluxes : option ndarray2 -> CPM -> CPM :=
  ltac:(attribute_setter predictor_pixels_fluxes).
Definition rescaled_predictor_pixels_fluxes : option ndarray2 -> CPM -> CPM :=
  ltac:(attribute_setter rescaled_predictor_pixels_fluxes).
Definition rescale : option bool -> CPM -> CPM := ltac:(attribute_setter rescale).
Definition polynomials : option bool -> CPM -> CPM := ltac:(attribute_setter polynomials).
Definition cpm_regularization : option Qc -> CPM -> CPM :=
  ltac:(attribute_setter cpm_regularization).
Definition lsq_params : option vec -> CPM -> CPM := ltac:(attribute_setter lsq_params).
Definition cpm_params : option vec -> CPM -> CPM := ltac:(attribute_setter cpm_params).
Definition poly_params : option vec -> CPM -> CPM := ltac:(attribute_setter poly_params).
Definition orig_m : option ndarray2 -> CPM -> CPM := ltac:(attribute_setter orig_m).
Definition m : option ndarray2 -> CPM -> CPM := ltac:(attribute_setter m).
Definition lsq_prediction : option vec -> CPM -> CPM :=
  ltac:(attribute_setter lsq_prediction).
Definition const_prediction : option Qc -> CPM -> CPM :=
  ltac:(attribute_setter const_prediction).
Definition cpm_prediction : option vec -> CPM -> CPM :=
  ltac:(attribute_setter cpm_prediction).
Definition poly_prediction : option vec -> CPM -> CPM :=
  ltac:(attribute_setter poly_prediction).
Definition residual : option vec -> CPM -> CPM := ltac:(attribute_setter residual).
Definition is_target_set : bool -> CPM -> CPM := ltac:(attribute_setter is_target_set).
Definition is_exclusion_set : bool -> CPM -> CPM :=
  ltac:(attribute_setter is_exclusion_set).
Definition are_predictors_set : bool -> CPM -> CPM :=
  ltac:(attribute_setter are_predictors_set).
Definition trained : bool -> CPM -> CPM := ltac:(attribute_setter trained).
Definition valid : option (list bool) -> CPM -> CPM := ltac:(attribute_setter valid).
Definition centered_time : option vec -> CPM -> CPM :=
  ltac:(attribute_setter centered_time).
Definition scaled_centered_time : option vec -> CPM -> CPM :=
  ltac:(attribute_setter scaled_centered_time).
Definition time_interval : option Qc -> CPM -> CPM :=
  ltac:(attribute_setter time_interval).
Definition poly_terms : option nat -> CPM -> CPM := ltac:(attribute_setter poly_terms).
Definition v_matrix : option ndarray2 -> CPM -> CPM := ltac:(attribute_setter v_matrix).
Definition poly_reg : option Qc -> CPM -> CPM := ltac:(attribute_setter poly_reg).
End Assign.

(** What the program prints. *)
Inductive message : Type :=
| RemovingBadDataPoints (bad total : nat)
| PleaseSetTarget
| PleaseSetTargetAndExclusion
| YouMissedAStep
| UsingUnscaledValues
| IterationRemoving (iter_num : Z) (removed : Z).

(** The object together with what is outside it: the printed lines and
    the state of numpy's global random generator. *)
Record World : Type := mkWorld {
  self : CPM;
  stdout : list message;
  rng : N
}.

(** A method either returns a value or raises; both leave a world. *)
Inductive outcome (A : Type) : Type :=
| Returned (a : A) (w : World)
| Raised (w : World).
Arguments Raised {A} w.

Definition world_of (A : Type) (o : outcome A) : World :=
  match o with Returned _ w => w | Raised w => w end.

Definition Py (A : Type) : Type := World -> outcome A.

Module PyMonad.

Definition ret (A : Type) (a : A) : Py A := fun w => Returned a w.

Definition bind (A B : Type) (c : Py A) (k : A -> Py B) : Py B :=
  fun w => match c w with
           | Returned a w' => k a w'
           | Raised w' => Raised w'
           end.

Definition raise (A : Type) : Py A := fun w => Raised w.

Definition get : Py CPM := fun w => Returned (self w) w.

(** An attribute assignment. *)
Definition assign (f : CPM -> CPM) : Py unit :=
  fun w => Returned tt {| self := f (self w); stdout := stdout w; rng := rng w |}.

Definition print (msg : message) : Py unit :=
  fun w => Returned tt {| self := self w; stdout := stdout w ++ [msg]; rng := rng w |}.

Definition get_rng : Py N := fun w => Returned (rng w) w.

Definition set_rng (g : N) : Py unit :=
  fun w => Returned tt {| self := self w; stdout := stdout w; rng := g |}.

(** An expression that raises when it has no value: an operation on
    [None], an index out of range, shapes that do not match. *)
Definition eval (A : Type) (o : option A) : Py A :=
  match o with
  | Some a => ret a
  | None => raise A
  end.

Definition when (b : bool) (c : Py unit) : Py unit := if b then c else ret tt.

End PyMonad.
Import PyMonad.

Declare Scope py_scope.
Delimit Scope py_scope with py.
Notation "x <- c ;; k" := (bind c (fun x => k))
  (at level 61, c at next level, right associativity) : py_scope.
Notation "c ;; k" := (bind c (fun _ => k))
  (at level 61, right associativity) : py_scope.

(* ================================================================== *)
(** ** Array helpers of the methods *)

Module Img.

Open Scope Qc_scope.

(** [a[mask]]: the mask must be as long as the array. *)
Definition mask_index (A : Type) (mask : list bool) (a : list A) : option (list A) :=
  if Nat.eqb (length mask) (length a) then Some (Vec.select mask a) else None.

(** [a[:, mask]] for a 2-D array given by its rows. *)
Fixpoint select_columns (mask : list bool) (a : list vec) : option (list vec) :=
  match a with
  | [] => Some []
  | r :: a' =>
      match mask_index mask r, select_columns mask a' with
      | Some r', Some rs => Some (r' :: rs)
      | _, _ => None
      end
  end.

(** [cube.shape[1]] and [cube.shape[2]] *)
Definition image_rows (c : cube) : nat := length (hd [] c).

Definition image_cols (c : cube) : nat := length (hd [] (hd [] c)).

Definition pixel (img : image) (row col : nat) : Qc := nth col (nth row img []) 0.

(** [cube[:, row, col]]: an index out of range raises. *)
Definition pixel_series (c : cube) (row col : nat) : option vec :=
  if Nat.ltb row (image_rows c) && Nat.ltb col (image_cols c)
  then Some (map (fun img => pixel img row col) c)
  else None.

(** [np.nanmedian(cube, axis=0)] *)
Definition medians (c : cube) : image :=
  map (fun row => map (fun col => Stats.median (map (fun img => pixel img row col) c))
                      (seq 0 (image_cols c)))
      (seq 0 (image_rows c)).

(** [cube / med - 1], [med] broadcast along the time axis. *)
Definition rescale_image (med img : image) : image :=
  Mat.zip_rows (Vec.zip_with (fun x d => x / d - 1)) img med.

(** [zeros(shape)] with a predicate's entries set: the boolean image
    [fun row col => p row col] of a given shape. *)
Definition tabulate (nr nc : nat) (p : nat -> nat -> bool) : mask2 :=
  map (fun row => map (fun col => p row col) (seq 0 nc)) (seq 0 nr).

Definition count_true (l : list bool) : nat := length (filter (fun b => b) l).

Definition count_false (l : list bool) : nat := length (filter negb l).

End Img.

(* ================================================================== *)
(** ** The methods of [CPM] *)

Section Methods.

Context {np : Numpy}.

Open Scope py_scope.
Open Scope string_scope.

(** Lines 44-91 of [__init__]: every later attribute starts as [None] or
    [False]; [lsq_prediction] is not among them. *)
Definition clear_attributes (s : CPM) : CPM :=
  {| time := time s; im_fluxes := im_fluxes s; im_errors := im_errors s;
     quality := quality s; dump_times := dump_times s;
     pixel_medians := pixel_medians s; im_sidelength := im_sidelength s;
     flattened_pixel_medians := flattened_pixel_medians s;
     rescaled_im_fluxes := rescaled_im_fluxes s;
     flattened_rescaled_im_fluxes := flattened_rescaled_im_fluxes s;
     target_row := None; target_col := None; target_fluxes := None;
     target_errors := None; target_median := None;
     rescaled_target_fluxes := None; rescaled_target_errors := None;
     target_pixel_mask := None; exclusion := None; excluded_pixels_mask := None;
     method_predictor_pixels := None; num_predictor_pixels := None;
     predictor_pixels_locations := None; predictor_pixels_mask := None;
     predictor_pixels_fluxes := None; rescaled_predictor_pixels_fluxes := None;
     rescale := None; polynomials := None; cpm_regularization := None;
     lsq_params := None; cpm_params := None; poly_params := None;
     orig_m := None; m := None; lsq_prediction := lsq_prediction s;
     const_prediction := None; cpm_prediction := None; poly_prediction := None;
     residual := None; is_target_set := false; is_exclusion_set := false;
     are_predictors_set := false; trained := false; valid := None;
     centered_time := None; scaled_centered_time := None; time_interval := None;
     poly_terms := None; v_matrix := None; poly_reg := None |}.

(** [CPM.__init__], from the arrays read from the FITS file ([TIME],
    [FLUX], [FLUX_ERR], [QUALITY]). *)
Definition init (TIME : vec) (FLUX FLUX_ERR : cube) (QUALITY : list Z)
    (remove_bad : bool) : Py unit :=
  assign (Assign.time TIME) ;;
  assign (Assign.im_fluxes FLUX) ;;
  assign (Assign.im_errors FLUX_ERR) ;;
  assign (Assign.quality QUALITY) ;;
  dump <- eval (Img.mask_index (map (Z.ltb 0) QUALITY) TIME) ;;
  assign (Assign.dump_times dump) ;;
  when remove_bad (
    let bool_good := map (Z.eqb 0) QUALITY in
    print (RemovingBadDataPoints (Img.count_false bool_good) (length bool_good)) ;;
    t <- eval (Img.mask_index bool_good TIME) ;;
    assign (Assign.time t) ;;
    f <- eval (Img.mask_index bool_good FLUX) ;;
    assign (Assign.im_fluxes f) ;;
    e <- eval (Img.mask_index bool_good FLUX_ERR) ;;
    assign (Assign.im_errors e)) ;;
  s <- get ;;
  let med := Img.medians (im_fluxes s) in
  assign (Assign.pixel_medians med) ;;
  first <- eval (nth_error (im_fluxes s) 0) ;;
  let side := length first in
  assign (Assign.im_sidelength side) ;;
  (* reshape(side**2) needs side*side entries *)
  (if Nat.eqb (Img.image_rows (im_fluxes s) * Img.image_cols (im_fluxes s)) (side * side)
   then ret tt else raise unit) ;;
  assign (Assign.flattened_pixel_medians (concat med)) ;;
  let rescaled := map (Img.rescale_image med) (im_fluxes s) in
  assign (Assign.rescaled_im_fluxes rescaled) ;;
  (* reshape(time.shape[0], side**2) *)
  (if Nat.eqb (length (time s)) (length (im_fluxes s)) || Nat.eqb side 0
   then ret tt else raise unit) ;;
  assign (Assign.flattened_rescaled_im_fluxes
            (if Nat.eqb side 0 then repeat [] (length (time s))
             else map (@concat Qc) rescaled)) ;;
  assign clear_attributes.

(** The world in which a constructor starts: an object without
    attributes. *)
Definition no_attributes : CPM :=
  clear_attributes
    (mkCPM [] [] [] [] [] [] 0 [] [] [] None None None None None None None None
       None None None None None None None None None None None None None None
       None None None None None None None false false false false None None
       None None None None None).

Definition set_poly_model (time_interval : Qc) (poly_terms : nat) (poly_reg : Qc)
    : Py unit :=
  s <- get ;;
  assign (Assign.time_interval (Some time_interval)) ;;
  (* time.max() and time.min() raise on an empty array *)
  t0 <- eval (hd_error (time s)) ;;
  let tmax := fold_right (fun x y => if Qc_leb y x then x else y) t0 (time s) in
  let tmin := fold_right (fun x y => if Qc_leb x y then x else y) t0 (time s) in
  let centered := map (fun t => (t - (tmax + tmin) / Scalar.of_nat 2) / (tmax - tmin))%Qc
                      (time s) in
  assign (Assign.centered_time (Some centered)) ;;
  let scaled := map (Qcmult time_interval) centered in
  assign (Assign.scaled_centered_time (Some scaled)) ;;
  assign (Assign.poly_terms (Some poly_terms)) ;;
  assign (Assign.v_matrix
            (Some {| ncols := poly_terms;
                     rows := map (fun x => map (Qcpower x) (seq 0 poly_terms)) scaled |})) ;;
  assign (Assign.poly_reg (Some poly_reg)).

Definition set_target (target_row target_col : nat) : Py unit :=
  s <- get ;;
  assign (Assign.target_row (Some target_row)) ;;
  assign (Assign.target_col (Some target_col)) ;;
  tf <- eval (Img.pixel_series (im_fluxes s) target_row target_col) ;;
  assign (Assign.target_fluxes (Some tf)) ;;
  te <- eval (Img.pixel_series (im_errors s) target_row target_col) ;;
  assign (Assign.target_errors (Some te)) ;;
  let med := Stats.median tf in
  assign (Assign.target_median (Some med)) ;;
  rtf <- eval (Img.pixel_series (rescaled_im_fluxes s) target_row target_col) ;;
  assign (Assign.rescaled_target_fluxes (Some rtf)) ;;
  assign (Assign.rescaled_target_errors (Some (map (fun e => e / med)%Qc te))) ;;
  first <- eval (nth_error (im_fluxes s) 0) ;;
  (* masked where target_pixel == 0 *)
  assign (Assign.target_pixel_mask
            (Some (Img.tabulate (length first) (length (hd [] first))
                     (fun row col => negb (Nat.eqb row target_row && Nat.eqb col target_col))))) ;;
  assign (Assign.is_target_set true).

(** The slice [max(0, x-exc) : min(x+exc+1, im_side_length)]. *)
Definition in_band (x exc side i : nat) : bool :=
  Nat.leb (x - exc) i && Nat.ltb i (Nat.min (x + exc + 1) side).

Definition set_exclusion (exclusion : nat) (method : string) : Py unit :=
  s <- get ;;
  if negb (is_target_set s) then
    print PleaseSetTarget
  else
    let r := target_row s in
    let c := target_col s in
    assign (Assign.exclusion (Some exclusion)) ;;
    let exc := exclusion in
    let im_side_length := Img.image_rows (im_fluxes s) in
    first <- eval (nth_error (im_fluxes s) 0) ;;
    let shape := (length first, length (hd [] first)) in
    excluded <-
      (if String.eqb method "cross" then
         r <- eval r ;; c <- eval c ;;
         ret (fun row col => in_band r exc im_side_length row
                             || in_band c exc im_side_length col)
       else if String.eqb method "row_exclude" then
         r <- eval r ;;
         ret (fun row (_ : nat) => in_band r exc im_side_length row)
       else if String.eqb method "col_exclude" then
         c <- eval c ;;
         ret (fun (_ : nat) col => in_band c exc im_side_length col)
       else if String.eqb method "closest" then
         r <- eval r ;; c <- eval c ;;
         ret (fun row col => in_band r exc im_side_length row
                             && in_band c exc im_side_length col)
       else ret (fun _ _ => false)) ;;
    (* masked where excluded_pixels == 0: the mask is True on the pixels
       that are not excluded *)
    assign (Assign.excluded_pixels_mask
              (Some (Img.tabulate (fst shape) (snd shape)
                       (fun row col => negb (excluded row col))))) ;;
    assign (Assign.is_exclusion_set true).

(** [np.random.choice(a, size=size, replace=False)] *)
Definition random_choice (a : list nat) (size : nat) : Py (list nat) :=
  if Nat.ltb (length a) size then raise (list nat)
  else
    g <- get_rng ;;
    let (perm, g') := np_random_permutation g (length a) in
    set_rng g' ;;
    eval (Mat.gather (firstn size perm) a).

(** [np.random.seed(seed)] takes a seed between 0 and 2**32 - 1 and
    raises (ValueError) on any other. *)
Definition seed_in_range (seed : Z) : bool := ((0 <=? seed) && (seed <? 2 ^ 32))%Z.

Definition seed_generator (seed : Z) : Py unit :=
  if seed_in_range seed then set_rng (np_random_seed seed) else raise unit.

Definition set_predictor_pixels (num_predictor_pixels : nat) (method : string)
    (seed : option Z) : Py unit :=
  match seed with
  | Some sd => seed_generator sd
  | None => ret tt
  end ;;
  s <- get ;;
  if negb (is_target_set s) || negb (is_exclusion_set s) then
    print PleaseSetTargetAndExclusion
  else
    assign (Assign.method_predictor_pixels (Some method)) ;;
    assign (Assign.num_predictor_pixels (Some num_predictor_pixels)) ;;
    let im_side_length := Img.image_rows (im_fluxes s) in
    let coordinate_idx := seq 0 (im_side_length * im_side_length) in
    mask <- eval (excluded_pixels_mask s) ;;
    possible_idx <- eval (Img.mask_index (concat mask) coordinate_idx) ;;
    chosen_idx <-
      (if String.eqb method "random" then
         random_choice possible_idx num_predictor_pixels
       else if String.eqb method "similar_brightness" then
         possible_pixel_medians <-
           eval (Img.mask_index (concat mask) (flattened_pixel_medians s)) ;;
         target_median <- eval (target_median s) ;;
         let diff := map (fun x => Qc_abs (x - target_median)%Qc) possible_pixel_medians in
         eval (Mat.gather (firstn num_predictor_pixels (np_argsort diff)) possible_idx)
       else if String.eqb method "cosine_similarity" then
         possible <-
           eval (Img.select_columns (concat mask) (flattened_rescaled_im_fluxes s)) ;;
         let possible_T :=
           Mat.transpose {| ncols := length possible_idx; rows := possible |} in
         rtf <- eval (rescaled_target_fluxes s) ;;
         dots <- eval (Mat.dot_mv possible_T rtf) ;;
         let cos_similarity :=
           Vec.zip_with (fun d nrm => d / (nrm * Stats.norm rtf))%Qc
                        dots (map Stats.norm (rows possible_T)) in
         eval (Mat.gather (firstn num_predictor_pixels (rev (np_argsort cos_similarity)))
                          possible_idx)
       else raise (list nat)) ;;
    let locations := map (fun idx => (idx / im_side_length, idx mod im_side_length)%nat)
                         chosen_idx in
    assign (Assign.predictor_pixels_locations (Some locations)) ;;
    first <- eval (nth_error (im_fluxes s) 0) ;;
    (* loc[0] of an empty selection raises *)
    (if Nat.eqb (length locations) 0 then raise unit else ret tt) ;;
    let fluxes_at (c : cube) :=
      {| ncols := length locations;
         rows := map (fun img => map (fun rc => Img.pixel img (fst rc) (snd rc)) locations) c |} in
    assign (Assign.predictor_pixels_fluxes (Some (fluxes_at (im_fluxes s)))) ;;
    assign (Assign.rescaled_predictor_pixels_fluxes
              (Some (fluxes_at (rescaled_im_fluxes s)))) ;;
    assign (Assign.predictor_pixels_mask
              (Some (Img.tabulate (length first) (length (hd [] first))
                       (fun row col =>
                          negb (existsb (fun rc => Nat.eqb (fst rc) row && Nat.eqb (snd rc) col)
                                        locations))))) ;;
    assign (Assign.are_predictors_set true).

End Methods.

Section Fitting.

Context {np : Numpy}.

Open Scope py_scope.

Definition is_true (b : option bool) : bool :=
  match b with Some true => true | _ => false end.

(** The regularisation matrix of a fit with polynomials:
    [np.hstack((np.repeat(cpm_reg, n), np.repeat(poly_reg, poly_terms)))
     * np.identity(num_components)]. *)
Definition poly_reg_matrix (cpm_reg : Qc) (n : nat) (poly_reg : Qc) (poly_terms : nat)
    (num_components : nat) : option ndarray2 :=
  Mat.broadcast Qcmult (Mat.of_row (repeat cpm_reg n ++ repeat poly_reg poly_terms))
                (Mat.identity num_components).

(** [np.dot(m.T, m) + reg_matrix] and [np.dot(m.T, y)], then
    [np.linalg.solve]. *)
Definition solve_normal_equations (mat : ndarray2) (reg_matrix : ndarray2) (y : vec)
    : option vec :=
  match Mat.dot_mm (Mat.transpose mat) mat with
  | None => None
  | Some mtm =>
      match Mat.broadcast Qcplus mtm reg_matrix with
      | None => None
      | Some a =>
          match Mat.dot_mv (Mat.transpose mat) y with
          | None => None
          | Some b => Mat.solve a b
          end
      end
  end.

(** Lines 249-252 and 333-339: the decomposition of a prediction made
    with the matrix [pm]. *)
Definition decompose (polynomials : option bool) (n : nat) (pm : ndarray2)
    (params : vec) : Py unit :=
  if is_true polynomials then
    const <- eval (nth_error (skipn n params) 0) ;;
    assign (Assign.const_prediction (Some const)) ;;
    cp <- eval (Mat.dot_mv (Mat.cols_to n pm) (firstn n params)) ;;
    assign (Assign.cpm_prediction (Some cp)) ;;
    pp <- eval (Mat.dot_mv (Mat.cols_from n pm) (skipn n params)) ;;
    assign (Assign.poly_prediction (Some (map (fun x => x - const)%Qc pp)))
  else ret tt.

(** Lines 290-301 of [lsq]: the target vector and the predictor matrix,
    raw, rescaled or as passed in.  With [rescale] neither [True] nor
    [False] the names [y] and [m] stay unbound and their first use
    raises. *)
Definition select_inputs (s : CPM) (rescale : option bool) (updated_y : option vec)
    (updated_m : option ndarray2) : Py (option vec * option ndarray2) :=
  match updated_y, updated_m with
  | None, None =>
      match rescale with
      | Some false =>
          print UsingUnscaledValues ;;
          ret (target_fluxes s, predictor_pixels_fluxes s)
      | Some true =>
          ret (rescaled_target_fluxes s, rescaled_predictor_pixels_fluxes s)
      | None => raise (option vec * option ndarray2)
      end
  | _, _ => ret (updated_y, updated_m)
  end.

(** Lines 307-313 of [lsq]: the design matrix and the regularisation
    matrix. *)
Definition assemble (s : CPM) (polynomials : option bool) (updated_m : option ndarray2)
    (reg : Qc) (n : nat) (mat : option ndarray2) : Py (option ndarray2 * ndarray2) :=
  if is_true polynomials then
    m1 <- match updated_m with
          | None =>
              m0 <- eval mat ;;
              v <- eval (v_matrix s) ;;
              h <- eval (Mat.hstack m0 v) ;;
              ret (Some h)
          | Some _ => ret mat
          end ;;
    v <- eval (v_matrix s) ;;
    let num_components := (n + ncols v)%nat in
    pr <- eval (poly_reg s) ;;
    pt <- eval (poly_terms s) ;;
    rm <- eval (poly_reg_matrix reg n pr pt num_components) ;;
    ret (m1, rm)
  else ret (mat, Mat.scale reg (Mat.identity n)).

Definition lsq (cpm_reg : option Qc) (rescale polynomials : option bool)
    (updated_y : option vec) (updated_m : option ndarray2) : Py (vec * vec) :=
  s <- get ;;
  when (negb (is_target_set s) || negb (is_exclusion_set s)
        || negb (are_predictors_set s))
       (print YouMissedAStep) ;;
  assign (Assign.cpm_regularization cpm_reg) ;;
  let num_components := num_predictor_pixels s in
  assign (Assign.rescale rescale) ;;
  assign (Assign.polynomials polynomials) ;;
  reg <- eval cpm_reg ;;
  n <- eval num_components ;;
  ym <- select_inputs s rescale updated_y updated_m ;;
  mr <- assemble s polynomials updated_m reg n (snd ym) ;;
  let y := fst ym in
  let mat := fst mr in
  let reg_matrix := snd mr in
  when (negb (trained s)) (assign (Assign.orig_m mat)) ;;
  assign (Assign.m mat) ;;
  mat <- eval mat ;;
  y <- eval y ;;
  params <- eval (solve_normal_equations mat reg_matrix y) ;;
  assign (Assign.lsq_params (Some params)) ;;
  assign (Assign.cpm_params (Some (firstn n params))) ;;
  assign (Assign.poly_params (Some (skipn n params))) ;;
  s1 <- get ;;
  om <- eval (orig_m s1) ;;
  prediction <- eval (Mat.dot_mv om params) ;;
  assign (Assign.lsq_prediction (Some prediction)) ;;
  assign (Assign.const_prediction None) ;;
  assign (Assign.cpm_prediction None) ;;
  assign (Assign.poly_prediction None) ;;
  decompose polynomials n om params ;;
  assign (Assign.trained true) ;;
  rtf <- eval (rescaled_target_fluxes s) ;;
  res <- eval (Vec.broadcast Qcminus rtf prediction) ;;
  assign (Assign.residual (Some res)) ;;
  ret (prediction, res).

(** The body of the loop of [xval] over the folds; [prediction] and
    [res] are the two lists it appends to. *)
Fixpoint xval_folds (folds : list (list nat * list nat)) (polynomials : option bool)
    (n : nat) (y : option vec) (mat : option ndarray2) (reg_matrix : ndarray2)
    (prediction res : list vec) : Py (list vec * list vec) :=
  match folds with
  | [] => ret (prediction, res)
  | (train, test) :: folds' =>
      yv <- eval y ;;
      y_train <- eval (Mat.gather train yv) ;;
      mv <- eval mat ;;
      m_train <- eval (Mat.take_rows train mv) ;;
      y_test <- eval (Mat.gather test yv) ;;
      m_test <- eval (Mat.take_rows test mv) ;;
      params <- eval (solve_normal_equations m_train reg_matrix y_train) ;;
      assign (Assign.lsq_params (Some params)) ;;
      assign (Assign.cpm_params (Some (firstn n params))) ;;
      assign (Assign.poly_params (Some (skipn n params))) ;;
      lsq_prediction <- eval (Mat.dot_mv m_test params) ;;
      assign (Assign.lsq_prediction (Some lsq_prediction)) ;;
      assign (Assign.const_prediction None) ;;
      assign (Assign.cpm_prediction None) ;;
      assign (Assign.poly_prediction None) ;;
      decompose polynomials n m_test params ;;
      assign (Assign.trained true) ;;
      let prediction := prediction ++ [lsq_prediction] in
      let res := res ++ [lsq_prediction] in
      residual <- eval (Vec.broadcast Qcminus y_test lsq_prediction) ;;
      assign (Assign.residual (Some residual)) ;;
      xval_folds folds' polynomials n y mat reg_matrix prediction res
  end.

Definition xval (cpm_reg : option Qc) (rescale polynomials : option bool) (k : nat)
    : Py (list vec * list vec) :=
  s <- get ;;
  when (negb (is_target_set s) || negb (is_exclusion_set s)
        || negb (are_predictors_set s))
       (print YouMissedAStep) ;;
  assign (Assign.cpm_regularization cpm_reg) ;;
  let num_components := num_predictor_pixels s in
  assign (Assign.rescale rescale) ;;
  assign (Assign.polynomials polynomials) ;;
  reg <- eval cpm_reg ;;
  n <- eval num_components ;;
  let reg_matrix := Mat.scale reg (Mat.identity n) in
  let y := rescaled_target_fluxes s in
  let mat := rescaled_predictor_pixels_fluxes s in
  assign (Assign.m mat) ;;
  mr <-
    (if is_true polynomials then
       m0 <- eval mat ;;
       v <- eval (v_matrix s) ;;
       h <- eval (Mat.hstack m0 v) ;;
       let num_components := (n + ncols v)%nat in
       pr <- eval (poly_reg s) ;;
       pt <- eval (poly_terms s) ;;
       rm <- eval (poly_reg_matrix reg n pr pt num_components) ;;
       ret (Some h, rm)
     else ret (mat, reg_matrix)) ;;
  folds <- eval (KFold.split k (length (time s))) ;;
  xval_folds folds polynomials n y (fst mr) (snd mr) [] [].

(** [_rerun] *)
Definition rerun : Py unit :=
  s <- get ;;
  rtf <- eval (rescaled_target_fluxes s) ;;
  v <- eval (valid s) ;;
  updated_y <- eval (Img.mask_index v rtf) ;;
  om <- eval (orig_m s) ;;
  updated_m <- eval (Mat.select_rows v om) ;;
  lsq (cpm_regularization s) (rescale s) (polynomials s) (Some updated_y) (Some updated_m) ;;
  ret tt.

(** [sigma*np.sqrt(np.sum((diff[valid])**2) / np.sum(valid))]; with no
    valid sample the quotient is 0/0, a NaN ([None]). *)
Definition sigma_boundary (sigma : Qc) (diff_valid : vec) (valid : list bool)
    : option Qc :=
  if Nat.eqb (Img.count_true valid) 0 then None
  else Some (sigma * np_sqrt (Vec.sum (map (fun d => d * d) diff_valid)
                              / Scalar.of_nat (Img.count_true valid)))%Qc.

(** [valid[np.abs(diff) > sigma_boundary] = False]; nothing is greater
    than a NaN. *)
Fixpoint clip (valid : list bool) (diff : vec) (boundary : option Qc) : list bool :=
  match valid, diff with
  | b :: valid', d :: diff' =>
      (match boundary with
       | Some bd => if Qc_ltb bd (Qc_abs d) then false else b
       | None => b
       end) :: clip valid' diff' boundary
  | _, _ => []
  end.

(** One turn of the [while True] loop up to the test of
    [current_clipped_counter]: the new mask. *)
Definition clip_iteration (sigma : Qc) (subtract_polynomials : bool)
    (valid : list bool) : Py (list bool) :=
  s <- get ;;
  model <-
    (if negb subtract_polynomials
        && match cpm_prediction s with Some _ => true | None => false end
     then
       cp <- eval (cpm_prediction s) ;;
       c <- eval (const_prediction s) ;;
       ret (map (fun x => x + c)%Qc cp)
     else eval (lsq_prediction s)) ;;
  rtf <- eval (rescaled_target_fluxes s) ;;
  diff <- eval (Vec.broadcast Qcminus rtf model) ;;
  diff_valid <- eval (Img.mask_index valid diff) ;;
  ret (clip valid diff (sigma_boundary sigma diff_valid valid)).

(** The exit of the loop: the local variables [valid] and [iter_num]
    at the [break], or that the given number of turns did not reach it. *)
Inductive loop_exit : Type :=
| Break (valid : list bool) (iter_num : Z)
| StillLooping.

Fixpoint sigma_clip_loop (turns : nat) (sigma : Qc) (subtract_polynomials : bool)
    (valid : list bool) (prev_clipped_counter iter_num : Z) : Py loop_exit :=
  match turns with
  | O => ret StillLooping
  | S turns' =>
      valid' <- clip_iteration sigma subtract_polynomials valid ;;
      let total_clipped_counter := Z.of_nat (Img.count_false valid') in
      let current_clipped_counter := (total_clipped_counter - prev_clipped_counter)%Z in
      if Z.eqb current_clipped_counter 0 then ret (Break valid' iter_num)
      else
        print (IterationRemoving iter_num current_clipped_counter) ;;
        let prev_clipped_counter := (prev_clipped_counter + current_clipped_counter)%Z in
        let iter_num := (iter_num + 1)%Z in
        assign (Assign.valid (Some valid')) ;;
        rerun ;;
        sigma_clip_loop turns' sigma subtract_polynomials valid'
                        prev_clipped_counter iter_num
  end.

(** [sigma_clip_process]: the loop started on the all-true mask.  The
    Python method returns nothing; the exit of the loop is returned here
    to state properties of it.  One more turn than there are samples is
    always enough (see [sigma_clip_loop_terminates]). *)
Definition sigma_clip_process (sigma : Qc) (subtract_polynomials : bool)
    : Py loop_exit :=
  s <- get ;;
  let valid := repeat true (length (time s)) in
  sigma_clip_loop (S (length (time s))) sigma subtract_polynomials valid 0 1.

(** What the loop does after a turn that clipped something: print,
    store the mask, re-fit, and take the next turn. *)
Definition next_turn (turns : nat) (sigma : Qc) (sub : bool) (valid' : list bool)
    (prev_clipped_counter iter_num : Z) : Py loop_exit :=
  let current := (Z.of_nat (Img.count_false valid') - prev_clipped_counter)%Z in
  print (IterationRemoving iter_num current) ;;
  assign (Assign.valid (Some valid')) ;;
  rerun ;;
  sigma_clip_loop turns sigma sub valid' (prev_clipped_counter + current) (iter_num + 1).

End Fitting.

(* ================================================================== *)
(** ** The default kind of [np.argsort]

    numpy's introsort on an array of indices, [aquicksort_] of
    numpy/_core/src/npysort/quicksort.cpp with [aheapsort_] of
    heapsort.cpp, in the generic form that is compiled for every
    processor (some builds dispatch to vectorised routines instead).  A
    range of more than [SMALL_QUICKSORT + 1] indices is partitioned around
    the median of its first, middle and last key; a shorter one is sorted
    by insertion; a range met after [2 * floor(log2(num))] partitions is
    sorted by heapsort.  The C code works in place on [tosort] through
    pointers, which are positions in the list here; [less] is [<] (there is
    no NaN among the rationals).  Every loop is given as many turns as the
    array is long. *)

Module NumpySort.

Open Scope Qc_scope.

Definition SMALL_QUICKSORT : nat := 16.

Section Keys.

Variable v : vec.

(** [*p], [v[*p]] and [*p = x] *)
Definition deref (a : list nat) (p : nat) : nat := nth p a O.

Definition key (a : list nat) (p : nat) : Qc := nth (deref a p) v 0.

Definition store (a : list nat) (p x : nat) : list nat :=
  firstn p a ++ x :: skipn (S p) a.

Definition INTP_SWAP (a : list nat) (p q : nat) : list nat :=
  store (store a p (deref a q)) q (deref a p).

(** The three tests that put the median of [*pl], [*pm], [*pr] at [pm] *)
Definition median_of_three (a : list nat) (pl pm pr : nat) : list nat :=
  let a := if Qc_ltb (key a pm) (key a pl) then INTP_SWAP a pm pl else a in
  let a := if Qc_ltb (key a pr) (key a pm) then INTP_SWAP a pr pm else a in
  if Qc_ltb (key a pm) (key a pl) then INTP_SWAP a pm pl else a.

(** [do { ++pi; } while (less(v[*pi], vp));] *)
Fixpoint advance (fuel : nat) (a : list nat) (vp : Qc) (pi : nat) : nat :=
  match fuel with
  | O => pi
  | S fuel' =>
      let pi := S pi in
      if Qc_ltb (key a pi) vp then advance fuel' a vp pi else pi
  end.

(** [do { --pj; } while (less(vp, v[*pj]));] *)
Fixpoint retreat (fuel : nat) (a : list nat) (vp : Qc) (pj : nat) : nat :=
  match fuel with
  | O => pj
  | S fuel' =>
      let pj := Nat.pred pj in
      if Qc_ltb vp (key a pj) then retreat fuel' a vp pj else pj
  end.

(** The [for (;;)] loop of the partition: the array and [pi] at its
    [break]. *)
Fixpoint exchange (fuel : nat) (a : list nat) (vp : Qc) (pi pj : nat)
    : list nat * nat :=
  match fuel with
  | O => (a, pi)
  | S fuel' =>
      let pi := advance (length a) a vp pi in
      let pj := retreat (length a) a vp pj in
      if Nat.leb pj pi then (a, pi)
      else exchange fuel' (INTP_SWAP a pi pj) vp pi pj
  end.

(** One partition of [pl .. pr]: the array and the place [pi] of the
    pivot. *)
Definition partition (a : list nat) (pl pr : nat) : list nat * nat :=
  let pm := (pl + Nat.div2 (pr - pl))%nat in
  let a := median_of_three a pl pm pr in
  let vp := key a pm in
  let a := INTP_SWAP a pm (pr - 1) in
  let (a, pi) := exchange (length a) a vp pl (pr - 1) in
  (INTP_SWAP a pi (pr - 1), pi).

(** [while (pj > pl && less(vp, v[*pk])) { *pj-- = *pk--; }], with [pk]
    one below [pj] *)
Fixpoint shift (fuel : nat) (a : list nat) (pl : nat) (vp : Qc) (pj : nat)
    : list nat * nat :=
  match fuel with
  | O => (a, pj)
  | S fuel' =>
      if Nat.ltb pl pj && Qc_ltb vp (key a (pj - 1))
      then shift fuel' (store a pj (deref a (pj - 1))) pl vp (pj - 1)
      else (a, pj)
  end.

Definition insertion_sort (a : list nat) (pl pr : nat) : list nat :=
  fold_left (fun a pi =>
               let vi := deref a pi in
               let (a, pj) := shift (length a) a pl (nth vi v 0) pi in
               store a pj vi)
            (seq (S pl) (pr - pl)) a.

(** [aheapsort_] on the [n] indices from [pl] on; its array is offset by
    one, so that [a[k]] is the place [pl + k - 1]. *)
Section Heap.

Variable pl : nat.

Definition place (k : nat) : nat := (pl + k - 1)%nat.

(** The inner [for (i = .., j = ..; j <= n;)] loop, and [a[i] = tmp] *)
Fixpoint sift (fuel : nat) (a : list nat) (n tmp i j : nat) : list nat :=
  match fuel with
  | O => store a (place i) tmp
  | S fuel' =>
      if Nat.leb j n then
        let j := if Nat.ltb j n && Qc_ltb (key a (place j)) (key a (place (j + 1)))
                 then (j + 1)%nat else j in
        if Qc_ltb (nth tmp v 0) (key a (place j))
        then sift fuel' (store a (place i) (deref a (place j))) n tmp j (j + j)
        else store a (place i) tmp
      else store a (place i) tmp
  end.

(** [for (l = n >> 1; l > 0; --l)] *)
Definition heapify (a : list nat) (n : nat) : list nat :=
  fold_left (fun a l => sift (length a) a n (deref a (place l)) l (l + l))
            (rev (seq 1 (Nat.div2 n))) a.

(** [for (; n > 1;)] *)
Fixpoint drain (fuel : nat) (a : list nat) (n : nat) : list nat :=
  match fuel with
  | O => a
  | S fuel' =>
      if Nat.ltb 1 n then
        let tmp := deref a (place n) in
        let a := store a (place n) (deref a (place 1)) in
        let n := (n - 1)%nat in
        drain fuel' (sift (length a) a n tmp 1 2) n
      else a
  end.

Definition aheapsort (a : list nat) (n : nat) : list nat :=
  drain (length a) (heapify a n) n.

End Heap.

(** A range that waits on the stack, with its depth *)
Definition frame : Type := (nat * nat * Z)%type.

(** [while ((pr - pl) > SMALL_QUICKSORT)]: partition, push the larger
    part, go on with the smaller. *)
Fixpoint partition_while (fuel : nat) (a : list nat) (pl pr : nat) (cdepth : Z)
    (stack : list frame) : list nat * nat * nat * list frame :=
  match fuel with
  | O => (a, pl, pr, stack)
  | S fuel' =>
      if Nat.ltb SMALL_QUICKSORT (pr - pl) then
        let (a, pi) := partition a pl pr in
        let cdepth := (cdepth - 1)%Z in
        if Nat.ltb (pi - pl) (pr - pi)
        then partition_while fuel' a pl (pi - 1) cdepth ((S pi, pr, cdepth) :: stack)
        else partition_while fuel' a (S pi) pr cdepth ((pl, (pi - 1)%nat, cdepth) :: stack)
      else (a, pl, pr, stack)
  end.

(** [while (1)]: a range out of depth is sorted by heapsort, any other
    is partitioned down and sorted by insertion; then the next range is
    taken from the stack. *)
Fixpoint sort_ranges (fuel : nat) (a : list nat) (pl pr : nat) (cdepth : Z)
    (stack : list frame) : list nat :=
  match fuel with
  | O => a
  | S fuel' =>
      let '(a, stack) :=
        if (cdepth <? 0)%Z then (aheapsort pl a (pr - pl + 1), stack)
        else
          let '(a, pl, pr, stack) := partition_while (length a) a pl pr cdepth stack in
          (insertion_sort a pl pr, stack) in
      match stack with
      | [] => a
      | (pl, pr, cdepth) :: stack => sort_ranges fuel' a pl pr cdepth stack
      end
  end.

(** [floor(log2(n))], 0 for 0 *)
Definition npy_get_msb (n : nat) : Z := Z.log2 (Z.of_nat n).

Definition aquicksort : list nat :=
  let num := length v in
  sort_ranges (S num) (seq 0 num) 0 (num - 1) (npy_get_msb num * 2)%Z [].

End Keys.

End NumpySort.

(* ================================================================== *)
(** ** Two instances of [Numpy]

    [stable] sorts by insertion and keeps equal keys in index order;
    [quicksort] sorts as numpy's default kind does. *)

Module Reference.

Open Scope Qc_scope.

(** A rational square root, exact on the squares of integers. *)
Definition sqrt_approx (x : Qc) : Qc :=
  Q2Qc (Z.sqrt (Qnum x * Zpos (Qden x) * 1000000) # (Qden x * 1000)).

Section Argsort.

Variable before : Qc -> Qc -> bool.

Fixpoint insert_index (v : vec) (i : nat) (l : list nat) : list nat :=
  match l with
  | [] => [i]
  | j :: l' => if before (nth i v 0) (nth j v 0) then i :: l
               else j :: insert_index v i l'
  end.

Definition argsort (v : vec) : list nat :=
  fold_right (insert_index v) [] (seq 0 (length v)).

End Argsort.

Definition random_seed (seed : Z) : N := Z.to_N (Z.abs seed).

(** A rotation of [0 .. n-1] by the state of the generator. *)
Definition random_permutation (g : N) (n : nat) : list nat * N :=
  let r := (N.to_nat g mod n)%nat in
  (skipn r (seq 0 n) ++ firstn r (seq 0 n), (g * 1103515245 + 12345)%N).

Definition stable : Numpy :=
  {| np_sqrt := sqrt_approx;
     np_argsort := argsort Qc_leb;
     np_random_seed := random_seed;
     np_random_permutation := random_permutation |}.

Definition quicksort : Numpy :=
  {| np_sqrt := sqrt_approx;
     np_argsort := NumpySort.aquicksort;
     np_random_seed := random_seed;
     np_random_permutation := random_permutation |}.

End Reference.

(* ================================================================== *)
(** ** The fit as the specification words it *)

Module Spec.

(** The target vector of a fit: the override when one is given, else
    the rescaled or the raw target series. *)
Definition target_vector (s : CPM) (rescale : option bool) (updated_y : option vec)
    (updated_m : option ndarray2) : option vec :=
  match updated_y, updated_m with
  | None, None =>
      match rescale with
      | Some true => rescaled_target_fluxes s
      | Some false => target_fluxes s
      | None => None
      end
  | _, _ => updated_y
  end.

(** The predictor columns of a fit. *)
Definition predictor_matrix (s : CPM) (rescale : option bool) (updated_y : option vec)
    (updated_m : option ndarray2) : option ndarray2 :=
  match updated_y, updated_m with
  | None, None =>
      match rescale with
      | Some true => rescaled_predictor_pixels_fluxes s
      | Some false => predictor_pixels_fluxes s
      | None => None
      end
  | _, _ => updated_m
  end.

(** The design matrix: the predictor columns, with the trend basis
    concatenated to their right when polynomials are asked for and no
    matrix is passed in. *)
Definition design_matrix (s : CPM) (rescale polynomials : option bool)
    (updated_y : option vec) (updated_m : option ndarray2) : option ndarray2 :=
  match predictor_matrix s rescale updated_y updated_m with
  | None => None
  | Some p =>
      if is_true polynomials then
        match updated_m, v_matrix s with
        | Some _, _ => Some p
        | None, Some v => Mat.hstack p v
        | None, None => None
        end
      else Some p
  end.

(** The diagonal of the regularisation: [cpm_reg] for every predictor
    column, then the trend regularisation for every trend column. *)
Definition regularisation (s : CPM) (cpm_reg : Qc) (polynomials : option bool)
    : option vec :=
  match num_predictor_pixels s with
  | None => None
  | Some n =>
      if is_true polynomials then
        match poly_reg s, v_matrix s with
        | Some pr, Some v => Some (repeat cpm_reg n ++ repeat pr (ncols v))
        | _, _ => None
        end
      else Some (repeat cpm_reg n)
  end.

(** [(M^T M + diag(reg)) beta = M^T y] *)
Definition normal_equations (M : ndarray2) (reg y beta : vec) : Prop :=
  exists MtM b,
    Mat.dot_mm (Mat.transpose M) M = Some MtM /\
    Mat.dot_mv (Mat.transpose M) y = Some b /\
    Mat.dot_mv (Mat.add MtM (Mat.diag reg)) beta = Some b.

(** The ordinary least-squares solution: the normal equations without
    regularisation, solved directly. *)
Definition ols (M : ndarray2) (y : vec) : option vec :=
  match Mat.dot_mm (Mat.transpose M) M, Mat.dot_mv (Mat.transpose M) y with
  | Some MtM, Some b => Mat.solve MtM b
  | _, _ => None
  end.

End Spec.

(* ================================================================== *)
(** ** Notions used to state the properties *)

Section Notions.

Open Scope py_scope.

Inductive fit_result (s : CPM) (cpm_reg : option Qc) (rescale with_polynomials : option bool)
    (updated_y : option vec) (updated_m : option ndarray2) (prediction res : vec)
    (s' : CPM) : Prop :=
| Fit (reg : Qc) (n : nat) (y : vec) (M reg_matrix : ndarray2) (beta : vec)
      (om : ndarray2) (rtf : vec)
    (Hreg : cpm_reg = Some reg)
    (Hn : num_predictor_pixels s = Some n)
    (Hy : Spec.target_vector s rescale updated_y updated_m = Some y)
    (HM : Spec.design_matrix s rescale with_polynomials updated_y updated_m = Some M)
    (Hrm : if is_true with_polynomials then
             exists pr pt v,
               poly_reg s = Some pr /\ poly_terms s = Some pt /\ v_matrix s = Some v /\
               poly_reg_matrix reg n pr pt (n + ncols v) = Some reg_matrix
           else reg_matrix = Mat.scale reg (Mat.identity n))
    (Hsolve : solve_normal_equations M reg_matrix y = Some beta)
    (Hom : Some om = if trained s then orig_m s else Some M)
    (Hpred : Mat.dot_mv om beta = Some prediction)
    (Hrtf : rescaled_target_fluxes s = Some rtf)
    (Hres : Vec.broadcast Qcminus rtf prediction = Some res)
    (Hm' : m s' = Some M)
    (Horig' : orig_m s' = Some om)
    (Hparams' : lsq_params s' = Some beta)
    (Hcpm' : cpm_params s' = Some (firstn n beta))
    (Hpoly' : poly_params s' = Some (skipn n beta))
    (Hpred' : lsq_prediction s' = Some prediction)
    (Htrained' : trained s' = true)
    (Hres' : residual s' = Some res)
    (Hflag' : polynomials s' = with_polynomials)
    (Hn' : num_predictor_pixels s' = Some n)
    (Hdec : if is_true with_polynomials then
              exists const cp pp,
                nth_error (skipn n beta) 0 = Some const /\
                Mat.dot_mv (Mat.cols_to n om) (firstn n beta) = Some cp /\
                Mat.dot_mv (Mat.cols_from n om) (skipn n beta) = Some pp /\
                const_prediction s' = Some const /\
                cpm_prediction s' = Some cp /\
                poly_prediction s' = Some (map (fun x => x - const)%Qc pp)
            else const_prediction s' = None /\ cpm_prediction s' = None /\
                 poly_prediction s' = None).

(** What [set_poly_model] leaves: [poly_terms] is the width of the
    trend basis. *)
Definition trend_consistent (s : CPM) : Prop :=
  match v_matrix s with
  | Some v => poly_terms s = Some (ncols v)
  | None => True
  end.

(** The sum, sample by sample, of the constant, the predictor part and
    the trend part with the constant removed. *)
Definition recompose (const : Qc) (cp pp : vec) : vec :=
  Vec.add (map (Qcplus const) cp) pp.

(** A later fit: a call of [lsq], or the re-fit of the sigma-clipping
    loop. *)
Inductive refit : Type :=
| CallLsq (cpm_reg : option Qc) (rescale polynomials : option bool)
          (updated_y : option vec) (updated_m : option ndarray2)
| CallRerun.

Definition run_refit (c : refit) : Py unit :=
  match c with
  | CallLsq cpm_reg rescale polynomials updated_y updated_m =>
      lsq cpm_reg rescale polynomials updated_y updated_m ;; ret tt
  | CallRerun => rerun
  end.

(** The world after a sequence of fits, whether they return or raise. *)
Fixpoint run_refits (cs : list refit) (w : World) : World :=
  match cs with
  | [] => w
  | c :: cs' => run_refits cs' (world_of (run_refit c w))
  end.

(** The predictions stored in [s'] are those of the matrix [om] with the
    coefficients stored in [s']. *)
Definition predicted_from (om : ndarray2) (s' : CPM) : Prop :=
  exists beta n,
    lsq_params s' = Some beta /\ num_predictor_pixels s' = Some n /\
    lsq_prediction s' = Mat.dot_mv om beta /\
    (is_true (polynomials s') = true ->
     exists const,
       const_prediction s' = Some const /\
       cpm_prediction s' = Mat.dot_mv (Mat.cols_to n om) (firstn n beta) /\
       poly_prediction s' =
         option_map (map (fun x => x - const)%Qc)
                    (Mat.dot_mv (Mat.cols_from n om) (skipn n beta))).

(** [keeps I c]: whatever [c] does, returning or raising, it takes a
    world in [I] to a world in [I]. *)
Definition keeps (I : World -> Prop) (A : Type) (c : Py A) : Prop :=
  forall w, I w -> I (world_of (c w)).

(** [orig_m] is [o] and the object is trained. *)
Definition frozen (o : option ndarray2) (w : World) : Prop :=
  orig_m (self w) = o /\ trained (self w) = true.

(** The number of flagged samples. *)
Definition nonzero_count (QUALITY : list Z) : nat :=
  length (filter (fun x => negb (Z.eqb x 0)) QUALITY).

(** What one fold computes: the coefficients solve the normal equations
    of the training rows, and the prediction is made with the held-out
    rows. *)
Definition fold_prediction (y : option vec) (mat : option ndarray2)
    (reg_matrix : ndarray2) (fold : list nat * list nat) (prediction : vec) : Prop :=
  exists yv mv y_train m_train m_test params,
    y = Some yv /\ mat = Some mv /\
    Mat.gather (fst fold) yv = Some y_train /\
    Mat.take_rows (fst fold) mv = Some m_train /\
    Mat.take_rows (snd fold) mv = Some m_test /\
    solve_normal_equations m_train reg_matrix y_train = Some params /\
    Mat.dot_mv m_test params = Some prediction.

(** [shrinks v' v]: the mask [v'] is [v] with some entries turned to
    [False]: no entry that is [False] in [v] is [True] in [v']. *)
Definition shrinks (v' v : list bool) : Prop :=
  Forall2 (fun b' b => b' = true -> b = true) v' v.

(** The seeds that [set_predictor_pixels] can be given without a raise:
    none, or one that [np.random.seed] accepts. *)
Definition accepted (seed : option Z) : bool :=
  match seed with
  | Some sd => seed_in_range sd
  | None => true
  end.

Definition value_of (A : Type) (d : A) (o : outcome A) : A :=
  match o with Returned a _ => a | Raised _ => d end.

Definition get_or (A : Type) (d : A) (o : option A) : A :=
  match o with Some a => a | None => d end.

End Notions.

(* ================================================================== *)
(** ** A small data set *)

Module Example.

Local Open Scope py_scope.
Local Open Scope string_scope.

Definition q (z : Z) : Qc := of_Z z.

Definition img (a b c d e f g h i : Z) : image :=
  [[q a; q b; q c]; [q d; q e; q f]; [q g; q h; q i]].

(** Five samples of a 3x3 image; the third sample is flagged. *)
Definition TIME : vec := [q 0; q 1; q 2; q 3; q 4].

Definition QUALITY : list Z := [0; 0; 8; 0; 0]%Z.

Definition FLUX : cube :=
  [img 10 20 30  12 8 40  50 60 70;
   img 12 22 33  16 10 44  55 66 77;
   img 99 99 99  99 99 99  99 99 99;
   img 14 26 36  20 14 48  60 72 84;
   img 16 28 39  28 16 52  65 78 91].

Definition FLUX_ERR : cube := map (map (map (fun _ => q 1))) FLUX.

Definition start : World := {| self := no_attributes; stdout := []; rng := 0%N |}.

(** [CPM(file, remove_bad=True)] *)
Definition loaded : World := world_of (init TIME FLUX FLUX_ERR QUALITY true start).

(** [set_poly_model(1, 2, 1)], [set_target(1, 1)], [set_exclusion(0)] *)
Definition targeted : World :=
  world_of ((set_poly_model (q 1) 2 (q 1) ;;
             set_target 1 1 ;;
             set_exclusion 0 "closest") loaded).

(** [set_predictor_pixels(2)] *)
Definition ready : World :=
  world_of (set_predictor_pixels (np := Reference.stable) 2 "similar_brightness" None
              targeted).

(** [lsq(1, rescale=True, polynomials=True)] *)
Definition fit : outcome (vec * vec) :=
  lsq (Some (q 1)) (Some true) (Some true) None None ready.

Definition fitted : World := world_of fit.

Definition design : ndarray2 :=
  match Spec.design_matrix (self ready) (Some true) (Some true) None None with
  | Some M => M
  | None => Mat.identity 0
  end.

(** [lsq(0, rescale=True, polynomials=False)] *)
Definition plain_fit : outcome (vec * vec) :=
  lsq (Some 0%Qc) (Some true) (Some false) None None ready.
Definition plain_fitted : World := world_of plain_fit.

Definition plain_design : ndarray2 :=
  get_or (Mat.identity 0)
         (Spec.design_matrix (self ready) (Some true) (Some false) None None).

(** [sigma_clip_process(sigma=1)] after the fit *)
Definition clipping : outcome loop_exit :=
  sigma_clip_process (np := Reference.stable) (q 1) false fitted.
Definition clipped : World := world_of clipping.

End Example.

(** One sample of a flat 5x5 image: the 24 pixels that are eligible for
    the target pixel [(2, 2)] are all equally far from it. *)
Module Tie.

Local Open Scope py_scope.
Local Open Scope string_scope.

Definition FLUX : cube := [repeat (repeat (Example.q 100) 5) 5].

Definition targeted : World :=
  world_of ((init [Example.q 0] FLUX FLUX [0%Z] true ;;
             set_target 2 2 ;;
             set_exclusion 0 "closest") Example.start).

(** [np.abs(possible_pixel_medians - self.target_median)] on that
    object *)
Definition diff : vec :=
  let s := self targeted in
  let mask := get_or [] (excluded_pixels_mask s) in
  let possible_pixel_medians :=
    get_or [] (Img.mask_index (concat mask) (flattened_pixel_medians s)) in
  map (fun x => Qc_abs (x - get_or 0%Qc (target_median s))%Qc) possible_pixel_medians.

End Tie.

(* ================================================================== *)
(** ** The rest of the class

    [set_target_exclusion_predictors], [get_contributing_pixels], the
    whole-image methods [_batch], [entire_image] and
    [difference_image_sap], and [_reset]. *)

Section Convenience.

Context {np : Numpy}.

Open Scope py_scope.

Definition set_target_exclusion_predictors (target_row target_col exclusion : nat)
    (exclusion_method : string) (num_predictor_pixels : nat) (predictor_method : string)
    (seed : option Z) : Py unit :=
  set_target target_row target_col ;;
  set_exclusion exclusion exclusion_method ;;
  set_predictor_pixels num_predictor_pixels predictor_method seed.

End Convenience.

(** The attributes that only the whole-image methods use are kept in a
    record of their own beside [CPM], with the line that only
    [get_contributing_pixels] prints; the order of that line among the
    lines of [stdout] is not kept. *)
Record Images : Type := mkImages {
  im_predicted_fluxes : option cube;
  im_diff : option cube;
  over_entire_image : bool
}.

(** [self.attr = v] for the attributes of [Images]. *)
Definition set_im_predicted_fluxes (v : option cube) (im : Images) : Images :=
  {| im_predicted_fluxes := v; im_diff := im_diff im;
     over_entire_image := over_entire_image im |}.

Definition set_im_diff (v : option cube) (im : Images) : Images :=
  {| im_predicted_fluxes := im_predicted_fluxes im; im_diff := v;
     over_entire_image := over_entire_image im |}.

Definition set_over_entire_image (v : bool) (im : Images) : Images :=
  {| im_predicted_fluxes := im_predicted_fluxes im; im_diff := im_diff im;
     over_entire_image := v |}.

Inductive notice : Type :=
| YouNeedToTrainFirst.

Record Session : Type := mkSession {
  world : World;
  images : Images;
  notices : list notice
}.

(** A method of this part returns, raises, or goes where the embedding
    does not follow it ([Beyond]): to a negative index, which numpy counts
    from the far edge and the natural numbers of [set_target] do not
    express. *)
Inductive result (A : Type) : Type :=
| Done (a : A) (s : Session)
| Failed (s : Session)
| Beyond.
Arguments Failed {A} s.
Arguments Beyond {A}.

Definition PyS (A : Type) : Type := Session -> result A.

Module Run.

Definition ret (A : Type) (a : A) : PyS A := fun s => Done a s.

Definition bind (A B : Type) (c : PyS A) (k : A -> PyS B) : PyS B :=
  fun s => match c s with
           | Done a s' => k a s'
           | Failed s' => Failed s'
           | Beyond => Beyond
           end.

Definition raise (A : Type) : PyS A := fun s => Failed s.

Definition beyond (A : Type) : PyS A := fun _ => Beyond.

(** A method that works on the attributes of [CPM] alone, run on the
    object of the session. *)
Definition lift (A : Type) (c : Py A) : PyS A :=
  fun s => match c (world s) with
           | Returned a w => Done a {| world := w; images := images s; notices := notices s |}
           | Raised w => Failed {| world := w; images := images s; notices := notices s |}
           end.

Definition get_images : PyS Images := fun s => Done (images s) s.

Definition assign_images (f : Images -> Images) : PyS unit :=
  fun s => Done tt {| world := world s; images := f (images s); notices := notices s |}.

Definition notify (n : notice) : PyS unit :=
  fun s => Done tt {| world := world s; images := images s; notices := notices s ++ [n] |}.

Definition eval (A : Type) (o : option A) : PyS A :=
  match o with
  | Some a => ret a
  | None => raise A
  end.

Definition when (b : bool) (c : PyS unit) : PyS unit := if b then c else ret tt.

End Run.

Declare Scope run_scope.
Delimit Scope run_scope with run.
Notation "x <- c ;; k" := (Run.bind c (fun x => k))
  (at level 61, c at next level, right associativity) : run_scope.
Notation "c ;; k" := (Run.bind c (fun _ => k))
  (at level 61, right associativity) : run_scope.


(** [np.empty(shape)] returns an array of the shape asked for whose
    entries are whatever the memory held. *)
Class Memory : Type := {
  np_empty : nat -> nat -> nat -> cube
}.

Module Cube.

Open Scope Qc_scope.

Definition has_shape (t r c : nat) (a : cube) : Prop :=
  length a = t /\
  Forall (fun img => length img = r /\ Forall (fun row => length row = c) img) a.

Fixpoint replace (A : Type) (i : nat) (x : A) (l : list A) : list A :=
  match l, i with
  | [], _ => []
  | _ :: l', O => x :: l'
  | y :: l', S i' => y :: replace i' x l'
  end.

Definition set_pixel (img : image) (row col : nat) (x : Qc) : image :=
  replace row (replace col x (nth row img [])) img.

Fixpoint zip_images (f : image -> Qc -> image) (a : cube) (v : vec) : cube :=
  match a, v with
  | img :: a', x :: v' => f img x :: zip_images f a' v'
  | _, _ => []
  end.

(** [a[:, row, col] = v]: the indices must lie in the image, and [v] must
    have one entry per sample or a single entry. *)
Definition set_series (a : cube) (row col : nat) (v : vec) : option cube :=
  if Nat.ltb row (Img.image_rows a) && Nat.ltb col (Img.image_cols a) then
    if Nat.eqb (length v) (length a)
    then Some (zip_images (fun img x => set_pixel img row col x) a v)
    else match v with
         | [x] => Some (map (fun img => set_pixel img row col x) a)
         | _ => None
         end
  else None.

Definition as_array (img : image) : ndarray2 :=
  {| ncols := length (hd [] img); rows := img |}.

Fixpoint zip_cubes (f : Qc -> Qc -> Qc) (a b : cube) : option cube :=
  match a, b with
  | x :: a', y :: b' =>
      match Mat.broadcast f (as_array x) (as_array y), zip_cubes f a' b' with
      | Some z, Some c => Some (rows z :: c)
      | _, _ => None
      end
  | _, _ => Some []
  end.

(** numpy broadcasting of an elementwise operation on two 3-D arrays. *)
Definition broadcast (f : Qc -> Qc -> Qc) (a b : cube) : option cube :=
  match Mat.bshape (length a) (length b) with
  | Some t => zip_cubes f (Mat.stretch [] t a) (Mat.stretch [] t b)
  | None => None
  end.

(** [l[a:b]] *)
Definition slice (A : Type) (a b : nat) (l : list A) : list A :=
  firstn (b - a) (skipn a l).

(** [np.sum(a, axis=(1, 2))] *)
Definition sum_images (a : cube) : vec :=
  map (fun img => Vec.sum (map Vec.sum img)) a.

End Cube.

(** [np.arange(a, b)], [np.repeat(l, n)] and [np.tile(l, n)] *)
Definition np_arange (a b : Z) : list Z :=
  map (fun i => (a + Z.of_nat i)%Z) (seq 0 (Z.to_nat (b - a))).

Definition np_repeat (A : Type) (l : list A) (n : nat) : list A :=
  flat_map (fun x => repeat x n) l.

Definition np_tile (A : Type) (l : list A) (n : nat) : list A :=
  concat (repeat l n).

Section WholeImage.

Context {np : Numpy} {mem : Memory}.

Open Scope run_scope.
Open Scope string_scope.

Definition get_contributing_pixels (number : nat) : PyS (list (nat * nat) * mask2) :=
  s <- Run.lift get ;;
  Run.when (negb (trained s)) (Run.notify YouNeedToTrainFirst) ;;
  params <- Run.eval (cpm_params s) ;;
  (* [:-(number+1):-1]: the last [number] entries, last first *)
  let idx := firstn number (rev (np_argsort (map Qc_abs params))) in
  locations <- Run.eval (predictor_pixels_locations s) ;;
  top_n_loc <- Run.eval (Mat.gather idx locations) ;;
  first <- Run.eval (nth_error (im_fluxes s) 0) ;;
  (* a selection that came out empty is a 1-D array: loc[0] raises *)
  (if Nat.eqb (length locations) 0 then Run.raise unit else Run.ret tt) ;;
  (* top_n[loc[0], loc[1]] = 1 *)
  (if forallb (fun rc => Nat.ltb (fst rc) (length first)
                         && Nat.ltb (snd rc) (length (hd [] first))) top_n_loc
   then Run.ret tt else Run.raise unit) ;;
  let top_n_mask :=
    Img.tabulate (length first) (length (hd [] first))
      (fun row col =>
         negb (existsb (fun rc => Nat.eqb (fst rc) row && Nat.eqb (snd rc) col) top_n_loc)) in
  Run.ret (top_n_loc, top_n_mask).

(** The body of the loop of [_batch]. *)
Definition batch_step (cpm_reg : option Qc) (exclusion : nat) (exclusion_method : string)
    (num_predictor_pixels : nat) (predictor_method : string)
    (rescale polynomials : option bool) (row col : nat) : PyS unit :=
  Run.lift (set_target row col) ;;
  Run.lift (set_exclusion exclusion exclusion_method) ;;
  Run.lift (set_predictor_pixels num_predictor_pixels predictor_method None) ;;
  Run.lift (lsq cpm_reg rescale polynomials None None) ;;
  s <- Run.lift get ;;
  im <- Run.get_images ;;
  match polynomials with
  | Some true =>
      cp <- Run.eval (cpm_prediction s) ;;
      c <- Run.eval (const_prediction s) ;;
      predicted <- Run.eval (im_predicted_fluxes im) ;;
      written <- Run.eval (Cube.set_series predicted row col (map (fun x => x + c)%Qc cp)) ;;
      Run.assign_images (set_im_predicted_fluxes (Some written))
  | Some false =>
      p <- Run.eval (lsq_prediction s) ;;
      predicted <- Run.eval (im_predicted_fluxes im) ;;
      written <- Run.eval (Cube.set_series predicted row col p) ;;
      Run.assign_images (set_im_predicted_fluxes (Some written))
  | None => Run.ret tt
  end.

Fixpoint batch_loop (step : nat -> nat -> PyS unit) (targets : list (nat * nat))
    : PyS unit :=
  match targets with
  | [] => Run.ret tt
  | (row, col) :: targets' => step row col ;; batch_loop step targets'
  end.

Definition _batch (cpm_reg : option Qc) (rows cols : list nat) (exclusion : nat)
    (exclusion_method : string) (num_predictor_pixels : nat) (predictor_method : string)
    (rescale polynomials : option bool) : PyS unit :=
  Run.lift (assign (Assign.cpm_regularization cpm_reg)) ;;
  s <- Run.lift get ;;
  Run.assign_images
    (set_im_predicted_fluxes
       (Some (np_empty (length (im_fluxes s)) (Img.image_rows (im_fluxes s))
                       (Img.image_cols (im_fluxes s))))) ;;
  batch_loop (batch_step cpm_reg exclusion exclusion_method num_predictor_pixels
                         predictor_method rescale polynomials)
             (combine rows cols) ;;
  s <- Run.lift get ;;
  im <- Run.get_images ;;
  predicted <- Run.eval (im_predicted_fluxes im) ;;
  diff <- Run.eval (Cube.broadcast Qcminus (rescaled_im_fluxes s) predicted) ;;
  Run.assign_images (set_im_diff (Some diff)).

Definition entire_image (cpm_reg : option Qc) (exclusion : nat) (exclusion_method : string)
    (num_predictor_pixels : nat) (predictor_method : string)
    (rescale polynomials : option bool) : PyS unit :=
  s <- Run.lift get ;;
  first <- Run.eval (nth_error (im_fluxes s) 0) ;;
  let num_col := length (hd [] first) in
  let idx := seq 0 (num_col * num_col) in
  let rows := map (fun i => i / num_col)%nat idx in
  let cols := map (fun i => i mod num_col)%nat idx in
  _batch cpm_reg rows cols exclusion exclusion_method num_predictor_pixels
         predictor_method rescale polynomials ;;
  Run.assign_images (set_over_entire_image true).

(** The index arrays of [difference_image_sap] as indices of the
    embedding. *)
Definition natural_indices (l : list Z) : PyS (list nat) :=
  if forallb (Z.leb 0) l then Run.ret (map Z.to_nat l) else Run.beyond (list nat).

Definition difference_image_sap (cpm_reg : option Qc) (row col size : nat)
    (exclusion : nat) (exclusion_method : string) (num_predictor_pixels : nat)
    (predictor_method : string) (rescale polynomials : option bool)
    : PyS (cube * vec) :=
  im <- Run.get_images ;;
  Run.when (negb (over_entire_image im)) (
    let side := (2 * size + 1)%nat in
    let lo (x : nat) := (Z.of_nat x - Z.of_nat size)%Z in
    let hi (x : nat) := (Z.of_nat x + Z.of_nat size + 1)%Z in
    rows <- natural_indices (np_repeat (np_arange (lo row) (hi row)) side) ;;
    cols <- natural_indices (np_tile (np_arange (lo col) (hi col)) side) ;;
    _batch cpm_reg rows cols exclusion exclusion_method num_predictor_pixels
           predictor_method rescale polynomials) ;;
  im <- Run.get_images ;;
  diff <- Run.eval (im_diff im) ;;
  let bound := Img.image_rows diff in
  let aperture :=
    map (fun img =>
           map (Cube.slice (col - size) (Nat.min (col + size + 1) bound))
               (Cube.slice (row - size) (Nat.min (row + size + 1) bound) img))
        diff in
  Run.ret (aperture, Cube.sum_images aperture).

(** [__init__] with the attributes of this part, and [_reset], which
    calls it on the file the object was made from; [TIME], [FLUX],
    [FLUX_ERR] and [QUALITY] are the arrays of that file. *)
Definition __init__ (TIME : vec) (FLUX FLUX_ERR : cube) (QUALITY : list Z)
    (remove_bad : bool) : PyS unit :=
  Run.lift (init TIME FLUX FLUX_ERR QUALITY remove_bad) ;;
  Run.assign_images
    (fun _ => {| im_predicted_fluxes := None; im_diff := None;
                 over_entire_image := false |}).

Definition _reset (TIME : vec) (FLUX FLUX_ERR : cube) (QUALITY : list Z) : PyS unit :=
  __init__ TIME FLUX FLUX_ERR QUALITY true.

End WholeImage.

(* ================================================================== *)
(** ** More notions used to state the properties *)


(** [within exc x i]: [i] is at most [exc] away from [x]. *)
Definition within (exc x i : nat) : bool :=
  Nat.leb (x - exc) i && Nat.leb i (x + exc).

(** The pixels that each exclusion method takes out around the target
    [(r, c)], by their distance from it. *)
Definition excluded_region (method : string) (exc r c row col : nat) : bool :=
  if String.eqb method "cross" then within exc r row || within exc c col
  else if String.eqb method "row_exclude" then within exc r row
  else if String.eqb method "col_exclude" then within exc c col
  else if String.eqb method "closest" then within exc r row && within exc c col
  else false.

(** The locations that [set_predictor_pixels] stores for flat indices,
    the matrix of the light curves at given locations (one column per
    location), and the mask that hides every pixel but those. *)
Definition locations_of (side : nat) (chosen : list nat) : list (nat * nat) :=
  map (fun idx => (idx / side, idx mod side)%nat) chosen.

Definition light_curves (locations : list (nat * nat)) (c : cube) : ndarray2 :=
  {| ncols := length locations;
     rows := map (fun img => map (fun rc => Img.pixel img (fst rc) (snd rc)) locations) c |}.

Definition mask_of (first : image) (locations : list (nat * nat)) : mask2 :=
  Img.tabulate (length first) (length (hd [] first))
    (fun row col =>
       negb (existsb (fun rc => Nat.eqb (fst rc) row && Nat.eqb (snd rc) col) locations)).

(** The cosine of the angle between the rescaled light curve of the pixel
    with flat index [idx] and the rescaled light curve [rtf], as
    [set_predictor_pixels] computes it. *)
Definition cosine {np : Numpy} (flattened : list vec) (rtf : vec) (idx : nat) : Qc :=
  let curve := map (fun r => nth idx r 0%Qc) flattened in
  (Vec.dot curve rtf / (Stats.norm curve * Stats.norm rtf))%Qc.

(** The session that a call leaves, when it returned or raised. *)
Definition session_of (A : Type) (d : Session) (r : result A) : Session :=
  match r with
  | Done _ s => s
  | Failed s => s
  | Beyond => d
  end.

(** [follows c]: the embedding follows the method [c] to its end,
    whatever the session it starts from. *)
Definition follows (A : Type) (c : PyS A) : Prop := forall s, c s <> Beyond.

(* ================================================================== *)
(** ** More of the small data set *)

Module Sample.

Local Open Scope py_scope.
Local Open Scope string_scope.

(** [set_target(1, 1)] on the loaded object *)
Definition aimed : World := world_of (set_target 1 1 Example.loaded).


(** [set_target_exclusion_predictors(1, 1, exclusion=0,
    num_predictor_pixels=2)] on the loaded object *)
Definition prepared : World :=
  world_of (set_target_exclusion_predictors (np := Reference.stable)
              1 1 0 "closest" 2 "similar_brightness" None Example.loaded).

(** [set_predictor_pixels(2, method="random", seed=3)] and
    [set_predictor_pixels(2, method="cosine_similarity")] *)
Definition drawn : World :=
  world_of (set_predictor_pixels (np := Reference.stable) 2 "random" (Some 3%Z)
              Example.targeted).

Definition similar : World :=
  world_of (set_predictor_pixels (np := Reference.stable) 2 "cosine_similarity" None
              Example.targeted).

(** The mask of [Example.targeted]: every pixel but the target. *)
Definition ring : mask2 :=
  [[true; true; true]; [true; false; true]; [true; true; true]].

(** [xval(1, k=2)] on the object that is ready for a fit *)
Definition crossval : outcome (list vec * list vec) :=
  xval (Some (Example.q 1)) (Some true) (Some false) 2 Example.ready.
Definition crossvalidated : World := world_of crossval.

(** [lsq(1, rescale=False)] *)
Definition raw_fit : outcome (vec * vec) :=
  lsq (Some (Example.q 1)) (Some false) (Some false) None None Example.ready.
Definition raw_fitted : World := world_of raw_fit.

(** An allocator that hands out zeroed memory. *)
Definition zeroed : Memory :=
  {| np_empty := fun t r c => repeat (repeat (repeat 0%Qc c) r) t |}.

(** The loaded object with the attributes of [__init__], and with the
    array that [_batch] allocates. *)
Definition session : Session :=
  {| world := Example.loaded;
     images := {| im_predicted_fluxes := None; im_diff := None;
                  over_entire_image := false |};
     notices := [] |}.

Definition blank : Session :=
  {| world := Example.loaded;
     images := set_im_predicted_fluxes (Some (np_empty (Memory := zeroed) 4 3 3))
                                       (images session);
     notices := [] |}.

(** Two turns of the loop of [_batch], for the pixels [(0, 0)] and
    [(1, 1)]. *)
Definition turn (row col : nat) : PyS unit :=
  batch_step (np := Reference.stable) (Some (Example.q 1)) 0 "closest" 2
             "similar_brightness" (Some true) (Some false) row col.

Definition after_first : Session := session_of blank (turn 0 0 blank).

Definition after_second : Session := session_of blank (turn 1 1 after_first).

(** [_batch] over the pixels [(0, 0)] and [(1, 1)], and [entire_image] *)
Definition batched : Session :=
  session_of session
    (_batch (np := Reference.stable) (mem := zeroed) (Some (Example.q 1)) [0; 1]%nat
            [0; 1]%nat 0 "closest" 2 "similar_brightness" (Some true) (Some false) session).

Definition imaged : Session :=
  session_of session
    (entire_image (np := Reference.stable) (mem := zeroed) (Some (Example.q 1)) 0
                  "closest" 2 "similar_brightness" (Some true) (Some false) session).

(** The object after its fit, for [get_contributing_pixels] and [_reset] *)
Definition fitted_session : Session :=
  {| world := Example.fitted; images := images session; notices := [] |}.

Definition reset : Session :=
  session_of session
    (_reset Example.TIME Example.FLUX Example.FLUX_ERR Example.QUALITY fitted_session).

End Sample.

(* ================================================================== *)
(** * Part II: properties *)

(* ================================================================== *)
(** ** Facts about the arrays *)

Module ScalarFacts.

Lemma Qc_eqb_eq (x y : Qc) : Qc_eqb x y = true <-> x = y.
Proof.
  unfold Qc_eqb. split; intro H.
  - apply Qc_is_canon. now apply Qeq_bool_iff.
  - subst. apply Qeq_bool_iff. reflexivity.
Qed.

Lemma Qc_eqb_neq (x y : Qc) : Qc_eqb x y = false <-> x <> y.
Proof.
  split; intro H.
  - intro E. apply Qc_eqb_eq in E. congruence.
  - destruct (Qc_eqb x y) eqn:E; [apply Qc_eqb_eq in E; contradiction | reflexivity].
Qed.

Lemma Qc_ltb_lt (x y : Qc) : Qc_ltb x y = true <-> (x < y)%Qc.
Proof.
  unfold Qc_ltb. rewrite Qclt_alt.
  destruct (x ?= y)%Qc; split; congruence.
Qed.

Lemma Qc_leb_le (x y : Qc) : Qc_leb x y = true <-> (x <= y)%Qc.
Proof.
  unfold Qc_leb. rewrite Qcle_alt.
  destruct (x ?= y)%Qc; split; congruence.
Qed.

Lemma Qc_leb_total (x y : Qc) : Qc_leb x y = true \/ Qc_leb y x = true.
Proof.
  rewrite !Qc_leb_le.
  destruct (Qclt_le_dec x y) as [H | H]; [left; now apply Qclt_le_weak | now right].
Qed.

End ScalarFacts.
Import ScalarFacts.

Module VecFacts.

Import Vec.
Open Scope Qc_scope.

Lemma zip_with_length f a b :
  length (zip_with f a b) = Nat.min (length a) (length b).
Proof.
  revert b; induction a as [|x a IH]; intros [|y b]; simpl; auto.
Qed.

Lemma dot_nil_r a : dot a [] = 0.
Proof. destruct a; reflexivity. Qed.

Lemma dot_app a1 a2 b1 b2 :
  length a1 = length b1 ->
  dot (a1 ++ a2) (b1 ++ b2) = dot a1 b1 + dot a2 b2.
Proof.
  revert b1; induction a1 as [|x a1 IH]; intros [|y b1] H; simpl in *;
    try discriminate.
  - ring.
  - rewrite IH by lia. ring.
Qed.

Lemma dot_scale_l c a b : dot (scale c a) b = c * dot a b.
Proof.
  revert b; induction a as [|x a IH]; intros [|y b]; simpl; try ring.
  rewrite IH. ring.
Qed.

Lemma dot_sub_l a a' b :
  length a = length a' ->
  dot (sub a a') b = dot a b - dot a' b.
Proof.
  revert a' b; induction a as [|x a IH]; intros [|x' a'] [|y b] H;
    simpl in *; try discriminate; try ring.
  unfold sub in IH. rewrite IH by lia. ring.
Qed.

Lemma select_length_le (A : Type) mask (a : list A) :
  (length (select mask a) <= length a)%nat.
Proof.
  revert a; induction mask as [|b mask IH]; intros [|x a]; simpl; auto with arith.
  destruct b; simpl; specialize (IH a); lia.
Qed.

End VecFacts.

Module SolveFacts.

Import Solve.
Open Scope Qc_scope.

Lemma find_pivot_spec rs p rest :
  find_pivot rs = Some (p, rest) ->
  hd 0 (fst p) <> 0 /\ Permutation rs (p :: rest).
Proof.
  revert p rest; induction rs as [|r rs IH]; simpl; intros p rest H.
  - discriminate.
  - destruct (Qc_eqb (hd 0 (fst r)) 0) eqn:E.
    + destruct (find_pivot rs) as [[p' rest']|]; [|discriminate].
      inversion H; subst. destruct (IH _ _ eq_refl) as [Hp HP].
      split; [assumption|].
      rewrite HP. apply perm_swap.
    + inversion H; subst. apply Qc_eqb_neq in E. split; [assumption | reflexivity].
Qed.

Lemma reduce_shape n p r :
  length (fst p) = S n -> length (fst r) = S n ->
  length (fst (reduce p r)) = n.
Proof.
  destruct p as [[|p0 pc] pb], r as [[|r0 rc] rb]; simpl; try discriminate.
  intros Hp Hr. unfold Vec.sub, Vec.scale.
  rewrite VecFacts.zip_with_length, length_map. lia.
Qed.

(** A row is satisfied by [x0 :: x'] exactly when its reduced form is
    satisfied by [x'], provided the pivot row is satisfied. *)
Lemma reduce_satisfies n p r x0 x' :
  length (fst p) = S n -> length (fst r) = S n ->
  hd 0 (fst p) <> 0 ->
  satisfies (x0 :: x') p ->
  (satisfies (x0 :: x') r <-> satisfies x' (reduce p r)).
Proof.
  destruct p as [[|p0 pc] pb], r as [[|r0 rc] rb]; simpl; try discriminate.
  intros Hp Hr Hp0. unfold satisfies, reduce; simpl. intros HP.
  rewrite VecFacts.dot_sub_l by (unfold Vec.scale; rewrite length_map; lia).
  rewrite VecFacts.dot_scale_l.
  split; intro H.
  - assert (E : Vec.dot rc x' = rb - r0 * x0) by (rewrite <- H; ring).
    assert (E' : Vec.dot pc x' = pb - p0 * x0) by (rewrite <- HP; ring).
    rewrite E, E'. field. assumption.
  - assert (E' : Vec.dot pc x' = pb - p0 * x0) by (rewrite <- HP; ring).
    rewrite E' in H.
    assert (E : Vec.dot rc x' = rb - r0 / p0 * pb + r0 / p0 * (pb - p0 * x0))
      by (rewrite <- H; ring).
    rewrite E. field. assumption.
Qed.

Lemma pivot_satisfies p x' :
  hd 0 (fst p) <> 0 -> length (fst p) <> O ->
  satisfies ((snd p - Vec.dot (tl (fst p)) x') / hd 0 (fst p) :: x') p.
Proof.
  destruct p as [[|p0 pc] pb]; simpl; [congruence|].
  intros Hp0 _. unfold satisfies; simpl. field. assumption.
Qed.

(** Soundness: the vector returned satisfies every row. *)
Lemma eliminate_sound n : forall rs x,
  well_shaped n rs -> length rs = n ->
  eliminate n rs = Some x ->
  length x = n /\ Forall (satisfies x) rs.
Proof.
  induction n as [|n IH]; simpl; intros rs x Hs Hl H.
  - inversion H; subst. destruct rs; [|discriminate]. split; [reflexivity | constructor].
  - destruct (find_pivot rs) as [[p rest]|] eqn:Ep; [|discriminate].
    destruct (eliminate n (map (reduce p) rest)) as [x'|] eqn:Ee; [|discriminate].
    inversion H; subst; clear H.
    destruct (find_pivot_spec _ Ep) as [Hp0 HP].
    assert (Hs' : well_shaped (S n) (p :: rest))
      by (unfold well_shaped; now rewrite <- HP).
    inversion Hs' as [|? ? Hp Hrest]; subst.
    assert (Hlen : length rest = n)
      by (apply Permutation_length in HP; simpl in HP; lia).
    destruct (IH (map (reduce p) rest) x') as [Hx' Hsat]; auto.
    { unfold well_shaped. apply Forall_map.
      eapply Forall_impl; [|exact Hrest]. intros r Hr. now apply reduce_shape. }
    { now rewrite length_map. }
    split; [simpl; congruence|].
    assert (HPs : satisfies ((snd p - Vec.dot (tl (fst p)) x') / hd 0 (fst p) :: x') p)
      by (apply pivot_satisfies; [assumption | rewrite Hp; discriminate]).
    eapply Permutation_Forall; [symmetry; exact HP|].
    constructor; [assumption|].
    rewrite Forall_map in Hsat. rewrite Forall_forall in *.
    intros r Hr. eapply reduce_satisfies; eauto.
Qed.

(** Uniqueness: any solution of the system is the vector returned. *)
Lemma eliminate_unique n : forall rs x y,
  well_shaped n rs -> length rs = n ->
  eliminate n rs = Some x ->
  length y = n -> Forall (satisfies y) rs -> y = x.
Proof.
  induction n as [|n IH]; simpl; intros rs x y Hs Hl H Hy Hsat.
  - inversion H; subst. now destruct y.
  - destruct (find_pivot rs) as [[p rest]|] eqn:Ep; [|discriminate].
    destruct (eliminate n (map (reduce p) rest)) as [x'|] eqn:Ee; [|discriminate].
    inversion H; subst; clear H.
    destruct (find_pivot_spec _ Ep) as [Hp0 HP].
    assert (Hs' : well_shaped (S n) (p :: rest))
      by (unfold well_shaped; now rewrite <- HP).
    inversion Hs' as [|? ? Hp Hrest]; subst.
    assert (Hlen : length rest = n)
      by (apply Permutation_length in HP; simpl in HP; lia).
    destruct y as [|y0 y']; [discriminate|]. simpl in Hy.
    assert (Hsat' : Forall (satisfies (y0 :: y')) (p :: rest))
      by (eapply Permutation_Forall; eauto).
    inversion Hsat' as [|? ? HPy Hresty]; subst.
    assert (Ey : y' = x').
    { apply (IH (map (reduce p) rest)); auto.
      - unfold well_shaped. apply Forall_map.
        eapply Forall_impl; [|exact Hrest]. intros r Hr. now apply reduce_shape.
      - now rewrite length_map.
      - apply Forall_map. rewrite Forall_forall in *.
        intros r Hr. eapply reduce_satisfies; eauto. }
    subst y'. f_equal.
    destruct p as [[|p0 pc] pb]; [discriminate|].
    unfold satisfies in HPy; simpl in *. rewrite <- HPy. field. assumption.
Qed.

End SolveFacts.

Module MatFacts.

Open Scope Qc_scope.

Lemma zip_rows_length f a b :
  length (Mat.zip_rows f a b) = Nat.min (length a) (length b).
Proof. revert b; induction a as [|x a IH]; intros [|y b]; simpl; auto. Qed.

Lemma stretch_same (A : Type) (d : A) n l : length l = n -> Mat.stretch d n l = l.
Proof. intro H. unfold Mat.stretch. now rewrite H, Nat.eqb_refl. Qed.

Lemma bshape_same n : Mat.bshape n n = Some n.
Proof. unfold Mat.bshape. now rewrite Nat.eqb_refl. Qed.

Lemma zip_rows_ext f g a b :
  (forall x y, In x a -> In y b -> f x y = g x y) ->
  Mat.zip_rows f a b = Mat.zip_rows g a b.
Proof.
  revert b; induction a as [|x a IH]; intros [|y b] H; simpl; auto.
  f_equal; [apply H; now left | apply IH; intros; apply H; now right].
Qed.

(** Arrays of one shape broadcast to their entrywise sum. *)
Lemma broadcast_add a b :
  Mat.well_formed a -> Mat.well_formed b ->
  Mat.nrows a = Mat.nrows b -> ncols a = ncols b ->
  Mat.broadcast Qcplus a b = Some (Mat.add a b).
Proof.
  intros Wa Wb Hr Hc. unfold Mat.broadcast, Mat.add, Mat.nrows in *.
  rewrite Hr, Hc, !bshape_same. f_equal. f_equal.
  rewrite (@stretch_same _ [] _ (rows a) Hr).
  rewrite (@stretch_same _ [] _ (rows b) eq_refl).
  apply zip_rows_ext. intros x y Hx Hy.
  unfold Mat.well_formed in *. rewrite Forall_forall in Wa, Wb.
  rewrite !stretch_same; [reflexivity | now apply Wb | rewrite <- Hc; now apply Wa].
Qed.

Lemma map_seq_ext (A : Type) (f g : nat -> A) s n :
  (forall i, (s <= i < s + n)%nat -> f i = g i) -> map f (seq s n) = map g (seq s n).
Proof.
  intro H. apply map_ext_in. intros i Hi. apply in_seq in Hi. now apply H.
Qed.

Lemma diag_well_formed v : Mat.well_formed (Mat.diag v).
Proof.
  unfold Mat.well_formed, Mat.diag; simpl. apply Forall_map, Forall_forall.
  intros i _. now rewrite length_map, length_seq.
Qed.

Lemma diag_shape v : Mat.nrows (Mat.diag v) = length v /\ ncols (Mat.diag v) = length v.
Proof. unfold Mat.nrows, Mat.diag; simpl. now rewrite length_map, length_seq. Qed.

Lemma nth_repeat_lt (c : Qc) n i : (i < n)%nat -> nth i (repeat c n) 0 = c.
Proof.
  revert i; induction n as [|n IH]; intros [|i] H; simpl; try lia; auto.
  apply IH. lia.
Qed.

(** [cpm_reg * np.identity(n)] is the diagonal matrix of [n] copies of
    [cpm_reg]. *)
Lemma scale_identity c n : Mat.scale c (Mat.identity n) = Mat.diag (repeat c n).
Proof.
  unfold Mat.scale, Mat.identity, Mat.diag; simpl.
  rewrite repeat_length. f_equal. rewrite map_map.
  apply map_seq_ext. intros i Hi. unfold Vec.scale. rewrite map_map.
  apply map_seq_ext. intros j Hj.
  destruct (Nat.eqb i j); [rewrite nth_repeat_lt by lia|]; ring.
Qed.

Lemma zip_with_map_seq f (g h : nat -> Qc) s n :
  Vec.zip_with f (map g (seq s n)) (map h (seq s n)) = map (fun j => f (g j) (h j)) (seq s n).
Proof. revert s; induction n as [|n IH]; intro s; simpl; [reflexivity|]. now rewrite IH. Qed.

Lemma zip_rows_repeat_seq f (v : vec) (g : nat -> vec) s n :
  Mat.zip_rows f (repeat v n) (map g (seq s n)) = map (fun x => f v (g x)) (seq s n).
Proof. revert s; induction n as [|n IH]; intro s; simpl; [reflexivity|]. now rewrite IH. Qed.

Lemma map_nth_seq (v : vec) : map (fun j => nth j v 0) (seq 0 (length v)) = v.
Proof.
  apply nth_ext with (d := 0) (d' := 0).
  - now rewrite length_map, length_seq.
  - intros i Hi. rewrite length_map, length_seq in Hi.
    rewrite (nth_indep _ 0 (nth 0 v 0))
      by now rewrite length_map, length_seq.
    change (nth 0 v 0) with ((fun j => nth j v 0) O).
    rewrite map_nth. now rewrite seq_nth by assumption.
Qed.

(** A vector broadcast against the identity of its length is its
    diagonal matrix. *)
Lemma row_times_identity v :
  Mat.broadcast Qcmult (Mat.of_row v) (Mat.identity (length v)) = Some (Mat.diag v).
Proof.
  unfold Mat.broadcast, Mat.of_row, Mat.identity, Mat.diag, Mat.nrows; simpl.
  rewrite length_map, length_seq, bshape_same.
  assert (Hs : Mat.bshape 1 (length v) = Some (length v)).
  { unfold Mat.bshape. destruct (Nat.eqb 1 (length v)) eqn:E; [|reflexivity].
    apply Nat.eqb_eq in E. now rewrite <- E. }
  rewrite Hs. f_equal. f_equal.
  assert (Hv : Mat.stretch [] (length v) [v] = repeat v (length v)).
  { unfold Mat.stretch. change (length [v]) with 1%nat.
    destruct (Nat.eqb 1 (length v)) eqn:E; [|reflexivity].
    apply Nat.eqb_eq in E. now rewrite <- E. }
  rewrite Hv. rewrite stretch_same by now rewrite length_map, length_seq.
  rewrite zip_rows_repeat_seq.
  apply map_seq_ext. intros i Hi.
  rewrite !stretch_same by (try reflexivity; now rewrite length_map, length_seq).
  rewrite <- (map_nth_seq v) at 1.
  rewrite zip_with_map_seq. apply map_seq_ext. intros j Hj.
  destruct (Nat.eqb i j) eqn:E; [apply Nat.eqb_eq in E; subst|]; ring.
Qed.

Lemma gram_shape a g :
  Mat.dot_mm (Mat.transpose a) a = Some g ->
  Mat.well_formed g /\ Mat.nrows g = ncols a /\ ncols g = ncols a.
Proof.
  unfold Mat.dot_mm. destruct (Nat.eqb _ _); [|discriminate].
  intro H; inversion H; subst; clear H.
  unfold Mat.well_formed, Mat.nrows; simpl.
  rewrite !length_map, !length_seq. repeat split.
  apply Forall_map, Forall_forall. intros r _.
  now rewrite !length_map, length_seq.
Qed.

Lemma combine_well_shaped n (rs : list vec) (b : vec) :
  Forall (fun r => length r = n) rs ->
  Solve.well_shaped n (combine rs b).
Proof.
  intro H. revert b; induction H as [|r rs Hr _ IH]; intros [|y b]; simpl;
    try constructor; auto. apply IH.
Qed.

Lemma satisfies_combine x (rs : list vec) (b : vec) :
  length b = length rs ->
  (Forall (Solve.satisfies x) (combine rs b) <-> map (fun r => Vec.dot r x) rs = b).
Proof.
  revert b; induction rs as [|r rs IH]; intros [|y b] H; simpl in *; try discriminate.
  - split; auto.
  - split.
    + intro F. inversion F; subst. f_equal; [assumption | apply IH; [lia | assumption]].
    + intro E. inversion E; subst. constructor; [reflexivity|].
      apply IH; [lia | reflexivity].
Qed.

(** What [np.linalg.solve] returns solves the system. *)
Lemma solve_sound a b x :
  Mat.well_formed a -> Mat.solve a b = Some x -> Mat.dot_mv a x = Some b.
Proof.
  unfold Mat.solve, Mat.dot_mv. intros W H.
  destruct (Nat.eqb (Mat.nrows a) (ncols a)) eqn:E1; [|discriminate].
  destruct (Nat.eqb (length b) (Mat.nrows a)) eqn:E2; [|discriminate].
  simpl in H. apply Nat.eqb_eq in E1, E2.
  apply SolveFacts.eliminate_sound in H.
  - destruct H as [Hl Hs]. rewrite Hl, E1, Nat.eqb_refl. f_equal.
    now apply satisfies_combine.
  - apply combine_well_shaped. unfold Mat.well_formed in W. now rewrite E1.
  - rewrite length_combine. unfold Mat.nrows in *. lia.
Qed.

(** It is the only solution. *)
Lemma solve_unique a b x y :
  Mat.well_formed a -> Mat.solve a b = Some x -> Mat.dot_mv a y = Some b -> y = x.
Proof.
  unfold Mat.solve, Mat.dot_mv. intros W H Hy.
  destruct (Nat.eqb (Mat.nrows a) (ncols a)) eqn:E1; [|discriminate].
  destruct (Nat.eqb (length b) (Mat.nrows a)) eqn:E2; [|discriminate].
  destruct (Nat.eqb (ncols a) (length y)) eqn:E3; [|discriminate].
  simpl in H. apply Nat.eqb_eq in E1, E2, E3. inversion Hy as [Hy'].
  apply (@SolveFacts.eliminate_unique (Mat.nrows a) (combine (rows a) b) x y).
  - apply combine_well_shaped. unfold Mat.well_formed in W. now rewrite E1.
  - rewrite length_combine. unfold Mat.nrows in *. lia.
  - exact H.
  - lia.
  - apply satisfies_combine; [assumption | exact Hy'].
Qed.

End MatFacts.

(* ================================================================== *)
(** ** The two instances meet the laws *)

Module ReferenceFacts.

Import Reference.
Open Scope Qc_scope.

Section Argsort.

Variable before : Qc -> Qc -> bool.
Hypothesis before_le : forall x y, before x y = true -> x <= y.
Hypothesis not_before_le : forall x y, before x y = false -> y <= x.

Lemma insert_index_perm v i l : Permutation (insert_index before v i l) (i :: l).
Proof.
  induction l as [|j l IH]; simpl; [reflexivity|].
  destruct (before _ _); [reflexivity|].
  rewrite IH. apply perm_swap.
Qed.

Lemma insert_index_sorted v i l :
  StronglySorted (fun a b => nth a v 0 <= nth b v 0) l ->
  StronglySorted (fun a b => nth a v 0 <= nth b v 0) (insert_index before v i l).
Proof.
  induction 1 as [|j l Hs IH Hj]; simpl.
  - constructor; constructor.
  - destruct (before (nth i v 0) (nth j v 0)) eqn:E.
    + apply before_le in E. constructor.
      * now constructor.
      * constructor; [assumption|].
        eapply Forall_impl; [|exact Hj]. intros a Ha. eapply Qcle_trans; eauto.
    + apply not_before_le in E. constructor; [assumption|].
      eapply Permutation_Forall; [symmetry; apply insert_index_perm|].
      now constructor.
Qed.

Lemma argsort_perm v : Permutation (argsort before v) (seq 0 (length v)).
Proof.
  unfold argsort. induction (seq 0 (length v)) as [|i l IH]; simpl; [reflexivity|].
  rewrite insert_index_perm. now constructor.
Qed.

Lemma argsort_sorted v :
  StronglySorted (fun a b => nth a v 0 <= nth b v 0) (argsort before v).
Proof.
  unfold argsort. induction (seq 0 (length v)) as [|i l IH]; simpl.
  - constructor.
  - now apply insert_index_sorted.
Qed.

End Argsort.

Lemma random_permutation_perm g n :
  Permutation (fst (random_permutation g n)) (seq 0 n).
Proof.
  unfold random_permutation; simpl.
  rewrite Permutation_app_comm. now rewrite firstn_skipn.
Qed.

Lemma ltb_le x y : Qc_ltb x y = true -> x <= y.
Proof. intro H. apply Qclt_le_weak. now apply Qc_ltb_lt. Qed.

Lemma not_ltb_le x y : Qc_ltb x y = false -> y <= x.
Proof.
  intro H. destruct (Qclt_le_dec x y) as [L | L]; [|assumption].
  apply Qc_ltb_lt in L. congruence.
Qed.

Lemma leb_le x y : Qc_leb x y = true -> x <= y.
Proof. apply Qc_leb_le. Qed.

Lemma not_leb_le x y : Qc_leb x y = false -> y <= x.
Proof.
  intro H. destruct (Qc_leb_total x y) as [L | L]; [congruence | now apply Qc_leb_le].
Qed.

Lemma stable_laws : NumpyLaws stable.
Proof.
  constructor; simpl.
  - apply argsort_perm.
  - apply (@argsort_sorted Qc_leb leb_le not_leb_le).
  - apply random_permutation_perm.
Qed.

End ReferenceFacts.

(* ================================================================== *)
(** ** Reasoning about method calls *)

Lemma bind_returned (A B : Type) (c : Py A) (k : A -> Py B) w b w' :
  bind c k w = Returned b w' ->
  exists a w1, c w = Returned a w1 /\ k a w1 = Returned b w'.
Proof.
  unfold bind. destruct (c w) as [a w1|w1]; [eauto | discriminate].
Qed.

Lemma eval_returned (A : Type) (o : option A) w a w' :
  eval o w = Returned a w' -> o = Some a /\ w' = w.
Proof.
  destruct o; simpl; unfold ret, raise; intro H; inversion H; auto.
Qed.

(** Inversion of a primitive step that returned. *)
Ltac py_prim H :=
  lazymatch type of H with
  | eval _ _ = Returned _ _ =>
      let E := fresh "E" in
      apply eval_returned in H; destruct H as [E ->]
  | get _ = Returned _ _ => unfold get in H; inversion H; subst; clear H
  | assign _ _ = Returned _ _ => unfold assign in H; inversion H; subst; clear H
  | print _ _ = Returned _ _ => unfold print in H; inversion H; subst; clear H
  | ret _ _ = Returned _ _ => unfold ret in H; inversion H; subst; clear H
  | get_rng _ = Returned _ _ => unfold get_rng in H; inversion H; subst; clear H
  | set_rng _ _ = Returned _ _ => unfold set_rng in H; inversion H; subst; clear H
  | raise _ _ = Returned _ _ => discriminate H
  end.

(** Inversion of a sequence of steps that returned, as far as its steps
    are primitive, conditional or sequences of such. *)
Ltac py_inv H :=
  first
    [ py_prim H
    | lazymatch type of H with
      | bind _ _ _ = Returned _ _ =>
          let a := fresh "a" in let w1 := fresh "w" in let H1 := fresh "H" in
          apply bind_returned in H; destruct H as (a & w1 & H1 & H);
          py_inv H1; py_inv H
      | when _ _ _ = Returned _ _ =>
          unfold when in H; cbv beta iota in H; py_inv H
      | seed_generator _ _ = Returned _ _ =>
          unfold seed_generator in H; py_inv H
      | (if ?b then _ else _) _ = Returned _ _ =>
          let E := fresh "E" in destruct b eqn:E; py_inv H
      end
    | idtac ].

(* ================================================================== *)
(** ** What a fit that returns has done *)

Section LsqFacts.

Open Scope py_scope.

Lemma select_inputs_returned s rescale uy um w ym w' :
  select_inputs s rescale uy um w = Returned ym w' ->
  self w' = self w /\ rng w' = rng w /\
  fst ym = Spec.target_vector s rescale uy um /\
  snd ym = Spec.predictor_matrix s rescale uy um /\
  (uy = None -> um = None -> rescale <> None).
Proof.
  unfold select_inputs, Spec.target_vector, Spec.predictor_matrix.
  destruct uy, um; try destruct rescale as [[|]|]; intro H; py_inv H;
    simpl; repeat split; congruence.
Qed.

Lemma assemble_returned s polynomials um reg n mat w mr w' :
  assemble s polynomials um reg n mat w = Returned mr w' ->
  w' = w /\
  (is_true polynomials = false ->
     fst mr = mat /\ snd mr = Mat.scale reg (Mat.identity n)) /\
  (is_true polynomials = true ->
     exists v pr pt,
       v_matrix s = Some v /\ poly_reg s = Some pr /\ poly_terms s = Some pt /\
       poly_reg_matrix reg n pr pt (n + ncols v) = Some (snd mr) /\
       match um with
       | Some _ => fst mr = mat
       | None => exists m0 h, mat = Some m0 /\ Mat.hstack m0 v = Some h /\ fst mr = Some h
       end).
Proof.
  unfold assemble. destruct (is_true polynomials); intro H.
  - destruct um; py_inv H; (split; [reflexivity|]); (split; [discriminate|]);
      intros _; simpl; eauto 12.
    rewrite E0 in E; inversion E; subst. eauto 12.
  - py_inv H. repeat split; try discriminate; auto.
Qed.

Lemma decompose_returned polynomials n pm params w u w' :
  decompose polynomials n pm params w = Returned u w' ->
  rng w' = rng w /\ stdout w' = stdout w /\
  if is_true polynomials then
    exists const cp pp,
      nth_error (skipn n params) 0 = Some const /\
      Mat.dot_mv (Mat.cols_to n pm) (firstn n params) = Some cp /\
      Mat.dot_mv (Mat.cols_from n pm) (skipn n params) = Some pp /\
      self w' = Assign.poly_prediction (Some (map (fun x => x - const)%Qc pp))
                  (Assign.cpm_prediction (Some cp)
                     (Assign.const_prediction (Some const) (self w)))
  else w' = w.
Proof.
  unfold decompose. destruct (is_true polynomials); intro H; py_inv H; simpl; eauto 10.
Qed.

Lemma lsq_returned cpm_reg rescale polynomials uy um w prediction res w' :
  lsq cpm_reg rescale polynomials uy um w = Returned (prediction, res) w' ->
  fit_result (self w) cpm_reg rescale polynomials uy um prediction res (self w').
Proof.
  unfold lsq. intro H.
  apply bind_returned in H. destruct H as (s & w1 & H1 & H). py_prim H1.
  apply bind_returned in H. destruct H as (u & w2 & H1 & H).
  assert (Hs : self w2 = self w1) by (py_inv H1; reflexivity).
  clear H1.
  py_inv H.
  all: match goal with Hx : select_inputs _ _ _ _ _ = _ |- _ =>
         apply select_inputs_returned in Hx; destruct Hx as (Hs1 & _ & Hy & Hp & _) end.
  all: match goal with Hx : assemble _ _ _ _ _ _ _ = _ |- _ =>
         apply assemble_returned in Hx; destruct Hx as (-> & Hnp & Hpo) end.
  all: match goal with Hx : decompose _ _ _ _ _ = _ |- _ =>
         apply decompose_returned in Hx; destruct Hx as (_ & _ & Hd) end.
  all: simpl in Hs1; rewrite Hs in Hs1.
  all: destruct a1 as [y0 p0], a2 as [m1 rm]; simpl in *; subst.
  all: assert (HM : Spec.design_matrix (self w1) rescale polynomials uy um = Some a3)
         by (unfold Spec.design_matrix; destruct (is_true polynomials);
             [ destruct (Hpo eq_refl) as (v & pr & pt & Hv & _ & _ & _ & Hm1);
               rewrite Hv; destruct um;
               [ rewrite <- Hm1; reflexivity
               | destruct Hm1 as (m0 & h & -> & Hh & Hm1'); congruence ]
             | destruct (Hnp eq_refl) as [<- _]; reflexivity ]).
  all: assert (Hrm : if is_true polynomials then
             exists pr pt v,
               poly_reg (self w1) = Some pr /\ poly_terms (self w1) = Some pt /\
               v_matrix (self w1) = Some v /\
               poly_reg_matrix a a0 pr pt (a0 + ncols v) = Some rm
           else rm = Mat.scale a (Mat.identity a0))
         by (destruct (is_true polynomials);
             [ destruct (Hpo eq_refl) as (v & pr & pt & Hv & Hpr & Hpt & Hr & _); eauto 8
             | destruct (Hnp eq_refl) as [_ ->]; reflexivity ]).
  all: clear Hpo Hnp.
  all: rewrite ?Hs1 in *; simpl in E4.
  all: destruct (trained (self w1)) eqn:Etr; try discriminate.
  all: destruct (is_true polynomials) eqn:Epol;
       [ destruct Hd as (const & cp & pp & Hc & Hcp & Hpp & ->) | subst ];
       simpl; rewrite ?Hs1; simpl.
  all: try match goal with Hx : Some _ = Some _ |- _ => inversion Hx; subst; clear Hx end.
  all: econstructor; rewrite ?Etr, ?Epol; simpl; eauto 10; try congruence.
Qed.

Lemma set_poly_model_consistent time_interval poly_terms poly_reg w w' :
  set_poly_model time_interval poly_terms poly_reg w = Returned tt w' ->
  trend_consistent (self w').
Proof.
  unfold set_poly_model. intro H. py_inv H. reflexivity.
Qed.

End LsqFacts.

(* ================================================================== *)
(** ** The fit solves the regularised normal equations *)

Section NormalEquations.

Open Scope Qc_scope.

Lemma add_shape a b :
  Mat.well_formed a -> Mat.well_formed b ->
  Mat.nrows a = Mat.nrows b -> ncols a = ncols b ->
  Mat.well_formed (Mat.add a b) /\ Mat.nrows (Mat.add a b) = Mat.nrows a /\
  ncols (Mat.add a b) = ncols a.
Proof.
  intros Wa Wb Hr Hc. unfold Mat.well_formed, Mat.add, Mat.nrows in *; simpl.
  rewrite MatFacts.zip_rows_length, Hr, Nat.min_id. repeat split; auto.
  clear Hr. revert Wb. generalize (rows b). induction Wa as [|x l Hx _ IH]; intros [|y l'] Wb;
    simpl; try constructor.
  - inversion Wb; subst. unfold Vec.add. rewrite VecFacts.zip_with_length. lia.
  - inversion Wb; subst. now apply IH.
Qed.

Lemma zip_with_zero (r : vec) (z : vec) :
  length z = length r -> Forall (fun x => x = 0) z -> Vec.zip_with Qcplus r z = r.
Proof.
  revert z; induction r as [|x r IH]; intros [|y z] Hl Hz; simpl in *; try discriminate; auto.
  inversion Hz; subst. f_equal; [ring | apply IH; [lia | assumption]].
Qed.

Lemma zip_rows_zero n (rs zs : list vec) :
  Forall (fun r => length r = n) rs ->
  Forall (fun z => length z = n /\ Forall (fun x => x = 0) z) zs ->
  length zs = length rs ->
  Mat.zip_rows Vec.add rs zs = rs.
Proof.
  intros Hr. revert zs. induction Hr as [|r rs Hlen _ IH]; intros [|z zs] Hz Hl;
    simpl in *; try discriminate; auto.
  inversion Hz as [|? ? [Hzl Hz0] Hzs]; subst. f_equal.
  - apply zip_with_zero; [congruence | assumption].
  - apply IH; [assumption | lia].
Qed.

(** Adding the diagonal matrix of zeros changes nothing. *)
Lemma add_diag_zero a reg :
  Mat.well_formed a -> Mat.nrows a = length reg -> ncols a = length reg ->
  Forall (fun x => x = 0) reg ->
  Mat.add a (Mat.diag reg) = a.
Proof.
  intros W Hr Hc Hz. destruct a as [c rs].
  unfold Mat.add, Mat.diag, Mat.well_formed, Mat.nrows in *.
  simpl in *. f_equal. apply zip_rows_zero with (n := c).
  - assumption.
  - apply Forall_map, Forall_forall. intros i _. split.
    + now rewrite length_map, length_seq.
    + apply Forall_map, Forall_forall. intros j _.
      destruct (Nat.eqb i j); [|reflexivity].
      destruct (Nat.lt_ge_cases i (length reg)) as [L | L].
      * rewrite Forall_forall in Hz. apply Hz, nth_In, L.
      * now apply nth_overflow.
  - now rewrite length_map, length_seq.
Qed.

Lemma regularisation_matrix s cpm_reg pol n rm reg :
  num_predictor_pixels s = Some n ->
  trend_consistent s ->
  (if is_true pol then
     exists pr pt v,
       poly_reg s = Some pr /\ poly_terms s = Some pt /\ v_matrix s = Some v /\
       poly_reg_matrix cpm_reg n pr pt (n + ncols v) = Some rm
   else rm = Mat.scale cpm_reg (Mat.identity n)) ->
  Spec.regularisation s cpm_reg pol = Some reg ->
  rm = Mat.diag reg.
Proof.
  intros Hn Ht Hrm Hreg. unfold Spec.regularisation in Hreg. rewrite Hn in Hreg.
  destruct (is_true pol).
  - destruct Hrm as (pr & pt & v & Hpr & Hpt & Hv & Hrm).
    rewrite Hpr, Hv in Hreg. inversion Hreg; subst; clear Hreg.
    unfold trend_consistent in Ht. rewrite Hv in Ht.
    rewrite Ht in Hpt. inversion Hpt; subst.
    unfold poly_reg_matrix in Hrm.
    replace (n + ncols v)%nat with (length (repeat cpm_reg n ++ repeat pr (ncols v))) in Hrm
      by now rewrite length_app, !repeat_length.
    rewrite MatFacts.row_times_identity in Hrm. congruence.
  - inversion Hreg; subst. apply MatFacts.scale_identity.
Qed.

Lemma regularisation_zero s pol reg :
  Spec.regularisation s 0 pol = Some reg ->
  is_true pol = false \/ poly_reg s = Some 0 ->
  Forall (fun x => x = 0) reg.
Proof.
  unfold Spec.regularisation. destruct (num_predictor_pixels s) as [n|]; [|discriminate].
  intros H [Hp | Hp].
  - rewrite Hp in H. inversion H; subst. apply Forall_forall. intros x Hx.
    now apply repeat_spec in Hx.
  - destruct (is_true pol).
    + rewrite Hp in H. destruct (v_matrix s); [|discriminate]. inversion H; subst.
      apply Forall_app. split; apply Forall_forall; intros x Hx; now apply repeat_spec in Hx.
    + inversion H; subst. apply Forall_forall. intros x Hx. now apply repeat_spec in Hx.
Qed.

(** C1 (amended).  A fit that returns stores in [lsq_params] a vector
    [beta] with [(M^T M + diag(reg)) beta = M^T y], where [M] and [y] are the
    design matrix and target assembled from the flags (and stored in [m]),
    [reg] is [cpm_reg] over the predictor columns followed by [poly_reg]
    over the trend columns, and [M] has one column per entry of [reg].
    With [cpm_reg = 0] and, when polynomials are used, [poly_reg = 0] as
    well, [beta] is the ordinary least-squares solution. *)
Theorem lsq_normal_equations cpm_reg rescale pol uy um w prediction res w' M reg :
  lsq (Some cpm_reg) rescale pol uy um w = Returned (prediction, res) w' ->
  Spec.design_matrix (self w) rescale pol uy um = Some M ->
  Spec.regularisation (self w) cpm_reg pol = Some reg ->
  ncols M = length reg ->
  trend_consistent (self w) ->
  exists y beta,
    Spec.target_vector (self w) rescale uy um = Some y /\
    m (self w') = Some M /\
    lsq_params (self w') = Some beta /\
    Spec.normal_equations M reg y beta /\
    (cpm_reg = 0 -> is_true pol = false \/ poly_reg (self w) = Some 0 ->
     Spec.ols M y = Some beta).
Proof.
  intros H HM Hreg Hcols Ht.
  apply lsq_returned in H. destruct H.
  inversion Hreg0; subst reg0. rewrite HM in HM0. inversion HM0; subst M0.
  assert (Erm : reg_matrix = Mat.diag reg) by (eapply regularisation_matrix with (s := self w); eauto).
  subst reg_matrix.
  unfold solve_normal_equations in Hsolve.
  destruct (Mat.dot_mm (Mat.transpose M) M) as [MtM|] eqn:Eg; [|discriminate].
  destruct (MatFacts.gram_shape _ Eg) as (Wg & Hgr & Hgc).
  destruct (MatFacts.diag_shape reg) as [Hdr Hdc].
  rewrite MatFacts.broadcast_add in Hsolve
    by (auto using MatFacts.diag_well_formed; congruence).
  destruct (Mat.dot_mv (Mat.transpose M) y) as [b|] eqn:Eb; [|discriminate].
  assert (Wa : Mat.well_formed (Mat.add MtM (Mat.diag reg))).
  { apply add_shape; auto using MatFacts.diag_well_formed; congruence. }
  exists y, beta. repeat split; auto.
  - exists MtM, b. repeat split; auto. now apply MatFacts.solve_sound.
  - intros Hz Hp. subst cpm_reg. unfold Spec.ols. rewrite Eg, Eb.
    rewrite add_diag_zero in Hsolve; auto; try congruence.
    eapply regularisation_zero; eauto.
Qed.

End NormalEquations.

Lemma lsq_normal_equations_witness :
  exists y beta,
    Spec.target_vector (self Example.ready) (Some true) None None = Some y /\
    m (self Example.plain_fitted) = Some Example.plain_design /\
    lsq_params (self Example.plain_fitted) = Some beta /\
    Spec.normal_equations Example.plain_design (repeat 0%Qc 2) y beta /\
    Spec.ols Example.plain_design y = Some beta.
Proof.
  destruct (@lsq_normal_equations 0%Qc (Some true) (Some false) None None
              Example.ready (fst (value_of ([], []) Example.plain_fit))
              (snd (value_of ([], []) Example.plain_fit)) Example.plain_fitted
              Example.plain_design (repeat 0%Qc 2))
    as (y & beta & Hy & Hm & Hb & Hne & Hols).
  - vm_compute. reflexivity.
  - vm_compute. reflexivity.
  - vm_compute. reflexivity.
  - vm_compute. reflexivity.
  - vm_compute. reflexivity.
  - exists y, beta. repeat split; try assumption.
    apply Hols; [reflexivity | left; reflexivity].
Defined.

(** C1, as stated, fails: with [cpm_reg = 0] but polynomials in use and
    [poly_reg = 1], the coefficients are not the least-squares solution. *)
Lemma lsq_zero_cpm_reg_not_ols :
  exists prediction res w' M y beta beta_ols,
    lsq (Some 0%Qc) (Some true) (Some true) None None Example.ready
      = Returned (prediction, res) w' /\
    Spec.design_matrix (self Example.ready) (Some true) (Some true) None None = Some M /\
    Spec.target_vector (self Example.ready) (Some true) None None = Some y /\
    lsq_params (self w') = Some beta /\
    Spec.ols M y = Some beta_ols /\
    map this beta = [1612 # 849; -60 # 283; 8 # 849; 2 # 283]%Q /\
    map this beta_ols = [0; 0; 0; 2 # 3]%Q /\
    beta <> beta_ols.
Proof.
  do 7 eexists.
  split; [vm_compute; reflexivity|].
  split; [vm_compute; reflexivity|].
  split; [vm_compute; reflexivity|].
  split; [vm_compute; reflexivity|].
  split; [vm_compute; reflexivity|].
  split; [vm_compute; reflexivity|].
  split; [vm_compute; reflexivity|].
  intro H. apply (f_equal (map this)) in H. vm_compute in H. discriminate H.
Qed.

(* ================================================================== *)
(** ** The decomposition of the prediction *)

Section Decomposition.

Open Scope Qc_scope.

Lemma dot_firstn_skipn n : forall r b,
  Vec.dot r b = Vec.dot (firstn n r) (firstn n b) + Vec.dot (skipn n r) (skipn n b).
Proof.
  induction n as [|n IH]; intros r b; simpl.
  - ring.
  - destruct r as [|x r], b as [|y b]; simpl; try ring.
    + rewrite VecFacts.dot_nil_r. ring.
    + rewrite (IH r b). ring.
Qed.

Lemma dot_mv_rows a v p : Mat.dot_mv a v = Some p -> p = map (fun r => Vec.dot r v) (rows a).
Proof. unfold Mat.dot_mv. destruct (Nat.eqb _ _); intro H; inversion H; reflexivity. Qed.

(** C3.  After a fit with polynomials, with [n] predictors, reference
    design matrix [om] and coefficients [beta], the full prediction is
    [om . beta]; the constant term is the first trend coefficient
    [beta[n]]; the predictor-only component is the product of the first
    [n] columns of [om] with [beta[:n]]; the trend-only component is the
    product of the other columns with [beta[n:]], minus the constant; and
    the constant plus the two components is the full prediction, sample by
    sample. *)
Theorem lsq_prediction_decomposes cpm_reg rescale uy um w prediction res w' :
  lsq cpm_reg rescale (Some true) uy um w = Returned (prediction, res) w' ->
  exists n om beta const cp trend,
    num_predictor_pixels (self w') = Some n /\
    orig_m (self w') = Some om /\
    lsq_params (self w') = Some beta /\
    cpm_params (self w') = Some (firstn n beta) /\
    poly_params (self w') = Some (skipn n beta) /\
    Mat.dot_mv om beta = Some prediction /\
    lsq_prediction (self w') = Some prediction /\
    nth_error (skipn n beta) 0 = Some const /\
    const_prediction (self w') = Some const /\
    Mat.dot_mv (Mat.cols_to n om) (firstn n beta) = Some cp /\
    cpm_prediction (self w') = Some cp /\
    Mat.dot_mv (Mat.cols_from n om) (skipn n beta) = Some trend /\
    poly_prediction (self w') = Some (map (fun x => x - const) trend) /\
    length cp = length prediction /\ length trend = length prediction /\
    recompose const cp (map (fun x => x - const) trend) = prediction.
Proof.
  intro H. apply lsq_returned in H. destruct H. simpl in Hdec.
  destruct Hdec as (const & cp & pp & Hc & Hcp & Hpp & Hc' & Hcp' & Hpp').
  exists n, om, beta, const, cp, pp.
  do 13 (split; [assumption|]).
  apply dot_mv_rows in Hpred, Hcp, Hpp. subst prediction cp pp. simpl.
  rewrite ?length_map. split; [reflexivity|]. split; [reflexivity|].
  unfold recompose, Vec.add. rewrite !map_map.
  clear. induction (rows om) as [|r rs IH]; simpl; [reflexivity|].
  rewrite IH. f_equal. rewrite (dot_firstn_skipn n r beta). ring.
Qed.

End Decomposition.

Lemma lsq_prediction_decomposes_witness :
  let prediction := fst (value_of ([], []) Example.fit) in
  exists n om beta const cp trend,
    num_predictor_pixels (self Example.fitted) = Some n /\
    orig_m (self Example.fitted) = Some om /\
    lsq_params (self Example.fitted) = Some beta /\
    cpm_params (self Example.fitted) = Some (firstn n beta) /\
    poly_params (self Example.fitted) = Some (skipn n beta) /\
    Mat.dot_mv om beta = Some prediction /\
    lsq_prediction (self Example.fitted) = Some prediction /\
    nth_error (skipn n beta) 0 = Some const /\
    const_prediction (self Example.fitted) = Some const /\
    Mat.dot_mv (Mat.cols_to n om) (firstn n beta) = Some cp /\
    cpm_prediction (self Example.fitted) = Some cp /\
    Mat.dot_mv (Mat.cols_from n om) (skipn n beta) = Some trend /\
    poly_prediction (self Example.fitted) = Some (map (fun x => x - const)%Qc trend) /\
    length cp = length prediction /\ length trend = length prediction /\
    recompose const cp (map (fun x => x - const)%Qc trend) = prediction.
Proof.
  intro prediction.
  apply (@lsq_prediction_decomposes (Some (Example.q 1)) (Some true) None None
           Example.ready (fst (value_of ([], []) Example.fit))
           (snd (value_of ([], []) Example.fit)) Example.fitted).
  vm_compute. reflexivity.
Defined.

(* ================================================================== *)
(** ** The reference design matrix *)

Section ReferenceMatrix.

Open Scope py_scope.

Lemma keeps_bind I (A B : Type) (c : Py A) (k : A -> Py B) :
  keeps I c -> (forall a, keeps I (k a)) -> keeps I (bind c k).
Proof.
  intros Hc Hk w Hw. unfold bind. specialize (Hc w Hw).
  destruct (c w) as [a w1|w1]; simpl in *; [now apply Hk | assumption].
Qed.

Lemma keeps_ret I (A : Type) (a : A) : keeps I (ret a).
Proof. intros w Hw. exact Hw. Qed.

Lemma keeps_raise I (A : Type) : keeps I (raise A).
Proof. intros w Hw. exact Hw. Qed.

Lemma keeps_eval I (A : Type) (o : option A) : keeps I (eval o).
Proof. destruct o; [apply keeps_ret | apply keeps_raise]. Qed.

Lemma keeps_get I : keeps I get.
Proof. intros w Hw. exact Hw. Qed.

Lemma keeps_assign (I : World -> Prop) f :
  (forall w, I w -> I {| self := f (self w); stdout := stdout w; rng := rng w |}) ->
  keeps I (assign f).
Proof. intros H w Hw. now apply H. Qed.

Lemma keeps_print (I : World -> Prop) msg :
  (forall w, I w -> I {| self := self w; stdout := stdout w ++ [msg]; rng := rng w |}) ->
  keeps I (print msg).
Proof. intros H w Hw. now apply H. Qed.

Ltac keeps_step :=
  first
    [ apply keeps_bind; [|intro]
    | apply keeps_ret
    | apply keeps_raise
    | apply keeps_eval
    | apply keeps_get
    | apply keeps_assign; intros ? ?; simpl in *; solve [intuition auto]
    | apply keeps_print; intros ? ?; simpl in *; solve [intuition auto]
    | match goal with
      | |- keeps _ (when ?b _) => destruct b; unfold when
      | |- keeps _ (match ?x with _ => _ end) => destruct x
      | |- keeps _ (let (_, _) := ?x in _) => destruct x
      end ].

Lemma lsq_keeps_frozen o cpm_reg rescale pol uy um :
  keeps (frozen o) (lsq cpm_reg rescale pol uy um).
Proof.
  intros w Hw. pose proof Hw as [_ Ht].
  unfold lsq. unfold bind at 1. unfold get at 1. rewrite Ht. simpl negb.
  match goal with |- frozen o (world_of (?c w)) =>
    apply (fun K : keeps (frozen o) c => K w Hw) end.
  unfold select_inputs, assemble, decompose, frozen.
  repeat keeps_step.
Qed.

Lemma run_refit_keeps o c : keeps (frozen o) (run_refit c).
Proof.
  destruct c; simpl; unfold rerun;
    repeat first [apply lsq_keeps_frozen | keeps_step].
Qed.

Lemma run_refits_keeps o cs : forall w, frozen o w -> frozen o (run_refits cs w).
Proof.
  induction cs as [|c cs IH]; intros w Hw; simpl; [assumption|].
  apply IH. now apply run_refit_keeps.
Qed.

Lemma fit_result_predicted s cpm_reg rescale pol uy um prediction res s' :
  trained s = true ->
  fit_result s cpm_reg rescale pol uy um prediction res s' ->
  exists om, orig_m s = Some om /\ predicted_from om s'.
Proof.
  intros Ht H. destruct H. rewrite Ht in Hom. exists om. split; [auto|].
  exists beta, n. repeat split; auto; try congruence.
  intro Hp. rewrite Hflag' in Hp. rewrite Hp in Hdec.
  destruct Hdec as (const & cp & pp & Hc & Hcp & Hpp & Hc' & Hcp' & Hpp').
  exists const. rewrite Hcp, Hpp. auto.
Qed.

(** C2.  Once [trained] is true, no later fit -- a call of [lsq] with any
    arguments or the re-fit of the sigma-clipping loop, returning or
    raising -- assigns [orig_m]; and every later fit that returns has
    computed its full, predictor-only and trend-only predictions with
    [orig_m]. *)
Theorem orig_m_frozen_once_trained w cs :
  trained (self w) = true ->
  orig_m (self (run_refits cs w)) = orig_m (self w) /\
  forall c u w',
    run_refit c (run_refits cs w) = Returned u w' ->
    orig_m (self w') = orig_m (self w) /\
    exists om, orig_m (self w) = Some om /\ predicted_from om (self w').
Proof.
  intro Ht.
  assert (Hw : frozen (orig_m (self w)) w) by (split; [reflexivity | assumption]).
  pose proof (run_refits_keeps cs Hw) as Hw2. split; [apply Hw2|].
  intros c u w' H.
  pose proof (run_refit_keeps c Hw2) as Hw3. rewrite H in Hw3. split; [apply Hw3|].
  destruct Hw2 as [Ho Ht2]. rewrite <- Ho.
  revert H Ht2. generalize (run_refits cs w) as w2. intros w2 H Ht2.
  destruct c as [cpm_reg rescale pol uy um|]; simpl in H.
  - py_inv H.
    match goal with Hx : lsq _ _ _ _ _ _ = Returned ?a _ |- _ =>
      destruct a as [prediction res]; apply lsq_returned in Hx;
      eapply fit_result_predicted; eauto end.
  - unfold rerun in H. py_inv H.
    match goal with Hx : lsq _ _ _ _ _ _ = Returned ?a _ |- _ =>
      destruct a as [prediction res]; apply lsq_returned in Hx;
      eapply fit_result_predicted; eauto end.
Qed.

End ReferenceMatrix.

Lemma orig_m_frozen_once_trained_witness :
  let cs := [CallLsq (Some (Example.q 2)) (Some true) (Some true) None None] in
  orig_m (self (run_refits cs Example.clipped)) = orig_m (self Example.clipped) /\
  orig_m (self (world_of (run_refit CallRerun (run_refits cs Example.clipped))))
    = orig_m (self Example.clipped) /\
  exists om,
    orig_m (self Example.clipped) = Some om /\
    predicted_from om (self (world_of (run_refit CallRerun (run_refits cs Example.clipped)))).
Proof.
  intro cs.
  destruct (@orig_m_frozen_once_trained Example.clipped cs) as [H1 H2].
  - vm_compute. reflexivity.
  - split; [exact H1|].
    apply (H2 CallRerun tt (world_of (run_refit CallRerun (run_refits cs Example.clipped)))).
    vm_compute. reflexivity.
Defined.

(* ================================================================== *)
(** ** The trend basis in the design matrix *)

Section TrendConcatenation.

(** C9 (amended).  A fit stores as [m] the design matrix of
    [Spec.design_matrix]: with polynomials and no matrix passed in, the
    trend basis is concatenated to the predictor columns whatever
    [rescale] is -- on the raw path too --, and a matrix passed in is used
    as it is. *)
Theorem lsq_concatenates_unless_overridden cpm_reg rescale pol uy um w prediction res w' :
  lsq cpm_reg rescale pol uy um w = Returned (prediction, res) w' ->
  m (self w') = Spec.design_matrix (self w) rescale pol uy um /\
  (is_true pol = true -> um = None ->
   exists p v h,
     Spec.predictor_matrix (self w) rescale uy None = Some p /\
     (uy = None -> rescale = Some false -> predictor_pixels_fluxes (self w) = Some p) /\
     v_matrix (self w) = Some v /\
     Mat.hstack p v = Some h /\
     m (self w') = Some h /\
     ncols h = (ncols p + ncols v)%nat) /\
  (forall M, um = Some M -> m (self w') = Some M).
Proof.
  intro H. apply lsq_returned in H. destruct H.
  split; [congruence|]. split.
  - intros Hp ->. unfold Spec.design_matrix in HM. rewrite Hp in HM.
    destruct (Spec.predictor_matrix (self w) rescale uy None) as [p|] eqn:Ep; [|discriminate].
    destruct (v_matrix (self w)) as [v|]; [|discriminate].
    exists p, v, M. repeat split; auto.
    + intros -> ->. exact Ep.
    + unfold Mat.hstack in HM. destruct (Nat.eqb _ _); inversion HM; reflexivity.
  - intros M' ->. unfold Spec.design_matrix, Spec.predictor_matrix in HM.
    rewrite Hm'. destruct uy; destruct (is_true pol); congruence.
Qed.

End TrendConcatenation.

Lemma lsq_concatenates_unless_overridden_witness :
  m (self Example.fitted)
    = Spec.design_matrix (self Example.ready) (Some true) (Some true) None None /\
  exists p v h,
    Spec.predictor_matrix (self Example.ready) (Some true) None None = Some p /\
    v_matrix (self Example.ready) = Some v /\
    Mat.hstack p v = Some h /\
    m (self Example.fitted) = Some h /\
    ncols h = (ncols p + ncols v)%nat.
Proof.
  destruct (@lsq_concatenates_unless_overridden (Some (Example.q 1)) (Some true)
              (Some true) None None Example.ready
              (fst (value_of ([], []) Example.fit))
              (snd (value_of ([], []) Example.fit)) Example.fitted)
    as (Hm & Hcat & _).
  - vm_compute. reflexivity.
  - split; [exact Hm|].
    destruct (Hcat eq_refl eq_refl) as (p & v & h & Hp & _ & Hv & Hh & Hmh & Hc).
    exists p, v, h. repeat split; assumption.
Defined.

(** C9, as stated, fails: on the raw path ([rescale = False], nothing
    passed in) a fit with polynomials has the trend basis in its design
    matrix. *)
Lemma raw_path_concatenates_trend :
  exists prediction res w' p v M,
    lsq (Some 0%Qc) (Some false) (Some true) None None Example.ready
      = Returned (prediction, res) w' /\
    predictor_pixels_fluxes (self Example.ready) = Some p /\
    v_matrix (self Example.ready) = Some v /\
    m (self w') = Some M /\
    Mat.hstack p v = Some M /\
    map (map this) (rows M)
      = [[10; 12; 1; -1 # 2]; [12; 16; 1; -1 # 4]; [14; 20; 1; 1 # 4];
         [16; 28; 1; 1 # 2]]%Q /\
    ncols p = 2%nat /\ ncols M = 4%nat.
Proof.
  do 6 eexists.
  split; [vm_compute; reflexivity|].
  split; [vm_compute; reflexivity|].
  split; [vm_compute; reflexivity|].
  split; [vm_compute; reflexivity|].
  split; [vm_compute; reflexivity|].
  split; [vm_compute; reflexivity|].
  split; vm_compute; reflexivity.
Qed.

(* ================================================================== *)
(** ** Loading *)

Section Loading.

Lemma count_true_false l : (Img.count_true l + Img.count_false l = length l)%nat.
Proof.
  unfold Img.count_true, Img.count_false.
  induction l as [|[|] l IH]; simpl; lia.
Qed.

Lemma select_length (A : Type) mask (a : list A) :
  length mask = length a -> length (Vec.select mask a) = Img.count_true mask.
Proof.
  unfold Img.count_true. revert a; induction mask as [|b mask IH]; intros [|x a] H;
    simpl in *; try discriminate; auto.
  destruct b; simpl; rewrite IH by lia; reflexivity.
Qed.

Lemma mask_index_length (A : Type) mask (a r : list A) :
  Img.mask_index mask a = Some r ->
  length a = length mask /\ length r = Img.count_true mask.
Proof.
  unfold Img.mask_index. destruct (Nat.eqb (length mask) (length a)) eqn:E; [|discriminate].
  apply Nat.eqb_eq in E. intro H; inversion H; subst.
  split; [auto | now apply select_length].
Qed.

Lemma count_good QUALITY :
  Img.count_true (map (Z.eqb 0) QUALITY) = (length QUALITY - nonzero_count QUALITY)%nat.
Proof.
  unfold Img.count_true, nonzero_count.
  induction QUALITY as [|x l IH]; cbn -[Z.eqb Nat.sub]; [reflexivity|].
  rewrite (Z.eqb_sym 0 x). destruct (Z.eqb x 0); cbn -[Z.eqb Nat.sub]; [|assumption].
  rewrite IH.
  assert (length (filter (fun x => negb (Z.eqb x 0)) l) <= length l)%nat
    by (clear; induction l as [|y l IH]; simpl; [lia | destruct (negb _); simpl; lia]).
  lia.
Qed.

(** C7 (amended).  Loading with bad-sample removal shortens [time],
    [im_fluxes] and [im_errors] alike, by the number of non-zero quality
    entries; the quality array itself is stored whole. *)
Theorem init_removes_bad_samples TIME FLUX FLUX_ERR QUALITY w w' :
  init TIME FLUX FLUX_ERR QUALITY true w = Returned tt w' ->
  let kept := (length QUALITY - nonzero_count QUALITY)%nat in
  length TIME = length QUALITY /\ length FLUX = length QUALITY /\
  length FLUX_ERR = length QUALITY /\
  length (time (self w')) = kept /\
  length (im_fluxes (self w')) = kept /\
  length (im_errors (self w')) = kept /\
  quality (self w') = QUALITY.
Proof.
  unfold init. intro H. py_inv H; simpl in *.
  all: repeat match goal with
         | Hx : Img.mask_index _ _ = Some _ |- _ =>
             apply mask_index_length in Hx; destruct Hx
         end.
  all: rewrite ?length_map, ?count_good in *; repeat split; auto.
Qed.

End Loading.

Lemma init_removes_bad_samples_witness :
  let kept := (length Example.QUALITY - nonzero_count Example.QUALITY)%nat in
  length Example.TIME = length Example.QUALITY /\
  length Example.FLUX = length Example.QUALITY /\
  length Example.FLUX_ERR = length Example.QUALITY /\
  length (time (self Example.loaded)) = kept /\
  length (im_fluxes (self Example.loaded)) = kept /\
  length (im_errors (self Example.loaded)) = kept /\
  quality (self Example.loaded) = Example.QUALITY.
Proof.
  apply (@init_removes_bad_samples Example.TIME Example.FLUX Example.FLUX_ERR
           Example.QUALITY Example.start Example.loaded).
  vm_compute. reflexivity.
Defined.

(** C7, as stated, fails: after a load that removes a flagged sample the
    quality array is longer than the flux and error cubes. *)
Lemma quality_keeps_its_length :
  init Example.TIME Example.FLUX Example.FLUX_ERR Example.QUALITY true Example.start
    = Returned tt Example.loaded /\
  nonzero_count Example.QUALITY = 1%nat /\
  length (im_fluxes (self Example.loaded)) = 4%nat /\
  length (im_errors (self Example.loaded)) = 4%nat /\
  length (time (self Example.loaded)) = 4%nat /\
  length (quality (self Example.loaded)) = 5%nat /\
  length (quality (self Example.loaded)) <> length (im_fluxes (self Example.loaded)).
Proof.
  split; [vm_compute; reflexivity|].
  repeat split; try (vm_compute; reflexivity).
  vm_compute. discriminate.
Qed.

(* ================================================================== *)
(** ** The order of the set-up steps *)

Section Prerequisites.

Open Scope py_scope.

Context {np : Numpy}.

(** [set_exclusion] before [set_target]: the message, and nothing
    else. *)
Lemma set_exclusion_without_target exclusion method w :
  is_target_set (self w) = false ->
  set_exclusion exclusion method w
    = Returned tt {| self := self w; stdout := stdout w ++ [PleaseSetTarget];
                     rng := rng w |}.
Proof.
  intro H. unfold set_exclusion, bind, get. rewrite H. reflexivity.
Qed.

(** [set_predictor_pixels] before target and exclusion, with no seed or
    with one that [np.random.seed] accepts: the message; the object is
    untouched (a seed passed in has already reseeded the generator). *)
Lemma set_predictor_pixels_without_setup n method seed w :
  is_target_set (self w) && is_exclusion_set (self w) = false ->
  accepted seed = true ->
  exists g,
    set_predictor_pixels n method seed w
      = Returned tt {| self := self w;
                       stdout := stdout w ++ [PleaseSetTargetAndExclusion];
                       rng := g |} /\
    g = match seed with Some sd => np_random_seed sd | None => rng w end.
Proof.
  intros H Hs. unfold set_predictor_pixels, seed_generator, bind, get.
  assert (E : negb (is_target_set (self w)) || negb (is_exclusion_set (self w)) = true)
    by (destruct (is_target_set (self w)), (is_exclusion_set (self w)); auto).
  destruct seed as [sd|]; simpl in *; rewrite ?Hs; simpl; rewrite E; eexists; split;
    reflexivity.
Qed.

(** [lsq] and [xval] before the predictors are chosen: the message is
    printed, but the method goes on, assigns three attributes and raises on
    [np.identity(None)]. *)
Lemma lsq_without_predictors cpm_reg rescale pol uy um w :
  are_predictors_set (self w) = false ->
  num_predictor_pixels (self w) = None ->
  lsq cpm_reg rescale pol uy um w
    = Raised {| self := Assign.polynomials pol
                          (Assign.rescale rescale
                             (Assign.cpm_regularization cpm_reg (self w)));
                stdout := stdout w ++ [YouMissedAStep];
                rng := rng w |}.
Proof.
  intros Hp Hn. unfold lsq, bind, get, when. rewrite Hp, Hn.
  rewrite !orb_true_r. simpl. destruct cpm_reg; reflexivity.
Qed.

Lemma xval_without_predictors cpm_reg rescale pol k w :
  are_predictors_set (self w) = false ->
  num_predictor_pixels (self w) = None ->
  xval cpm_reg rescale pol k w
    = Raised {| self := Assign.polynomials pol
                          (Assign.rescale rescale
                             (Assign.cpm_regularization cpm_reg (self w)));
                stdout := stdout w ++ [YouMissedAStep];
                rng := rng w |}.
Proof.
  intros Hp Hn. unfold xval, bind, get, when. rewrite Hp, Hn.
  rewrite !orb_true_r. simpl. destruct cpm_reg; reflexivity.
Qed.

End Prerequisites.

(** C8: what the code does where the claim fails.  On an object just
    loaded, [lsq(1)] and [xval(1)] print the message and then, instead of
    returning, assign [cpm_regularization], [rescale] and [polynomials] and
    raise. *)
Theorem fit_before_setup_mutates :
  is_target_set (self Example.loaded) = false /\
  cpm_regularization (self Example.loaded) = None /\
  rescale (self Example.loaded) = None /\
  polynomials (self Example.loaded) = None /\
  (exists w',
     lsq (Some (Example.q 1)) (Some true) (Some false) None None Example.loaded
       = Raised w' /\
     stdout w' = stdout Example.loaded ++ [YouMissedAStep] /\
     cpm_regularization (self w') = Some (Example.q 1) /\
     rescale (self w') = Some true /\
     polynomials (self w') = Some false) /\
  (exists w',
     xval (Some (Example.q 1)) (Some true) (Some false) 10 Example.loaded
       = Raised w' /\
     stdout w' = stdout Example.loaded ++ [YouMissedAStep] /\
     cpm_regularization (self w') = Some (Example.q 1) /\
     rescale (self w') = Some true /\
     polynomials (self w') = Some false).
Proof.
  repeat split; try (vm_compute; reflexivity).
  - eexists. split; [apply lsq_without_predictors; vm_compute; reflexivity|].
    repeat split; vm_compute; reflexivity.
  - eexists. split; [apply xval_without_predictors; vm_compute; reflexivity|].
    repeat split; vm_compute; reflexivity.
Qed.

(* ================================================================== *)
(** ** Cross-validation *)

Section CrossValidation.

Lemma test_folds_concat sizes : forall start,
  concat (KFold.test_folds start sizes) = seq start (list_sum sizes).
Proof.
  induction sizes as [|sz sizes IH]; intro start; simpl; [reflexivity|].
  rewrite IH. now rewrite seq_app.
Qed.

Lemma fold_sizes_sum k : forall q r,
  list_sum (KFold.fold_sizes k q r) = (k * q + Nat.min r k)%nat.
Proof.
  induction k as [|k IH]; intros q r; simpl; [lia|].
  rewrite IH. destruct r as [|r]; simpl; lia.
Qed.

Lemma fold_sizes_length k q r : length (KFold.fold_sizes k q r) = k.
Proof. revert r; induction k as [|k IH]; intro r; simpl; [reflexivity|]. now rewrite IH. Qed.

Lemma test_folds_length sizes start :
  length (KFold.test_folds start sizes) = length sizes.
Proof. revert start; induction sizes as [|sz sizes IH]; intro; simpl; auto. Qed.

(** The folds of [KFold(k).split] partition the indices: there are [k]
    of them, their test sets laid end to end are [0 .. n-1] (so they cover
    every index once and never share one), and each training set is the
    complement of its test set. *)
Lemma split_partitions k n folds :
  KFold.split k n = Some folds ->
  length folds = k /\
  concat (map snd folds) = seq 0 n /\
  forall train test, In (train, test) folds ->
    forall i, In i train <-> (i < n)%nat /\ ~ In i test.
Proof.
  unfold KFold.split. destruct (Nat.ltb k 2 || Nat.ltb n k) eqn:E; [discriminate|].
  apply orb_false_iff in E. destruct E as [E1 E2].
  apply Nat.ltb_ge in E1, E2. intro H; inversion H; subst; clear H.
  rewrite length_map, test_folds_length, fold_sizes_length.
  rewrite map_map; simpl. rewrite map_id, test_folds_concat, fold_sizes_sum.
  repeat split.
  - f_equal. pose proof (Nat.div_mod_eq n k).
    pose proof (Nat.mod_upper_bound n k). lia.
  - apply in_map_iff in H. destruct H as (t & Ht & _). inversion Ht; subst.
    unfold KFold.train_of in H0. apply filter_In in H0. destruct H0 as [H0 _].
    apply in_seq in H0. lia.
  - apply in_map_iff in H. destruct H as (t & Ht & _). inversion Ht; subst.
    unfold KFold.train_of in H0. apply filter_In in H0. destruct H0 as [_ H0].
    intro Hin. apply negb_true_iff in H0.
    assert (existsb (Nat.eqb i) test = true)
      by (apply existsb_exists; exists i; split; [assumption | apply Nat.eqb_refl]).
    congruence.
  - intros [Hi Hn]. apply in_map_iff in H. destruct H as (t & Ht & _).
    inversion Ht; subst. unfold KFold.train_of. apply filter_In. split.
    + apply in_seq. lia.
    + apply negb_true_iff. destruct (existsb (Nat.eqb i) test) eqn:Ex; [|reflexivity].
      apply existsb_exists in Ex. destruct Ex as (j & Hj & Hij).
      apply Nat.eqb_eq in Hij. subst. contradiction.
Qed.

(** Both lists returned by the loop grow by the same predictions. *)
Lemma xval_folds_returned folds pol n y mat rm : forall prediction res w p r w',
  xval_folds folds pol n y mat rm prediction res w = Returned (p, r) w' ->
  exists preds,
    p = prediction ++ preds /\ r = res ++ preds /\
    Forall2 (fold_prediction y mat rm) folds preds.
Proof.
  induction folds as [|[train test] folds IH]; intros prediction res w p r w' H.
  - simpl in H. py_inv H. exists []. rewrite !app_nil_r. repeat split; auto.
  - simpl in H. py_inv H.
    match goal with Hx : xval_folds _ _ _ _ _ _ _ _ _ = _ |- _ =>
      apply IH in Hx; destruct Hx as (preds & -> & -> & Hf) end.
    eexists (_ :: preds). rewrite <- !app_assoc. simpl.
    split; [reflexivity|]. split; [reflexivity|].
    constructor; [|assumption].
    unfold fold_prediction; simpl. do 6 eexists. repeat split; eassumption.
Qed.

Lemma xval_returned cpm_reg rescale pol k w p r w' :
  xval cpm_reg rescale pol k w = Returned (p, r) w' ->
  r = p /\
  exists folds mat rm,
    KFold.split k (length (time (self w))) = Some folds /\
    Forall2 (fold_prediction (rescaled_target_fluxes (self w)) mat rm) folds p.
Proof.
  unfold xval. intro H. py_inv H.
  all: match goal with Hx : xval_folds _ _ _ _ _ _ _ _ _ = _ |- _ =>
         apply xval_folds_returned in Hx; destruct Hx as (preds & -> & -> & Hf) end.
  all: simpl in *; split; [reflexivity|]; eauto.
Qed.

End CrossValidation.

(** C10: what the code does where the claim fails.  Both lists that
    [xval] returns hold the out-of-fold predictions; the residual of a
    fold is only kept in [self.residual] until the next fold replaces
    it. *)
Theorem xval_returns_predictions_twice :
  exists prediction res w' last_residual,
    xval (Some (Example.q 1)) (Some true) (Some false) 2 Example.ready
      = Returned (prediction, res) w' /\
    map (map this) prediction
      = [[-405 # 6299; -135 # 6299]; [875 # 48567; 3808 # 48567]]%Q /\
    res = prediction /\
    residual (self w') = Some last_residual /\
    map this last_residual = [4813 # 32378; 4127 # 16189]%Q /\
    last res [] <> last_residual.
Proof.
  do 4 eexists.
  split; [vm_compute; reflexivity|].
  split; [vm_compute; reflexivity|].
  split; [reflexivity|].
  split; [vm_compute; reflexivity|].
  split; [vm_compute; reflexivity|].
  intro H. apply (f_equal (map this)) in H. vm_compute in H. discriminate H.
Qed.

(* ================================================================== *)
(** ** Sigma clipping *)

Section SigmaClipping.

Open Scope py_scope.

Context {np : Numpy}.

Lemma shrinks_refl v : shrinks v v.
Proof. induction v; constructor; auto. Qed.

Lemma shrinks_trans v1 v2 v3 : shrinks v1 v2 -> shrinks v2 v3 -> shrinks v1 v3.
Proof.
  intro H. revert v3. induction H as [|b1 b2 v1 v2 Hb _ IH]; intros v3 H3;
    inversion H3; subst; constructor; auto.
  apply IH. assumption.
Qed.

Lemma shrinks_length v' v : shrinks v' v -> length v' = length v.
Proof. induction 1; simpl; congruence. Qed.

Lemma shrinks_count v' v :
  shrinks v' v -> (Img.count_false v <= Img.count_false v')%nat.
Proof.
  unfold Img.count_false. induction 1 as [|b' b v' v Hb _ IH]; simpl; [lia|].
  destruct b', b; simpl; try lia; specialize (Hb eq_refl); discriminate.
Qed.

Lemma shrinks_count_true v' v :
  shrinks v' v -> (Img.count_true v' <= Img.count_true v)%nat.
Proof.
  intro H. pose proof (shrinks_count H). pose proof (shrinks_length H).
  pose proof (count_true_false v). pose proof (count_true_false v'). lia.
Qed.

Lemma clip_shrinks valid diff boundary :
  length diff = length valid -> shrinks (clip valid diff boundary) valid.
Proof.
  revert diff; induction valid as [|b valid IH]; intros [|d diff] H; simpl in *;
    try discriminate; constructor.
  - destruct boundary as [bd|]; [destruct (Qc_ltb bd (Qc_abs d))|]; auto; discriminate.
  - apply IH. lia.
Qed.

Lemma clip_iteration_returned sigma sub valid w valid' w' :
  clip_iteration sigma sub valid w = Returned valid' w' ->
  w' = w /\ shrinks valid' valid.
Proof.
  unfold clip_iteration. intro H. py_inv H.
  all: match goal with Hx : Img.mask_index _ _ = Some _ |- _ =>
         apply mask_index_length in Hx; destruct Hx as [Hl _] end.
  all: split; [reflexivity | now apply clip_shrinks].
Qed.

Lemma sigma_clip_loop_S turns sigma sub valid prev iter :
  sigma_clip_loop (S turns) sigma sub valid prev iter
  = (valid' <- clip_iteration sigma sub valid ;;
     if Z.eqb (Z.of_nat (Img.count_false valid') - prev) 0
     then ret (Break valid' iter)
     else next_turn turns sigma sub valid' prev iter).
Proof. reflexivity. Qed.

Lemma sigma_clip_loop_turn turns sigma sub valid prev iter w valid' w1 :
  prev = Z.of_nat (Img.count_false valid) ->
  clip_iteration sigma sub valid w = Returned valid' w1 ->
  (Img.count_false valid' = Img.count_false valid ->
   sigma_clip_loop (S turns) sigma sub valid prev iter w = Returned (Break valid' iter) w1) /\
  (Img.count_false valid' <> Img.count_false valid ->
   (Img.count_false valid < Img.count_false valid')%nat /\
   sigma_clip_loop (S turns) sigma sub valid prev iter w
     = next_turn turns sigma sub valid' prev iter w1).
Proof.
  intros -> Hc. pose proof (clip_iteration_returned _ _ _ _ Hc) as [_ Hs].
  pose proof (shrinks_count Hs) as Hle.
  rewrite sigma_clip_loop_S. unfold bind at 1 2. rewrite Hc.
  split; intro H.
  - rewrite H, Z.sub_diag. reflexivity.
  - split; [lia|].
    destruct (Z.eqb_spec (Z.of_nat (Img.count_false valid')
                          - Z.of_nat (Img.count_false valid)) 0) as [E | E]; [lia|].
    reflexivity.
Qed.

Lemma sigma_clip_loop_exit turns sigma sub : forall valid prev iter w e w',
  prev = Z.of_nat (Img.count_false valid) ->
  sigma_clip_loop turns sigma sub valid prev iter w = Returned e w' ->
  match e with
  | Break final n =>
      shrinks final valid /\
      (iter <= n <= iter + Z.of_nat (Img.count_true valid))%Z
  | StillLooping => (turns <= Img.count_true valid)%nat
  end.
Proof.
  induction turns as [|turns IH]; intros valid prev iter w e w' Hp H.
  - simpl in H. py_inv H. lia.
  - pose proof H as H0. rewrite sigma_clip_loop_S in H0.
    apply bind_returned in H0. destruct H0 as (valid' & w1 & Hc & _).
    destruct (@sigma_clip_loop_turn turns sigma sub valid prev iter w valid' w1 Hp Hc)
      as [Hstop Hgo].
    pose proof (clip_iteration_returned _ _ _ _ Hc) as [_ Hs].
    destruct (Nat.eq_dec (Img.count_false valid') (Img.count_false valid)) as [E | E].
    + rewrite (Hstop E) in H. inversion H; subst.
      split; [assumption | lia].
    + destruct (Hgo E) as [Hlt Hn]. rewrite Hn in H. unfold next_turn in H. py_inv H.
      match goal with Hx : sigma_clip_loop _ _ _ _ _ _ _ = _ |- _ =>
        apply IH in Hx; [|lia] end.
      pose proof (shrinks_length Hs).
      pose proof (count_true_false valid). pose proof (count_true_false valid').
      destruct e as [final n|].
      * destruct H as [Hf Hn']. split; [eapply shrinks_trans; eauto | lia].
      * lia.
Qed.

Lemma count_repeat_true n :
  Img.count_true (repeat true n) = n /\ Img.count_false (repeat true n) = O.
Proof.
  unfold Img.count_true, Img.count_false.
  induction n as [|n [IH1 IH2]]; simpl; auto.
Qed.

(** C4.  Every turn of the loop only turns entries of the mask to
    [False], so the number of valid samples does not grow; the loop breaks
    in a turn exactly when that turn invalidated no further sample, and
    otherwise re-fits and takes the next turn with strictly fewer valid
    samples; and [sigma_clip_process] has left the loop after at most one
    turn more than there are samples. *)
Theorem sigma_clip_shrinks_and_terminates sigma sub :
  (forall valid w valid' w1,
     clip_iteration sigma sub valid w = Returned valid' w1 ->
     shrinks valid' valid /\
     (Img.count_true valid' <= Img.count_true valid)%nat /\
     forall turns iter,
       let prev := Z.of_nat (Img.count_false valid) in
       (Img.count_false valid' = Img.count_false valid ->
        sigma_clip_loop (S turns) sigma sub valid prev iter w
          = Returned (Break valid' iter) w1) /\
       (Img.count_false valid' <> Img.count_false valid ->
        (Img.count_true valid' < Img.count_true valid)%nat /\
        sigma_clip_loop (S turns) sigma sub valid prev iter w
          = next_turn turns sigma sub valid' prev iter w1)) /\
  (forall w e w',
     sigma_clip_process sigma sub w = Returned e w' ->
     let T := length (time (self w)) in
     exists final iter_num,
       e = Break final iter_num /\
       shrinks final (repeat true T) /\
       (1 <= iter_num <= 1 + Z.of_nat T)%Z).
Proof.
  split.
  - intros valid w valid' w1 Hc.
    pose proof (clip_iteration_returned _ _ _ _ Hc) as [_ Hs].
    split; [assumption|]. split; [now apply shrinks_count_true|].
    intros turns iter prev.
    destruct (@sigma_clip_loop_turn turns sigma sub valid prev iter w valid' w1
                eq_refl Hc) as [Hstop Hgo].
    split; [assumption|]. intro E. destruct (Hgo E) as [Hlt Hn]. split; [|assumption].
    pose proof (shrinks_length Hs).
    pose proof (count_true_false valid). pose proof (count_true_false valid'). lia.
  - intros w e w' H T. unfold sigma_clip_process in H.
    apply bind_returned in H. destruct H as (s & w1 & Hg & H). py_prim Hg.
    destruct (count_repeat_true (length (time (self w1)))) as [Ht Hf].
    apply sigma_clip_loop_exit in H; [|now rewrite Hf].
    rewrite Ht in H. destruct e as [final n|]; [|lia].
    exists final, n. destruct H as [Hs Hn]. repeat split; auto; lia.
Qed.

End SigmaClipping.

Lemma sigma_clip_shrinks_and_terminates_witness :
  let T := length (time (self Example.fitted)) in
  (exists valid',
     value_of [] (clip_iteration (np := Reference.stable) (Example.q 1) false
                    (repeat true T) Example.fitted) = valid' /\
     shrinks valid' (repeat true T) /\
     (Img.count_true valid' <= Img.count_true (repeat true T))%nat) /\
  exists final iter_num,
    value_of StillLooping Example.clipping = Break final iter_num /\
    shrinks final (repeat true T) /\
    (1 <= iter_num <= 1 + Z.of_nat T)%Z.
Proof.
  intro T.
  destruct (sigma_clip_shrinks_and_terminates (np := Reference.stable)
              (Example.q 1) false) as [Hturn Hprocess].
  split.
  - eexists. split; [reflexivity|].
    destruct (Hturn (repeat true T) Example.fitted
                (value_of [] (clip_iteration (np := Reference.stable) (Example.q 1)
                                false (repeat true T) Example.fitted))
                Example.fitted) as (Hs & Hc & _).
    + vm_compute. reflexivity.
    + split; assumption.
  - apply (Hprocess Example.fitted (value_of StillLooping Example.clipping) Example.clipped).
    vm_compute. reflexivity.
Defined.

(* ================================================================== *)
(** ** The exclusion region *)

Section Exclusion.

Open Scope py_scope.

Lemma tabulate_nth nr nc p row col :
  (row < nr)%nat -> (col < nc)%nat ->
  nth col (nth row (Img.tabulate nr nc p) []) true = p row col.
Proof.
  intros Hr Hc. unfold Img.tabulate.
  rewrite (nth_indep _ [] (map (fun c => p O c) (seq 0 nc)))
    by now rewrite length_map, length_seq.
  change (map (fun c => p O c) (seq 0 nc))
    with ((fun r => map (fun c => p r c) (seq 0 nc)) O).
  rewrite map_nth, seq_nth by assumption. simpl.
  rewrite (nth_indep _ true (p row O)) by now rewrite length_map, length_seq.
  change (p row O) with ((fun c => p row c) O).
  rewrite map_nth, seq_nth by assumption. reflexivity.
Qed.

Lemma in_band_self x exc side : (x < side)%nat -> in_band x exc side x = true.
Proof.
  intro H. unfold in_band. apply andb_true_iff. split.
  - apply Nat.leb_le. lia.
  - apply Nat.ltb_lt. lia.
Qed.

Open Scope string_scope.

(** With each of the four methods the mask stored by [set_exclusion] is
    [False] -- not eligible -- at the target pixel. *)
Lemma set_exclusion_excludes_target exclusion method w w' r c first :
  is_target_set (self w) = true ->
  target_row (self w) = Some r ->
  target_col (self w) = Some c ->
  nth_error (im_fluxes (self w)) 0 = Some first ->
  length (hd [] first) = length first ->
  (r < length first)%nat -> (c < length first)%nat ->
  In method ["cross"; "row_exclude"; "col_exclude"; "closest"] ->
  set_exclusion exclusion method w = Returned tt w' ->
  exists mask,
    excluded_pixels_mask (self w') = Some mask /\
    nth c (nth r mask []) true = false.
Proof.
  intros Ht Hr Hc Hf Hsq Hrl Hcl Hm H. unfold set_exclusion in H.
  apply bind_returned in H. destruct H as (s & w1 & Hg & H). py_prim Hg.
  rewrite Ht, Hr, Hc, Hf in H. cbn [negb] in H. cbv iota in H.
  assert (Hside : Img.image_rows (im_fluxes (self w1)) = length first).
  { unfold Img.image_rows. destruct (im_fluxes (self w1)); [discriminate|].
    simpl in Hf. inversion Hf. reflexivity. }
  rewrite Hside in H.
  assert (Hrb : in_band r exclusion (length first) r = true) by now apply in_band_self.
  assert (Hcb : in_band c exclusion (length first) c = true) by now apply in_band_self.
  destruct Hm as [<- | [<- | [<- | [<- | []]]]];
    simpl (String.eqb _ _) in H; cbv iota in H; py_inv H;
    repeat match goal with Hx : Some _ = Some _ |- _ => inversion Hx; subst; clear Hx end;
    eexists; (split; [reflexivity|]); cbn [fst snd];
    rewrite tabulate_nth by congruence; rewrite ?Hrb, ?Hcb; reflexivity.
Qed.

End Exclusion.

(* ================================================================== *)
(** ** The selection of predictor pixels *)

Section Selection.

Open Scope py_scope.

Lemma gather_spec (A : Type) (d : A) idx : forall (l xs : list A),
  Mat.gather idx l = Some xs ->
  xs = map (fun i => nth i l d) idx /\ Forall (fun i => (i < length l)%nat) idx.
Proof.
  induction idx as [|i idx IH]; intros l xs H; simpl in H.
  - inversion H. split; [reflexivity | constructor].
  - destruct (nth_error l i) as [x|] eqn:E; [|discriminate].
    destruct (Mat.gather idx l) as [xs'|] eqn:E'; [|discriminate].
    inversion H; subst. destruct (IH _ _ E') as [-> HF]. split.
    + simpl. f_equal. symmetry. now apply nth_error_nth.
    + constructor; [|assumption]. apply nth_error_Some. congruence.
Qed.

Lemma gather_total (A : Type) idx (l : list A) :
  Forall (fun i => (i < length l)%nat) idx -> exists xs, Mat.gather idx l = Some xs.
Proof.
  induction 1 as [|i idx Hi _ [xs IH]]; simpl; [eauto|].
  destruct (nth_error l i) eqn:E; [|apply nth_error_None in E; lia].
  rewrite IH. eauto.
Qed.

Lemma select_In (A : Type) mask (l : list A) x : In x (Vec.select mask l) -> In x l.
Proof.
  revert l; induction mask as [|b mask IH]; intros [|y l] H; simpl in *;
    try contradiction.
  destruct b; [destruct H as [H | H]; [now left | right; now apply IH]
              | right; now apply IH].
Qed.

Lemma select_NoDup (A : Type) mask (l : list A) : NoDup l -> NoDup (Vec.select mask l).
Proof.
  revert l; induction mask as [|b mask IH]; intros [|y l] H; simpl; try constructor.
  inversion H; subst. destruct b; [|now apply IH].
  constructor; [|now apply IH]. intro Hin. apply select_In in Hin. contradiction.
Qed.

(** Selecting by a mask from a list is reading the list at the selected
    positions. *)
Lemma select_positions (A : Type) (d : A) mask : forall (l : list A) start,
  Vec.select mask l
  = map (fun i => nth (i - start) l d) (Vec.select mask (seq start (length l))).
Proof.
  induction mask as [|b mask IH]; intros [|x l] start; try reflexivity.
  assert (E : map (fun i => nth (i - start) (x :: l) d) (Vec.select mask (seq (S start) (length l)))
              = map (fun i => nth (i - S start) l d) (Vec.select mask (seq (S start) (length l)))).
  { apply map_ext_in. intros i Hi. apply select_In, in_seq in Hi.
    replace (i - start)%nat with (S (i - S start)) by lia. reflexivity. }
  destruct b; cbn [Vec.select length seq map];
    rewrite ?Nat.sub_diag, E, <- IH; reflexivity.
Qed.

Lemma in_firstn (A : Type) n (l : list A) x : In x (firstn n l) -> In x l.
Proof.
  intro H. rewrite <- (firstn_skipn n l). apply in_or_app. now left.
Qed.

Lemma NoDup_map_nth (A : Type) (d : A) (l : list A) idx :
  NoDup l -> NoDup idx -> Forall (fun i => (i < length l)%nat) idx ->
  NoDup (map (fun i => nth i l d) idx).
Proof.
  intros Hl Hn Hr. induction Hn as [|i idx Hi _ IH]; simpl; constructor.
  - inversion Hr; subst. intro Hin. apply in_map_iff in Hin.
    destruct Hin as (j & Hj & Hjin). rewrite Forall_forall in H2.
    apply (proj1 (NoDup_nth l d) Hl) in Hj; auto. subst. contradiction.
  - apply IH. now inversion Hr.
Qed.

Lemma sorted_app_inv (A : Type) (R : A -> A -> Prop) l1 l2 :
  StronglySorted R (l1 ++ l2) -> forall x y, In x l1 -> In y l2 -> R x y.
Proof.
  induction l1 as [|a l1 IH]; simpl; intros H x y Hx Hy; [contradiction|].
  apply StronglySorted_inv in H. destruct H as [Hs Hf]. destruct Hx as [-> | Hx].
  - rewrite Forall_forall in Hf. apply Hf, in_or_app. now right.
  - now apply IH.
Qed.

Lemma sorted_firstn (A : Type) (R : A -> A -> Prop) n l :
  StronglySorted R l -> StronglySorted R (firstn n l).
Proof.
  intro H. revert n. induction H as [|a l Hs IH Hf]; intros [|n]; simpl; try constructor.
  - apply IH.
  - rewrite Forall_forall in *. intros x Hx. apply Hf. eapply in_firstn; eauto.
Qed.

Lemma nth_map_in_range (A : Type) (f : A -> Qc) i l d :
  (i < length l)%nat -> nth i (map f l) 0%Qc = f (nth i l d).
Proof.
  intro H. rewrite (nth_indep _ 0%Qc (f d)) by now rewrite length_map.
  apply map_nth.
Qed.

Lemma location_injective side i j :
  ((i / side)%nat, (i mod side)%nat) = ((j / side)%nat, (j mod side)%nat) -> i = j.
Proof.
  intro H. inversion H as [[H1 H2]].
  rewrite (Nat.div_mod_eq i side), (Nat.div_mod_eq j side). congruence.
Qed.

Context {np : Numpy} {laws : NumpyLaws np}.

(** The choice made by [similar_brightness]: the first [n] entries of the
    argsort of the distances, read in the eligible positions. *)
Lemma closest_selection (fpm : vec) (mask : list bool) (tm : Qc) (n : nat)
    (possible_idx : list nat) (ppm : vec) (chosen : list nat) :
  Img.mask_index mask (seq 0 (length fpm)) = Some possible_idx ->
  Img.mask_index mask fpm = Some ppm ->
  Mat.gather (firstn n (np_argsort (map (fun x => Qc_abs (x - tm)%Qc) ppm))) possible_idx
    = Some chosen ->
  let distance idx := Qc_abs (nth idx fpm 0 - tm)%Qc in
  length chosen = Nat.min n (Img.count_true mask) /\
  NoDup chosen /\
  incl chosen possible_idx /\
  StronglySorted (fun i j => distance i <= distance j)%Qc chosen /\
  (forall i j, In i chosen -> In j possible_idx -> ~ In j chosen ->
               (distance i <= distance j)%Qc).
Proof.
  intros Hp Hm Hg distance.
  set (diff := map (fun x => Qc_abs (x - tm)%Qc) ppm) in *.
  set (order := np_argsort diff) in *.
  unfold Img.mask_index in Hp, Hm. rewrite length_seq in Hp.
  destruct (Nat.eqb (length mask) (length fpm)) eqn:El; [|discriminate].
  apply Nat.eqb_eq in El. inversion Hp; subst possible_idx; clear Hp.
  inversion Hm; subst ppm; clear Hm.
  set (pos := Vec.select mask (seq 0 (length fpm))) in *.
  assert (Hlen : length pos = Img.count_true mask)
    by (unfold pos; rewrite select_length; [reflexivity | now rewrite length_seq]).
  assert (Hppm : Vec.select mask fpm = map (fun i => nth i fpm 0%Qc) pos).
  { unfold pos. rewrite (select_positions 0%Qc mask fpm 0).
    apply map_ext. intro i. now rewrite Nat.sub_0_r. }
  assert (Hdl : length diff = length pos)
    by (unfold diff; rewrite Hppm, !length_map; reflexivity).
  pose proof (np_argsort_perm diff) as Hperm. fold order in Hperm.
  pose proof (np_argsort_sorted diff) as Hsort. fold order in Hsort.
  assert (Hnd : NoDup order)
    by (eapply Permutation_NoDup; [symmetry; exact Hperm | apply seq_NoDup]).
  assert (Hrange : forall a, In a order -> (a < length pos)%nat).
  { intros a Ha. eapply Permutation_in in Ha; [|exact Hperm].
    apply in_seq in Ha. lia. }
  assert (Hdist : forall a, (a < length pos)%nat ->
            nth a diff 0%Qc = distance (nth a pos O)).
  { intros a Ha. unfold diff. rewrite Hppm, map_map.
    now rewrite (nth_map_in_range _ _ O Ha). }
  destruct (gather_spec O _ _ Hg) as [-> Hin].
  assert (Hposnd : NoDup pos) by (apply select_NoDup, seq_NoDup).
  repeat split.
  - rewrite length_map, length_firstn.
    apply Permutation_length in Hperm. rewrite length_seq in Hperm. lia.
  - apply NoDup_map_nth; auto.
    rewrite <- (firstn_skipn n order) in Hnd. now apply NoDup_app_remove_r in Hnd.
  - intros i Hi. apply in_map_iff in Hi. destruct Hi as (a & <- & Ha).
    apply nth_In, Hrange. eapply in_firstn; eauto.
  - assert (Hs : StronglySorted (fun i j => nth i diff 0 <= nth j diff 0)%Qc
                   (firstn n order)) by now apply sorted_firstn.
    assert (Hr : Forall (fun a => (a < length pos)%nat) (firstn n order))
      by (apply Forall_forall; intros a Ha; apply Hrange; eapply in_firstn; eauto).
    clear - Hs Hr Hdist. induction Hs as [|a l Hs IH Hf]; simpl; constructor.
    + apply IH. now inversion Hr.
    + inversion Hr; subst. rewrite Forall_forall in *. intros j Hj.
      apply in_map_iff in Hj. destruct Hj as (b & <- & Hb).
      rewrite <- !Hdist; auto.
  - intros i j Hi Hj Hnj. apply in_map_iff in Hi. destruct Hi as (a & <- & Ha).
    destruct (In_nth _ _ O Hj) as (b & Hb & <-).
    assert (Hbo : In b order)
      by (eapply Permutation_in; [symmetry; exact Hperm | apply in_seq; lia]).
    rewrite <- (firstn_skipn n order) in Hbo. apply in_app_or in Hbo.
    destruct Hbo as [Hbo | Hbo].
    + exfalso. apply Hnj. apply in_map_iff. eauto.
    + rewrite <- !Hdist; auto; [|apply Hrange; eapply in_firstn; eauto].
      rewrite <- (firstn_skipn n order) in Hsort.
      apply (@sorted_app_inv _ _ (firstn n order) (skipn n order) Hsort); assumption.
Qed.

Open Scope string_scope.

(** C6 (amended).  With [similar_brightness] and at least [n] eligible
    positions, the call selects [n] distinct eligible positions, in order
    of increasing distance of their median from the target's median, and
    no eligible position left out is closer than a selected one.  Which of
    several positions at exactly the same distance comes first is the
    order [np.argsort] gives them. *)
Theorem similar_brightness_selects_closest n seed w w' mask tm :
  is_target_set (self w) = true ->
  is_exclusion_set (self w) = true ->
  excluded_pixels_mask (self w) = Some mask ->
  target_median (self w) = Some tm ->
  (n <= Img.count_true (concat mask))%nat ->
  set_predictor_pixels n "similar_brightness" seed w = Returned tt w' ->
  let side := Img.image_rows (im_fluxes (self w)) in
  let eligible := Vec.select (concat mask) (seq 0 (side * side)) in
  let distance idx := Qc_abs (nth idx (flattened_pixel_medians (self w)) 0 - tm)%Qc in
  exists chosen,
    predictor_pixels_locations (self w')
      = Some (map (fun idx => (idx / side, idx mod side)%nat) chosen) /\
    length chosen = n /\
    NoDup chosen /\
    incl chosen eligible /\
    StronglySorted (fun i j => distance i <= distance j)%Qc chosen /\
    (forall i j, In i chosen -> In j eligible -> ~ In j chosen ->
                 (distance i <= distance j)%Qc).
Proof.
  intros Ht He Hm Htm Hn H side eligible distance.
  unfold set_predictor_pixels in H.
  apply bind_returned in H. destruct H as (u & w0 & Hseed & H).
  assert (Hs : self w0 = self w) by (destruct seed; py_inv Hseed; reflexivity).
  clear Hseed.
  apply bind_returned in H. destruct H as (s & w1 & Hg & H). py_prim Hg.
  rewrite !Hs in H. rewrite Ht, He in H. cbn [negb orb] in H.
  change (String.eqb "similar_brightness" "random") with false in H.
  change (String.eqb "similar_brightness" "similar_brightness") with true in H.
  cbv iota in H. py_inv H.
  rewrite Hm in *. rewrite Htm in *.
  repeat match goal with Hx : Some _ = Some _ |- _ => inversion Hx; subst; clear Hx end.
  fold side in E0.
  match goal with
  | Hp : Img.mask_index _ (seq 0 (side * side)) = Some ?p,
    Hq : Img.mask_index _ (flattened_pixel_medians _) = Some ?q,
    Hc : Mat.gather _ ?p = Some ?c |- _ =>
      pose proof (mask_index_length _ _ Hp) as [Hl1 _];
      pose proof (mask_index_length _ _ Hq) as [Hl2 _];
      rewrite length_seq in Hl1;
      assert (Hpos : p = eligible)
        by (unfold Img.mask_index in Hp; destruct (Nat.eqb _ _); inversion Hp; reflexivity);
      replace (side * side)%nat with (length (flattened_pixel_medians (self w))) in Hp
        by congruence;
      destruct (closest_selection _ _ _ _ Hp Hq Hc) as (C1 & C2 & C3 & C4 & C5);
      exists c; subst p
  end.
  simpl. rewrite ?Hs. fold side. repeat split; auto. lia.
Qed.

End Selection.

Lemma similar_brightness_selects_closest_witness :
  let w := Example.targeted in
  let side := Img.image_rows (im_fluxes (self w)) in
  let eligible :=
    Vec.select (concat [[true; true; true]; [true; false; true]; [true; true; true]])
               (seq 0 (side * side)) in
  let distance idx :=
    Qc_abs (nth idx (flattened_pixel_medians (self w)) 0
            - get_or 0 (target_median (self w)))%Qc in
  exists chosen,
    predictor_pixels_locations (self Example.ready)
      = Some (map (fun idx => (idx / side, idx mod side)%nat) chosen) /\
    length chosen = 2%nat /\
    NoDup chosen /\
    incl chosen eligible /\
    StronglySorted (fun i j => distance i <= distance j)%Qc chosen /\
    (forall i j, In i chosen -> In j eligible -> ~ In j chosen ->
                 (distance i <= distance j)%Qc).
Proof.
  apply (@similar_brightness_selects_closest Reference.stable ReferenceFacts.stable_laws
           2 None Example.targeted Example.ready
           [[true; true; true]; [true; false; true]; [true; true; true]]
           (get_or 0%Qc (target_median (self Example.targeted)))).
  - vm_compute. reflexivity.
  - vm_compute. reflexivity.
  - vm_compute. reflexivity.
  - vm_compute. reflexivity.
  - vm_compute. lia.
  - vm_compute. reflexivity.
Defined.

(** C6, as stated, fails on its tie-breaking: [np.argsort] is asked for
    no stable sort.  On the flat image of [Tie.targeted] the 24 eligible
    pixels are all at distance 0 from the target's median.  numpy's
    introsort partitions the 24 indices once, which reverses the indices 1
    to 21, and [set_predictor_pixels(12)] selects [(0, 0)] and then eleven
    pixels from the last row upwards; a stable sort selects the first
    twelve eligible pixels, so that [(0, 1)], the second of them, is left
    out for pixels that come after it. *)
Lemma tie_order_is_not_the_stable_one :
  map (map this) (pixel_medians (self Tie.targeted)) = repeat (repeat 100%Q 5) 5 /\
  option_map this (target_median (self Tie.targeted)) = Some 100%Q /\
  excluded_pixels_mask (self Tie.targeted)
    = Some [[true; true; true; true; true];
            [true; true; true; true; true];
            [true; true; false; true; true];
            [true; true; true; true; true];
            [true; true; true; true; true]] /\
  map this Tie.diff = repeat 0%Q 24 /\
  NumpySort.aquicksort Tie.diff
    = [0; 21; 20; 19; 18; 17; 16; 15; 14; 13; 12; 11;
       10; 9; 8; 7; 6; 5; 4; 3; 2; 1; 22; 23]%nat /\
  np_argsort (Numpy := Reference.stable) Tie.diff = seq 0 24 /\
  (exists w',
     set_predictor_pixels (np := Reference.quicksort) 12 "similar_brightness" None
       Tie.targeted = Returned tt w' /\
     predictor_pixels_locations (self w')
       = Some [(0, 0); (4, 2); (4, 1); (4, 0); (3, 4); (3, 3);
               (3, 2); (3, 1); (3, 0); (2, 4); (2, 3); (2, 1)]%nat) /\
  (exists w',
     set_predictor_pixels (np := Reference.stable) 12 "similar_brightness" None
       Tie.targeted = Returned tt w' /\
     predictor_pixels_locations (self w')
       = Some [(0, 0); (0, 1); (0, 2); (0, 3); (0, 4); (1, 0);
               (1, 1); (1, 2); (1, 3); (1, 4); (2, 0); (2, 1)]%nat).
Proof.
  split; [vm_compute; reflexivity|].
  split; [vm_compute; reflexivity|].
  split; [vm_compute; reflexivity|].
  split; [vm_compute; reflexivity|].
  split; [vm_compute; reflexivity|].
  split; [vm_compute; reflexivity|].
  split; eexists; (split; [vm_compute; reflexivity|]); vm_compute; reflexivity.
Qed.

(** C5: what the code does where the claim fails.  Eight positions are
    eligible; [set_predictor_pixels(9)] with [similar_brightness] (and
    with [cosine_similarity]) returns, having selected the eight and
    recorded [num_predictor_pixels = 9], and the fit that follows raises;
    with [random] the same call raises. *)
Theorem too_few_eligible_pixels_goes_unnoticed :
  option_map (fun mask => Img.count_true (concat mask))
             (excluded_pixels_mask (self Example.targeted)) = Some 8%nat /\
  (exists w',
     set_predictor_pixels (np := Reference.stable) 9 "similar_brightness" None
       Example.targeted = Returned tt w' /\
     option_map (@length _) (predictor_pixels_locations (self w')) = Some 8%nat /\
     num_predictor_pixels (self w') = Some 9%nat /\
     are_predictors_set (self w') = true /\
     exists w'',
       lsq (Some (Example.q 1)) (Some true) (Some false) None None w' = Raised w'') /\
  (exists w',
     set_predictor_pixels (np := Reference.stable) 9 "cosine_similarity" None
       Example.targeted = Returned tt w' /\
     option_map (@length _) (predictor_pixels_locations (self w')) = Some 8%nat) /\
  (exists w',
     set_predictor_pixels (np := Reference.stable) 9 "random" None
       Example.targeted = Raised w').
Proof.
  split; [vm_compute; reflexivity|].
  split; [|split].
  - eexists. split; [vm_compute; reflexivity|].
    split; [vm_compute; reflexivity|].
    split; [vm_compute; reflexivity|].
    split; [vm_compute; reflexivity|].
    eexists. vm_compute. reflexivity.
  - eexists. split; vm_compute; reflexivity.
  - eexists. vm_compute. reflexivity.
Qed.

(* ================================================================== *)
(** * Part III: the rest of the code *)

(* ================================================================== *)
(** ** More about loading *)

Section MoreLoading.

Open Scope py_scope.

Lemma select_all_false (A : Type) mask (a : list A) :
  Img.count_true mask = 0%nat -> Vec.select mask a = [].
Proof.
  unfold Img.count_true. revert a. induction mask as [|b mask IH]; intros [|x a] H;
    simpl in *; auto.
  destruct b; simpl in H; [discriminate | auto].
Qed.

Lemma count_true_all_flagged QUALITY :
  Forall (fun x => x <> 0%Z) QUALITY -> Img.count_true (map (Z.eqb 0) QUALITY) = 0%nat.
Proof.
  unfold Img.count_true. induction 1 as [|x l Hx _ IH]; cbn -[Z.eqb]; [reflexivity|].
  destruct (Z.eqb 0 x) eqn:E; [apply Z.eqb_eq in E; congruence | exact IH].
Qed.

(** What a constructor that returns has stored. *)
Lemma init_returned TIME FLUX FLUX_ERR QUALITY remove_bad w w' :
  init TIME FLUX FLUX_ERR QUALITY remove_bad w = Returned tt w' ->
  let s := self w' in
  exists first,
    (if remove_bad
     then Img.mask_index (map (Z.eqb 0) QUALITY) FLUX = Some (im_fluxes s) /\
          Img.mask_index (map (Z.eqb 0) QUALITY) TIME = Some (time s)
     else im_fluxes s = FLUX /\ time s = TIME) /\
    nth_error (im_fluxes s) 0 = Some first /\
    im_sidelength s = length first /\
    (Img.image_rows (im_fluxes s) * Img.image_cols (im_fluxes s)
     = length first * length first)%nat /\
    pixel_medians s = Img.medians (im_fluxes s) /\
    flattened_pixel_medians s = concat (pixel_medians s) /\
    rescaled_im_fluxes s = map (Img.rescale_image (pixel_medians s)) (im_fluxes s) /\
    s = clear_attributes s /\
    flattened_rescaled_im_fluxes s
      = (if Nat.eqb (length first) 0 then repeat [] (length (time s))
         else map (@concat Qc) (rescaled_im_fluxes s)).
Proof.
  unfold init. intro H. py_inv H; simpl in *.
  all: match goal with Hx : Nat.eqb (_ * _) (_ * _) = true |- _ => apply Nat.eqb_eq in Hx end.
  all: eexists; repeat split; eauto.
Qed.

(** X1.  When every sample is flagged, loading with bad-sample removal
    leaves no image, and the constructor raises (at [im_fluxes[0]]). *)
Theorem init_raises_when_all_flagged TIME FLUX FLUX_ERR QUALITY w :
  Forall (fun x => x <> 0%Z) QUALITY ->
  exists w', init TIME FLUX FLUX_ERR QUALITY true w = Raised w'.
Proof.
  intro Hq.
  destruct (init TIME FLUX FLUX_ERR QUALITY true w) as [[] w'|w'] eqn:H; [exfalso | eauto].
  apply init_returned in H. destruct H as (first & [Hf _] & Hn & _).
  unfold Img.mask_index in Hf. destruct (Nat.eqb _ _); [|discriminate].
  rewrite select_all_false in Hf by now apply count_true_all_flagged.
  injection Hf as Hf. rewrite <- Hf in Hn. discriminate Hn.
Qed.



(** Flattening a table of rows of one length: entry [i] is entry
    [i mod c] of row [i / c]. *)
Lemma nth_concat (A : Type) (d : A) c (l : list (list A)) : forall i,
  Forall (fun r => length r = c) l -> (i < length l * c)%nat ->
  nth i (concat l) d = nth (i mod c) (nth (i / c) l []) d.
Proof.
  induction l as [|r l IH]; intros i Hl Hi; simpl in Hi; [lia|].
  inversion Hl as [|? ? Hr Hl']; subst. simpl concat.
  destruct (Nat.lt_ge_cases i (length r)) as [Hlt | Hge].
  - rewrite app_nth1 by assumption.
    rewrite Nat.div_small, Nat.mod_small by assumption. reflexivity.
  - rewrite app_nth2 by assumption.
    assert (Hc : (length r <> 0)%nat) by lia.
    replace i with ((i - length r) + 1 * length r)%nat at 2 3 by lia.
    rewrite Nat.div_add, Nat.Div0.mod_add by assumption.
    rewrite IH by (auto; lia).
    replace ((i - length r) / length r + 1)%nat with (S ((i - length r) / length r)) by lia.
    reflexivity.
Qed.

Lemma length_concat_uniform (A : Type) c (l : list (list A)) :
  Forall (fun r => length r = c) l -> length (concat l) = (length l * c)%nat.
Proof. induction 1 as [|r l Hr _ IH]; simpl; [reflexivity|]. rewrite length_app. lia. Qed.

Lemma medians_rows c : length (Img.medians c) = Img.image_rows c.
Proof. unfold Img.medians. now rewrite length_map, length_seq. Qed.

Lemma medians_uniform c :
  Forall (fun r => length r = Img.image_cols c) (Img.medians c).
Proof.
  unfold Img.medians. apply Forall_forall. intros r Hr.
  apply in_map_iff in Hr. destruct Hr as (i & <- & _). now rewrite length_map, length_seq.
Qed.


(** An image is square when [reshape(side**2)] accepts it. *)
Lemma square_of_product r c : (r * c = r * r)%nat -> (r = 0 -> c = 0)%nat -> c = r.
Proof. intros H H0. destruct r; [auto | nia]. Qed.

(** A constructor that returns has loaded square images. *)
Lemma init_square TIME FLUX FLUX_ERR QUALITY remove_bad w w' :
  init TIME FLUX FLUX_ERR QUALITY remove_bad w = Returned tt w' ->
  let s := self w' in
  let side := im_sidelength s in
  (0 < length (im_fluxes s))%nat /\
  Img.image_rows (im_fluxes s) = side /\
  Img.image_cols (im_fluxes s) = side /\
  length (pixel_medians s) = side /\
  Forall (fun r => length r = side) (pixel_medians s) /\
  length (flattened_pixel_medians s) = (side * side)%nat.
Proof.
  intros H s side. apply init_returned in H.
  destruct H as (first & _ & Hf & Hside & Hsq & Hmed & Hflat & _).
  fold s in Hf, Hside, Hsq, Hmed, Hflat. unfold side. clear side.
  destruct (im_fluxes s) as [|x cube] eqn:Ec; [discriminate|].
  simpl in Hf. injection Hf as ->.
  assert (Hr : Img.image_rows (first :: cube) = length first) by reflexivity.
  assert (Hc : Img.image_cols (first :: cube) = length first).
  { rewrite Hr in Hsq. apply square_of_product in Hsq; [assumption|].
    unfold Img.image_cols. simpl. destruct first; [reflexivity | discriminate]. }
  rewrite Hside.
  split; [simpl; lia|]. split; [assumption|]. split; [assumption|].
  rewrite Hflat, Hmed.
  split; [now rewrite medians_rows|].
  split; [pose proof (medians_uniform (first :: cube)) as Hu; rewrite Hc in Hu; exact Hu|].
  rewrite (length_concat_uniform (medians_uniform _)), medians_rows. congruence.
Qed.

(** X2.  The constructor returns only for a stack of square images that
    is not empty: the reshape to [side**2] entries raises on any other.
    [im_sidelength] is then the side, the medians form a [side] by [side]
    image, and the flattened medians have [side * side] entries. *)
Theorem init_accepts_square_images_only TIME FLUX FLUX_ERR QUALITY remove_bad w w' :
  init TIME FLUX FLUX_ERR QUALITY remove_bad w = Returned tt w' ->
  let s := self w' in
  let side := im_sidelength s in
  (0 < length (im_fluxes s))%nat /\
  Img.image_rows (im_fluxes s) = side /\
  Img.image_cols (im_fluxes s) = side /\
  length (pixel_medians s) = side /\
  Forall (fun r => length r = side) (pixel_medians s) /\
  length (flattened_pixel_medians s) = (side * side)%nat.
Proof. apply init_square. Qed.


(** numpy's median of a light curve that was divided by a positive number
    and shifted. *)
Section Median.

Open Scope Qc_scope.



Variable f : Qc -> Qc.
Hypothesis f_order : forall x y, Qc_leb (f x) (f y) = Qc_leb x y.



End Median.





Lemma select_Forall (A : Type) (P : A -> Prop) mask (l : list A) :
  Forall P l -> Forall P (Vec.select mask l).
Proof.
  intro H. apply Forall_forall. intros x Hx. apply select_In in Hx.
  rewrite Forall_forall in H. auto.
Qed.

Lemma has_shape_selected t r c mask a kept :
  Cube.has_shape t r c a -> Img.mask_index mask a = Some kept ->
  Cube.has_shape (length kept) r c kept.
Proof.
  intros [_ H] Hk. unfold Img.mask_index in Hk. destruct (Nat.eqb _ _); [|discriminate].
  injection Hk as <-. split; [reflexivity | now apply select_Forall].
Qed.




Lemma rescale_shape (med img : image) r c :
  length img = r -> Forall (fun x => length x = c) img ->
  length med = r -> Forall (fun x => length x = c) med ->
  length (Img.rescale_image med img) = r /\
  Forall (fun x => length x = c) (Img.rescale_image med img).
Proof.
  intros Hi Hic Hm Hmc. unfold Img.rescale_image. split.
  - rewrite MatFacts.zip_rows_length. lia.
  - subst r. revert med Hm Hmc. induction Hic as [|x img Hx _ IH]; intros [|y med] Hm Hmc;
      simpl in *; try constructor; try discriminate.
    + rewrite VecFacts.zip_with_length. inversion Hmc; subst. lia.
    + apply IH; [lia | now inversion Hmc].
Qed.

(** The shape of the images of a stack that is not empty. *)
Lemma has_shape_first t r c a first :
  Cube.has_shape t r c a -> nth_error a 0 = Some first -> (0 < r)%nat ->
  Img.image_rows a = r /\ Img.image_cols a = c.
Proof.
  intros [_ H] Hf Hr. destruct a as [|x a]; [discriminate|]. injection Hf as ->.
  inversion H as [|? ? [H1 H2] _]; subst.
  unfold Img.image_rows, Img.image_cols. simpl. split; [reflexivity|].
  destruct first as [|y first]; [simpl in Hr; lia|]. simpl. now inversion H2.
Qed.




(** X4.  The flattened arrays are row-major: entry [idx] of the
    flattened medians is the median of the pixel in row [idx // side] and
    column [idx % side], the location that [set_predictor_pixels] stores
    for [idx], and entry [idx] of a flattened rescaled image is that
    pixel of the image. *)
Theorem flat_index_is_row_major TIME FLUX FLUX_ERR QUALITY remove_bad w w' idx :
  init TIME FLUX FLUX_ERR QUALITY remove_bad w = Returned tt w' ->
  let s := self w' in
  let side := im_sidelength s in
  (idx < side * side)%nat ->
  (idx / side < side)%nat /\ (idx mod side < side)%nat /\
  nth idx (flattened_pixel_medians s) 0%Qc
    = Img.pixel (pixel_medians s) (idx / side) (idx mod side) /\
  (forall t r c k,
     Cube.has_shape t r c FLUX -> (k < length (rescaled_im_fluxes s))%nat ->
     nth idx (nth k (flattened_rescaled_im_fluxes s) []) 0%Qc
       = Img.pixel (nth k (rescaled_im_fluxes s) []) (idx / side) (idx mod side)).
Proof.
  intros H s side Hidx.
  pose proof H as H2. apply init_square in H2. destruct H2 as (_ & Hr & Hc & Hml & Hmu & _).
  apply init_returned in H.
  destruct H as (first & Hkept & Hf & Hside & _ & Hmed & Hflat & Hres & _ & Hfr).
  fold s in Hr, Hc, Hml, Hmu, Hkept, Hf, Hside, Hmed, Hflat, Hres, Hfr. fold side in Hr, Hc, Hml, Hmu.
  assert (Hpos : (0 < side)%nat) by (destruct side; simpl in Hidx; lia).
  assert (Hdiv : (idx / side < side)%nat) by (apply Nat.Div0.div_lt_upper_bound; lia).
  assert (Hmod : (idx mod side < side)%nat) by (apply Nat.mod_upper_bound; lia).
  split; [assumption|]. split; [assumption|]. split.
  - rewrite Hflat. unfold Img.pixel. apply nth_concat; [assumption | now rewrite Hml].
  - intros t r c k Hshape Hk.
    assert (Hs : Cube.has_shape (length (im_fluxes s)) r c (im_fluxes s)).
    { destruct remove_bad.
      - destruct Hkept as [Hk' _]. eapply has_shape_selected; eauto.
      - destruct Hkept as [-> _]. destruct Hshape as [_ Hf']. split; auto. }
    assert (Hrr : r = side).
    { destruct Hs as [_ Hs]. destruct (im_fluxes s) as [|x a]; [discriminate|].
      injection Hf as ->. inversion Hs as [|? ? [H1 _] _]; subst.
      unfold Img.image_rows in Hr. simpl in Hr. congruence. }
    destruct (has_shape_first Hs Hf) as [_ Hcc]; [lia|].
    assert (Hcs : c = side) by congruence.
    rewrite Hfr. fold side in Hside. rewrite <- Hside.
    destruct (Nat.eqb_spec side 0) as [E | _]; [lia|].
    rewrite (nth_indep _ [] (concat [])) by now rewrite length_map.
    rewrite map_nth. unfold Img.pixel.
    assert (Hk' : (k < length (im_fluxes s))%nat) by (rewrite Hres, length_map in Hk; exact Hk).
    assert (Hshape_k : length (nth k (rescaled_im_fluxes s) []) = side /\
                       Forall (fun x => length x = side) (nth k (rescaled_im_fluxes s) [])).
    { rewrite Hres. rewrite (nth_indep _ [] (Img.rescale_image (pixel_medians s) []))
        by now rewrite length_map.
      rewrite map_nth. destruct Hs as [_ Hs]. rewrite Forall_forall in Hs.
      destruct (Hs (nth k (im_fluxes s) [])) as [H1 H2]; [now apply nth_In|].
      rewrite Hrr in H1. rewrite Hcs in H2. apply rescale_shape; assumption. }
    destruct Hshape_k as [H1 H2].
    apply nth_concat; [assumption | now rewrite H1].
Qed.

End MoreLoading.

Lemma init_raises_when_all_flagged_witness :
  Forall (fun x => x <> 0%Z) [8%Z; 32%Z] /\
  exists w',
    init [Example.q 0; Example.q 1] [[[Example.q 5]]; [[Example.q 6]]]
         [[[Example.q 1]]; [[Example.q 1]]] [8%Z; 32%Z] true Example.start = Raised w'.
Proof.
  assert (H : Forall (fun x => x <> 0%Z) [8%Z; 32%Z])
    by (repeat constructor; discriminate).
  split; [exact H|].
  exact (@init_raises_when_all_flagged [Example.q 0; Example.q 1]
           [[[Example.q 5]]; [[Example.q 6]]] [[[Example.q 1]]; [[Example.q 1]]]
           [8%Z; 32%Z] Example.start H).
Defined.

Lemma init_accepts_square_images_only_witness :
  let s := self Example.loaded in
  let side := im_sidelength s in
  (0 < length (im_fluxes s))%nat /\
  Img.image_rows (im_fluxes s) = side /\
  Img.image_cols (im_fluxes s) = side /\
  length (pixel_medians s) = side /\
  Forall (fun r => length r = side) (pixel_medians s) /\
  length (flattened_pixel_medians s) = (side * side)%nat.
Proof.
  apply (@init_accepts_square_images_only Example.TIME Example.FLUX Example.FLUX_ERR
           Example.QUALITY true Example.start Example.loaded).
  vm_compute. reflexivity.
Defined.


Lemma flat_index_is_row_major_witness :
  let s := self Example.loaded in
  let side := im_sidelength s in
  (5 < side * side)%nat /\
  (5 / side < side)%nat /\ (5 mod side < side)%nat /\
  nth 5 (flattened_pixel_medians s) 0%Qc
    = Img.pixel (pixel_medians s) (5 / side) (5 mod side) /\
  nth 5 (nth 2 (flattened_rescaled_im_fluxes s) []) 0%Qc
    = Img.pixel (nth 2 (rescaled_im_fluxes s) []) (5 / side) (5 mod side).
Proof.
  intros s side.
  assert (Hidx : (5 < side * side)%nat) by (vm_compute; lia).
  split; [exact Hidx|].
  destruct (@flat_index_is_row_major Example.TIME Example.FLUX Example.FLUX_ERR
              Example.QUALITY true Example.start Example.loaded 5)
    as (H1 & H2 & H3 & H4).
  - vm_compute. reflexivity.
  - exact Hidx.
  - split; [exact H1|]. split; [exact H2|]. split; [exact H3|].
    apply (H4 5%nat 3%nat 3%nat 2%nat).
    + split; [reflexivity | repeat constructor].
    + vm_compute. lia.
Defined.

(* ================================================================== *)
(** ** The trend basis and the target *)

Section MoreSetup.

Open Scope py_scope.

Lemma set_target_returned r c w w' :
  set_target r c w = Returned tt w' ->
  exists tf te rtf first,
    Img.pixel_series (im_fluxes (self w)) r c = Some tf /\
    Img.pixel_series (im_errors (self w)) r c = Some te /\
    Img.pixel_series (rescaled_im_fluxes (self w)) r c = Some rtf /\
    nth_error (im_fluxes (self w)) 0 = Some first /\
    stdout w' = stdout w /\ rng w' = rng w /\
    self w' =
      Assign.is_target_set true
        (Assign.target_pixel_mask
           (Some (Img.tabulate (length first) (length (hd [] first))
                    (fun row col => negb (Nat.eqb row r && Nat.eqb col c))))
           (Assign.rescaled_target_errors
              (Some (map (fun e => e / Stats.median tf)%Qc te))
              (Assign.rescaled_target_fluxes (Some rtf)
                 (Assign.target_median (Some (Stats.median tf))
                    (Assign.target_errors (Some te)
                       (Assign.target_fluxes (Some tf)
                          (Assign.target_col (Some c)
                             (Assign.target_row (Some r) (self w))))))))).
Proof.
  unfold set_target. intro H. py_inv H. simpl in *. do 4 eexists. repeat split; eauto.
Qed.


Lemma pixel_series_in_range a row col v :
  Img.pixel_series a row col = Some v ->
  (row < Img.image_rows a)%nat /\ (col < Img.image_cols a)%nat /\
  v = map (fun img => Img.pixel img row col) a.
Proof.
  unfold Img.pixel_series.
  destruct (Nat.ltb_spec row (Img.image_rows a)), (Nat.ltb_spec col (Img.image_cols a));
    simpl; intro Hx; inversion Hx; auto.
Qed.



(** [set_target] with an index that is out of range. *)
Lemma set_target_out_of_range r c w :
  (Img.image_rows (im_fluxes (self w)) <= r
   \/ Img.image_cols (im_fluxes (self w)) <= c)%nat ->
  set_target r c w
    = Raised {| self := Assign.target_col (Some c) (Assign.target_row (Some r) (self w));
                stdout := stdout w; rng := rng w |}.
Proof.
  intro H. unfold set_target, bind, get, assign. simpl.
  unfold Img.pixel_series.
  destruct (Nat.ltb_spec r (Img.image_rows (im_fluxes (self w)))),
           (Nat.ltb_spec c (Img.image_cols (im_fluxes (self w)))); try lia; reflexivity.
Qed.

(** X6.  [set_target] with a row or a column outside the image raises
    (at the first indexing), after it has overwritten [target_row] and
    [target_col]: the light curves and [is_target_set] stay those of the
    target set before. *)
Theorem set_target_outside_image_raises r c w :
  (Img.image_rows (im_fluxes (self w)) <= r
   \/ Img.image_cols (im_fluxes (self w)) <= c)%nat ->
  set_target r c w
    = Raised {| self := Assign.target_col (Some c) (Assign.target_row (Some r) (self w));
                stdout := stdout w; rng := rng w |}.
Proof. apply set_target_out_of_range. Qed.

Section Extremes.

Open Scope Qc_scope.




End Extremes.



End MoreSetup.


Lemma set_target_outside_image_raises_witness :
  (Img.image_rows (im_fluxes (self Example.loaded)) <= 3
   \/ Img.image_cols (im_fluxes (self Example.loaded)) <= 0)%nat /\
  set_target 3 0 Example.loaded
    = Raised {| self := Assign.target_col (Some 0%nat)
                          (Assign.target_row (Some 3%nat) (self Example.loaded));
                stdout := stdout Example.loaded; rng := rng Example.loaded |}.
Proof.
  assert (H : (Img.image_rows (im_fluxes (self Example.loaded)) <= 3
               \/ Img.image_cols (im_fluxes (self Example.loaded)) <= 0)%nat)
    by (left; vm_compute; lia).
  split; [exact H|].
  exact (@set_target_outside_image_raises 3 0 Example.loaded H).
Defined.


(* ================================================================== *)
(** ** More about the exclusion region *)

Section MoreExclusion.

Open Scope py_scope.
Open Scope string_scope.

Lemma in_band_within x exc side i :
  (i < side)%nat -> in_band x exc side i = within exc x i.
Proof.
  intro H. unfold in_band, within. f_equal.
  destruct (Nat.ltb_spec i (Nat.min (x + exc + 1) side)), (Nat.leb_spec i (x + exc));
    try reflexivity; lia.
Qed.

Lemma tabulate_shape nr nc p :
  length (Img.tabulate nr nc p) = nr /\
  Forall (fun row => length row = nc) (Img.tabulate nr nc p).
Proof.
  unfold Img.tabulate. split; [now rewrite length_map, length_seq|].
  apply Forall_forall. intros row H. apply in_map_iff in H. destruct H as (i & <- & _).
  now rewrite length_map, length_seq.
Qed.

(** What [set_exclusion] stores once the target is set. *)
Lemma set_exclusion_returned exclusion method w w' first :
  is_target_set (self w) = true ->
  nth_error (im_fluxes (self w)) 0 = Some first ->
  set_exclusion exclusion method w = Returned tt w' ->
  exists excluded,
    self w' =
      Assign.is_exclusion_set true
        (Assign.excluded_pixels_mask
           (Some (Img.tabulate (length first) (length (hd [] first))
                    (fun row col => negb (excluded row col))))
           (Assign.exclusion (Some exclusion) (self w))) /\
    stdout w' = stdout w /\ rng w' = rng w /\
    forall row col, (row < length first)%nat -> (col < length first)%nat ->
      (In method ["cross"; "row_exclude"; "col_exclude"; "closest"] ->
       forall r c, target_row (self w) = Some r -> target_col (self w) = Some c ->
         excluded row col = excluded_region method exclusion r c row col) /\
      (~ In method ["cross"; "row_exclude"; "col_exclude"; "closest"] ->
       excluded row col = false).
Proof.
  intros Ht Hf H. unfold set_exclusion in H.
  apply bind_returned in H. destruct H as (s & w1 & Hg & H). py_prim Hg.
  rewrite Ht, Hf in H. cbn [negb] in H. cbv iota in H.
  assert (Hside : Img.image_rows (im_fluxes (self w1)) = length first).
  { unfold Img.image_rows. destruct (im_fluxes (self w1)); [discriminate|].
    simpl in Hf. inversion Hf. reflexivity. }
  rewrite Hside in H. unfold excluded_region.
  destruct (String.eqb_spec method "cross") as [-> | N1];
    [| destruct (String.eqb_spec method "row_exclude") as [-> | N2];
       [| destruct (String.eqb_spec method "col_exclude") as [-> | N3];
          [| destruct (String.eqb_spec method "closest") as [-> | N4]]]];
    py_inv H;
    repeat match goal with Hx : Some _ = Some _ |- _ => inversion Hx; subst; clear Hx end;
    cbn [fst snd].
  - match goal with Hr : target_row _ = Some ?r, Hc : target_col _ = Some ?c |- _ =>
      exists (fun row col => in_band r exclusion (length a) row
                             || in_band c exclusion (length a) col) end.
    repeat split; auto.
    + intros _ r c Er Ec. rewrite !in_band_within by assumption. congruence.
    + intro Hn. exfalso. apply Hn. simpl. tauto.
  - match goal with Hr : target_row _ = Some ?r |- _ =>
      exists (fun row (_ : nat) => in_band r exclusion (length a) row) end.
    repeat split; auto.
    + intros _ r c Er Ec. rewrite !in_band_within by assumption. congruence.
    + intro Hn. exfalso. apply Hn. simpl. tauto.
  - match goal with Hc : target_col _ = Some ?c |- _ =>
      exists (fun (_ : nat) col => in_band c exclusion (length a) col) end.
    repeat split; auto.
    + intros _ r c Er Ec. rewrite !in_band_within by assumption. congruence.
    + intro Hn. exfalso. apply Hn. simpl. tauto.
  - match goal with Hr : target_row _ = Some ?r, Hc : target_col _ = Some ?c |- _ =>
      exists (fun row col => in_band r exclusion (length a) row
                             && in_band c exclusion (length a) col) end.
    repeat split; auto.
    + intros _ r c Er Ec. rewrite !in_band_within by assumption. congruence.
    + intro Hn. exfalso. apply Hn. simpl. tauto.
  - exists (fun _ _ => false). repeat split; auto.
Qed.


Lemma within_self exc x : within exc x x = true.
Proof.
  unfold within. apply andb_true_iff. split; apply Nat.leb_le; lia.
Qed.

(** X8.  With each of the four methods the mask that [set_exclusion]
    stores on a square image leaves out exactly the pixels near the
    target: those at most [exc] rows or columns away ([cross]), rows away
    ([row_exclude]), columns away ([col_exclude]), or both rows and
    columns away ([closest]).  The target pixel is always left out. *)
Theorem exclusion_region_by_distance exc method w w' r c first :
  is_target_set (self w) = true ->
  target_row (self w) = Some r ->
  target_col (self w) = Some c ->
  nth_error (im_fluxes (self w)) 0 = Some first ->
  length (hd [] first) = length first ->
  In method ["cross"; "row_exclude"; "col_exclude"; "closest"] ->
  set_exclusion exc method w = Returned tt w' ->
  let side := length first in
  exists mask,
    excluded_pixels_mask (self w') = Some mask /\
    exclusion (self w') = Some exc /\
    is_exclusion_set (self w') = true /\
    length mask = side /\
    Forall (fun row => length row = side) mask /\
    (forall row col, (row < side)%nat -> (col < side)%nat ->
       nth col (nth row mask []) true = negb (excluded_region method exc r c row col)) /\
    ((r < side)%nat -> (c < side)%nat -> nth c (nth r mask []) true = false).
Proof.
  intros Ht Hr Hc Hf Hsq Hm H side.
  destruct (@set_exclusion_returned exc method w w' first Ht Hf H) as (excluded & Hs & _ & _ & Hreg).
  rewrite Hs. simpl. rewrite Hsq. fold side.
  destruct (tabulate_shape side side (fun row col => negb (excluded row col))) as [L1 L2].
  eexists. split; [reflexivity|]. repeat split; auto.
  - intros row col Hrow Hcol. rewrite tabulate_nth by assumption.
    f_equal. apply (Hreg row col Hrow Hcol); assumption.
  - intros Hrow Hcol. rewrite tabulate_nth by assumption.
    rewrite (proj1 (Hreg r c Hrow Hcol) Hm r c Hr Hc).
    unfold excluded_region. rewrite !within_self.
    destruct Hm as [<- | [<- | [<- | [<- | []]]]]; reflexivity.
Qed.

(** X9.  A method name that is none of the four is not refused:
    [set_exclusion] returns without a message, sets [is_exclusion_set],
    and stores a mask in which every pixel, the target included, is
    eligible. *)
Theorem unknown_exclusion_method_excludes_nothing exc method w first :
  is_target_set (self w) = true ->
  nth_error (im_fluxes (self w)) 0 = Some first ->
  ~ In method ["cross"; "row_exclude"; "col_exclude"; "closest"] ->
  set_exclusion exc method w
    = Returned tt
        {| self := Assign.is_exclusion_set true
                     (Assign.excluded_pixels_mask
                        (Some (Img.tabulate (length first) (length (hd [] first))
                                 (fun _ _ => true)))
                        (Assign.exclusion (Some exc) (self w)));
           stdout := stdout w; rng := rng w |}.
Proof.
  intros Ht Hf Hn. unfold set_exclusion, bind, get. rewrite Ht. cbn [negb].
  cbv iota. unfold assign at 1. cbn [self stdout rng]. rewrite Hf. cbn [eval ret].
  assert (E1 : String.eqb method "cross" = false)
    by (apply String.eqb_neq; intro E; apply Hn; simpl; auto).
  assert (E2 : String.eqb method "row_exclude" = false)
    by (apply String.eqb_neq; intro E; apply Hn; simpl; auto).
  assert (E3 : String.eqb method "col_exclude" = false)
    by (apply String.eqb_neq; intro E; apply Hn; simpl; auto).
  assert (E4 : String.eqb method "closest" = false)
    by (apply String.eqb_neq; intro E; apply Hn; simpl; auto).
  rewrite E1, E2, E3, E4. reflexivity.
Qed.

(** X10.  [set_exclusion] before [set_target] prints its notice and
    returns; the object and the generator are as before. *)
Theorem set_exclusion_needs_a_target exc method w :
  is_target_set (self w) = false ->
  set_exclusion exc method w
    = Returned tt {| self := self w; stdout := stdout w ++ [PleaseSetTarget];
                     rng := rng w |}.
Proof. apply set_exclusion_without_target. Qed.

End MoreExclusion.

Section MorePrerequisites.

Context {np : Numpy}.

(** X11.  [set_predictor_pixels] seeds the generator first.  Before the
    target and the exclusion are both set, a call with no seed, or with a
    seed that [np.random.seed] accepts (0 to 2**32 - 1), prints its notice
    and returns with the object unchanged, the generator reseeded all the
    same; a call with any other seed raises, and nothing is printed or
    changed. *)
Theorem set_predictor_pixels_needs_target_and_exclusion n method seed w :
  is_target_set (self w) && is_exclusion_set (self w) = false ->
  set_predictor_pixels n method seed w
    = if accepted seed
      then Returned tt {| self := self w;
                          stdout := stdout w ++ [PleaseSetTargetAndExclusion];
                          rng := match seed with
                                 | Some sd => np_random_seed sd
                                 | None => rng w
                                 end |}
      else Raised w.
Proof.
  intro H. destruct (accepted seed) eqn:Hs.
  - destruct (set_predictor_pixels_without_setup n method seed w H Hs) as (g & -> & ->).
    reflexivity.
  - destruct seed as [sd|]; [|discriminate Hs]. simpl in Hs.
    unfold set_predictor_pixels, seed_generator, bind. rewrite Hs. reflexivity.
Qed.

End MorePrerequisites.

Lemma exclusion_region_by_distance_witness :
  let w := Sample.aimed in
  let w' := world_of (set_exclusion 1 "row_exclude" w) in
  exists mask,
    excluded_pixels_mask (self w') = Some mask /\
    exclusion (self w') = Some 1%nat /\
    is_exclusion_set (self w') = true /\
    length mask = 3%nat /\
    Forall (fun row => length row = 3%nat) mask /\
    (forall row col, (row < 3)%nat -> (col < 3)%nat ->
       nth col (nth row mask []) true
       = negb (excluded_region "row_exclude" 1 1 1 row col)) /\
    nth 1 (nth 1 mask []) true = false.
Proof.
  intros w w'.
  destruct (@exclusion_region_by_distance 1 "row_exclude" w w' 1 1
              (Example.img 10 20 30  12 8 40  50 60 70))
    as (mask & H1 & H2 & H3 & H4 & H5 & H6 & H7).
  - vm_compute. reflexivity.
  - vm_compute. reflexivity.
  - vm_compute. reflexivity.
  - vm_compute. reflexivity.
  - reflexivity.
  - simpl. auto.
  - vm_compute. reflexivity.
  - exists mask. repeat split; auto. apply H7; simpl; lia.
Defined.

Lemma unknown_exclusion_method_excludes_nothing_witness :
  let first := Example.img 10 20 30  12 8 40  50 60 70 in
  set_exclusion 1 "Closest" Sample.aimed
    = Returned tt
        {| self := Assign.is_exclusion_set true
                     (Assign.excluded_pixels_mask
                        (Some (Img.tabulate (length first) (length (hd [] first))
                                 (fun _ _ => true)))
                        (Assign.exclusion (Some 1%nat) (self Sample.aimed)));
           stdout := stdout Sample.aimed; rng := rng Sample.aimed |}.
Proof.
  intro first.
  apply (@unknown_exclusion_method_excludes_nothing 1 "Closest" Sample.aimed first).
  - vm_compute. reflexivity.
  - vm_compute. reflexivity.
  - simpl. intros [H | [H | [H | [H | []]]]]; discriminate H.
Defined.

Lemma set_exclusion_needs_a_target_witness :
  set_exclusion 1 "closest" Example.loaded
    = Returned tt {| self := self Example.loaded;
                     stdout := stdout Example.loaded ++ [PleaseSetTarget];
                     rng := rng Example.loaded |}.
Proof.
  apply (@set_exclusion_needs_a_target 1 "closest" Example.loaded).
  vm_compute. reflexivity.
Defined.

Lemma set_predictor_pixels_needs_target_and_exclusion_witness :
  set_predictor_pixels (np := Reference.stable) 2 "random" (Some 7%Z) Sample.aimed
    = Returned tt {| self := self Sample.aimed;
                     stdout := stdout Sample.aimed ++ [PleaseSetTargetAndExclusion];
                     rng := np_random_seed (Numpy := Reference.stable) 7 |} /\
  set_predictor_pixels (np := Reference.stable) 2 "random" (Some (-1)%Z) Sample.aimed
    = Raised Sample.aimed /\
  set_predictor_pixels (np := Reference.stable) 2 "random" (Some (2 ^ 32)%Z) Sample.aimed
    = Raised Sample.aimed.
Proof.
  assert (H : is_target_set (self Sample.aimed) && is_exclusion_set (self Sample.aimed)
              = false) by (vm_compute; reflexivity).
  split; [|split].
  - rewrite (@set_predictor_pixels_needs_target_and_exclusion Reference.stable 2 "random"
               (Some 7%Z) Sample.aimed H).
    change (accepted (Some 7%Z)) with true. reflexivity.
  - rewrite (@set_predictor_pixels_needs_target_and_exclusion Reference.stable 2 "random"
               (Some (-1)%Z) Sample.aimed H).
    change (accepted (Some (-1)%Z)) with false. reflexivity.
  - rewrite (@set_predictor_pixels_needs_target_and_exclusion Reference.stable 2 "random"
               (Some (2 ^ 32)%Z) Sample.aimed H).
    change (accepted (Some (2 ^ 32)%Z)) with false. reflexivity.
Defined.

(* ================================================================== *)
(** ** More about the predictor pixels *)

Section MoreSelection.

Context {np : Numpy}.

Open Scope py_scope.
Open Scope string_scope.

(** What [set_predictor_pixels] has done when it returns on an object
    whose target and exclusion are set. *)
Lemma set_predictor_pixels_returned n method seed w w' :
  is_target_set (self w) = true ->
  is_exclusion_set (self w) = true ->
  set_predictor_pixels n method seed w = Returned tt w' ->
  let s := self w in
  let side := Img.image_rows (im_fluxes s) in
  let g0 := match seed with Some sd => np_random_seed sd | None => rng w end in
  exists mask possible_idx chosen first,
    excluded_pixels_mask s = Some mask /\
    Img.mask_index (concat mask) (seq 0 (side * side)) = Some possible_idx /\
    nth_error (im_fluxes s) 0 = Some first /\
    chosen <> [] /\
    stdout w' = stdout w /\
    self w' =
      Assign.are_predictors_set true
        (Assign.predictor_pixels_mask (Some (mask_of first (locations_of side chosen)))
           (Assign.rescaled_predictor_pixels_fluxes
              (Some (light_curves (locations_of side chosen) (rescaled_im_fluxes s)))
              (Assign.predictor_pixels_fluxes
                 (Some (light_curves (locations_of side chosen) (im_fluxes s)))
                 (Assign.predictor_pixels_locations (Some (locations_of side chosen))
                    (Assign.num_predictor_pixels (Some n)
                       (Assign.method_predictor_pixels (Some method) s)))))) /\
    ((method = "random" /\
      (n <= length possible_idx)%nat /\
      Mat.gather (firstn n (fst (np_random_permutation g0 (length possible_idx))))
                 possible_idx = Some chosen /\
      rng w' = snd (np_random_permutation g0 (length possible_idx)))
     \/
     (method = "similar_brightness" /\ rng w' = g0 /\
      exists ppm tm,
        Img.mask_index (concat mask) (flattened_pixel_medians s) = Some ppm /\
        target_median s = Some tm /\
        Mat.gather (firstn n (np_argsort (map (fun x => Qc_abs (x - tm)%Qc) ppm)))
                   possible_idx = Some chosen)
     \/
     (method = "cosine_similarity" /\ rng w' = g0 /\
      exists possible rtf dots,
        Img.select_columns (concat mask) (flattened_rescaled_im_fluxes s) = Some possible /\
        rescaled_target_fluxes s = Some rtf /\
        let possible_T :=
          Mat.transpose {| ncols := length possible_idx; rows := possible |} in
        Mat.dot_mv possible_T rtf = Some dots /\
        Mat.gather
          (firstn n (rev (np_argsort
             (Vec.zip_with (fun d nrm => d / (nrm * Stats.norm rtf))%Qc
                           dots (map Stats.norm (rows possible_T))))))
          possible_idx = Some chosen)).
Proof.
  intros Ht He H s side g0. unfold set_predictor_pixels in H.
  apply bind_returned in H. destruct H as (u & w0 & Hseed & H).
  assert (Hs : self w0 = self w /\ stdout w0 = stdout w /\ rng w0 = g0)
    by (unfold g0; destruct seed; py_inv Hseed; auto).
  destruct Hs as (Hs & Hout & Hrng). clear Hseed.
  apply bind_returned in H. destruct H as (s0 & w1 & Hg & H). py_prim Hg.
  rewrite !Hs in H. rewrite Ht, He in H. cbn [negb orb] in H. cbv iota in H.
  fold s in H. fold side in H.
  assert (Hne : forall (chosen : list nat) f,
            Nat.eqb (length (map f chosen : list (nat * nat))) 0 = false -> chosen <> [])
    by (intros chosen f Hl ->; discriminate Hl).
  destruct (String.eqb_spec method "random") as [-> | N1];
    [| destruct (String.eqb_spec method "similar_brightness") as [-> | N2];
       [| destruct (String.eqb_spec method "cosine_similarity") as [-> | N3]]].
  - unfold random_choice in H. py_inv H.
    match goal with
    | Hx : (let (_, _) := ?p in _) _ = Returned _ _ |- _ =>
        destruct p as [perm g'] eqn:Ep; py_inv Hx
    end.
    rewrite Hrng in Ep.
    match goal with
    | Hm : excluded_pixels_mask _ = Some ?mask,
      Hp : Img.mask_index (concat ?mask) _ = Some ?p,
      Hf : nth_error _ 0 = Some ?first,
      Hl : Nat.eqb (length (map _ ?chosen)) 0 = false,
      Hn : Nat.ltb _ n = false |- _ =>
        exists mask, p, chosen, first; apply Hne in Hl; apply Nat.ltb_ge in Hn
    end.
    cbn [self stdout rng]. rewrite Hs, Ep.
    repeat (split; [assumption || reflexivity|]). left. repeat split; auto.
  - py_inv H.
    match goal with
    | Hm : excluded_pixels_mask _ = Some ?mask,
      Hp : Img.mask_index (concat ?mask) (seq _ _) = Some ?p,
      Hf : nth_error _ 0 = Some ?first,
      Hl : Nat.eqb (length (map _ ?chosen)) 0 = false |- _ =>
        exists mask, p, chosen, first; apply Hne in Hl
    end.
    cbn [self stdout rng]. rewrite Hs.
    repeat (split; [assumption || reflexivity|]). right. left. repeat split; eauto.
  - py_inv H.
    match goal with
    | Hm : excluded_pixels_mask _ = Some ?mask,
      Hp : Img.mask_index (concat ?mask) (seq _ _) = Some ?p,
      Hf : nth_error _ 0 = Some ?first,
      Hl : Nat.eqb (length (map _ ?chosen)) 0 = false |- _ =>
        exists mask, p, chosen, first; apply Hne in Hl
    end.
    cbn [self stdout rng]. rewrite Hs.
    repeat (split; [assumption || reflexivity|]). right. right. repeat split; eauto 10.
  - py_inv H.
Qed.


Lemma gather_incl (A : Type) idx (l xs : list A) :
  Mat.gather idx l = Some xs -> incl xs l.
Proof.
  revert xs. induction idx as [|i idx IH]; intros xs H; simpl in H.
  - injection H as <-. intros x [].
  - destruct (nth_error l i) as [x|] eqn:E; [|discriminate].
    destruct (Mat.gather idx l) as [xs'|]; [|discriminate].
    injection H as <-. intros y [<- | Hy];
      [eapply nth_error_In; eauto | exact (IH xs' eq_refl y Hy)].
Qed.

(** An index selected from [0 .. n-1] by a mask is one at which the mask
    is [True]. *)
Lemma selected_index_is_true mask : forall n start i,
  In i (Vec.select mask (seq start n)) ->
  (start <= i < start + n)%nat /\ nth_error mask (i - start) = Some true.
Proof.
  induction mask as [|b mask IH]; intros [|n] start i H; simpl in H; try contradiction.
  destruct b.
  - destruct H as [<- | H].
    + split; [lia|]. now rewrite Nat.sub_diag.
    + apply IH in H. destruct H as [Hr Hn]. split; [lia|].
      replace (i - start)%nat with (S (i - S start)) by lia. exact Hn.
  - apply IH in H. destruct H as [Hr Hn]. split; [lia|].
    replace (i - start)%nat with (S (i - S start)) by lia. exact Hn.
Qed.

(** The three steps of the set-up, one after the other. *)
Lemma set_target_exclusion_predictors_returned r c exc em n pm seed w w' :
  set_target_exclusion_predictors r c exc em n pm seed w = Returned tt w' ->
  exists w1 w2,
    set_target r c w = Returned tt w1 /\
    set_exclusion exc em w1 = Returned tt w2 /\
    set_predictor_pixels n pm seed w2 = Returned tt w'.
Proof.
  unfold set_target_exclusion_predictors. intro H.
  apply bind_returned in H. destruct H as ([] & w1 & H1 & H).
  apply bind_returned in H. destruct H as ([] & w2 & H2 & H).
  eauto.
Qed.

(** X12.  After [set_target_exclusion_predictors] with one of the four
    exclusion methods on a square image, whatever the predictor method,
    the predictor pixels lie in the image and the target pixel is not one
    of them. *)
Theorem target_is_never_its_own_predictor r c exc em n pm seed w w' :
  Img.image_cols (im_fluxes (self w)) = Img.image_rows (im_fluxes (self w)) ->
  In em ["cross"; "row_exclude"; "col_exclude"; "closest"] ->
  set_target_exclusion_predictors r c exc em n pm seed w = Returned tt w' ->
  let side := Img.image_rows (im_fluxes (self w)) in
  exists locations,
    predictor_pixels_locations (self w') = Some locations /\
    locations <> [] /\
    Forall (fun rc => (fst rc < side)%nat /\ (snd rc < side)%nat) locations /\
    ~ In (r, c) locations /\
    is_target_set (self w') = true /\
    is_exclusion_set (self w') = true /\
    are_predictors_set (self w') = true.
Proof.
  intros Hsq Hem H side.
  apply set_target_exclusion_predictors_returned in H.
  destruct H as (w1 & w2 & H1 & H2 & H3).
  apply set_target_returned in H1.
  destruct H1 as (tf & te & rtf & first & Htf & _ & _ & Hfirst & _ & _ & Hs1).
  apply pixel_series_in_range in Htf. destruct Htf as (Hr & Hc & _).
  rewrite Hsq in Hc. fold side in Hr, Hc.
  assert (Hlen : length first = side /\ length (hd [] first) = side).
  { unfold side. rewrite <- Hsq at 2. unfold Img.image_rows, Img.image_cols.
    destruct (im_fluxes (self w)); [discriminate|]. injection Hfirst as ->. auto. }
  destruct Hlen as [Hl1 Hl2].
  assert (Hf1 : nth_error (im_fluxes (self w1)) 0 = Some first) by (rewrite Hs1; exact Hfirst).
  assert (Ht1 : is_target_set (self w1) = true) by (rewrite Hs1; reflexivity).
  destruct (@set_exclusion_returned exc em w1 w2 first Ht1 Hf1 H2)
    as (excluded & Hs2 & _ & _ & Hreg).
  assert (Hexc : excluded r c = true).
  { rewrite Hl1 in Hreg.
    rewrite (proj1 (Hreg r c Hr Hc) Hem r c) by (rewrite Hs1; reflexivity).
    unfold excluded_region. rewrite !within_self.
    destruct Hem as [<- | [<- | [<- | [<- | []]]]]; reflexivity. }
  assert (Ht2 : is_target_set (self w2) = true) by (rewrite Hs2, Hs1; reflexivity).
  assert (He2 : is_exclusion_set (self w2) = true) by (rewrite Hs2; reflexivity).
  pose proof (@set_predictor_pixels_returned n pm seed w2 w' Ht2 He2 H3) as H.
  cbv zeta in H.
  destruct H as (mask & possible & chosen & first' & Hm & Hp & _ & Hne & _ & Hs3 & Hch).
  assert (Hside2 : Img.image_rows (im_fluxes (self w2)) = side)
    by (rewrite Hs2, Hs1; reflexivity).
  rewrite Hside2 in *.
  assert (Hmask : mask = Img.tabulate side side (fun row col => negb (excluded row col))).
  { rewrite Hs2 in Hm. simpl in Hm. rewrite Hl1, Hl2 in Hm. congruence. }
  assert (Hincl : incl chosen possible).
  { destruct Hch as [(_ & _ & Hg & _) | [(_ & _ & ppm & tm & _ & _ & Hg)
                                       | (_ & _ & p & rt & d & _ & _ & _ & Hg)]];
      eapply gather_incl; eauto. }
  assert (Hel : forall idx, In idx chosen ->
            (idx < side * side)%nat /\ nth idx (concat mask) true = true).
  { intros idx Hin. apply Hincl in Hin. unfold Img.mask_index in Hp.
    destruct (Nat.eqb _ _); [|discriminate]. injection Hp as <-.
    apply selected_index_is_true in Hin. rewrite Nat.sub_0_r in Hin.
    destruct Hin as [Hlt Hn]. split; [lia|]. now apply nth_error_nth. }
  exists (locations_of side chosen). rewrite Hs3. simpl. rewrite Hs2. simpl. rewrite Hs1. simpl.
  split; [reflexivity|].
  split; [unfold locations_of; destruct chosen; [congruence | discriminate]|].
  assert (Hpos : forall idx, In idx chosen -> (0 < side)%nat).
  { intros idx Hin. destruct (Hel idx Hin) as [Hlt _]. destruct side; simpl in Hlt; lia. }
  split.
  { apply Forall_forall. intros rc Hin. apply in_map_iff in Hin.
    destruct Hin as (idx & <- & Hin). destruct (Hel idx Hin) as [Hlt _].
    pose proof (Hpos idx Hin). simpl. split.
    - apply Nat.Div0.div_lt_upper_bound; lia.
    - apply Nat.mod_upper_bound; lia. }
  split; [|auto].
  intro Hin. apply in_map_iff in Hin. destruct Hin as (idx & Hrc & Hin).
  destruct (Hel idx Hin) as [Hlt Htrue]. injection Hrc as Hdiv Hmod.
  destruct (tabulate_shape side side (fun row col => negb (excluded row col))) as [T1 T2].
  rewrite Hmask in Htrue.
  rewrite (@nth_concat bool true side) in Htrue; [| assumption | now rewrite T1].
  rewrite Hdiv, Hmod in Htrue. rewrite tabulate_nth in Htrue by assumption.
  rewrite Hexc in Htrue. discriminate Htrue.
Qed.


(** X13.  A method name that is none of the three is refused, but late:
    with no seed, or with a seed that [np.random.seed] accepts,
    [set_predictor_pixels] raises (the name [chosen_idx] is unbound) after
    it has overwritten [method_predictor_pixels] and [num_predictor_pixels];
    the predictors chosen before stay in place.  With any other seed the
    call raises at the seeding, before either is assigned. *)
Theorem unknown_predictor_method_raises n method seed w :
  is_target_set (self w) = true ->
  is_exclusion_set (self w) = true ->
  ~ In method ["random"; "similar_brightness"; "cosine_similarity"] ->
  exists w',
    set_predictor_pixels n method seed w = Raised w' /\
    self w' = (if accepted seed
               then Assign.num_predictor_pixels (Some n)
                      (Assign.method_predictor_pixels (Some method) (self w))
               else self w) /\
    stdout w' = stdout w /\
    rng w' = (if accepted seed
              then match seed with Some sd => np_random_seed sd | None => rng w end
              else rng w).
Proof.
  intros Ht He Hn.
  assert (E1 : String.eqb method "random" = false)
    by (apply String.eqb_neq; intro E; apply Hn; simpl; auto).
  assert (E2 : String.eqb method "similar_brightness" = false)
    by (apply String.eqb_neq; intro E; apply Hn; simpl; auto).
  assert (E3 : String.eqb method "cosine_similarity" = false)
    by (apply String.eqb_neq; intro E; apply Hn; simpl; auto).
  unfold set_predictor_pixels, seed_generator, bind, get.
  destruct seed as [sd|]; cbn [accepted];
    [destruct (seed_in_range sd);
     [|unfold raise; eexists; repeat split; reflexivity] |];
    cbn [set_rng ret self stdout rng];
    rewrite Ht, He; cbn [negb orb]; cbv iota; unfold assign; cbn [self stdout rng];
    (destruct (excluded_pixels_mask (self w)) as [mask|]; cbn [eval ret raise];
     [destruct (Img.mask_index (concat mask) _); cbn [eval ret raise];
      rewrite ?E1, ?E2, ?E3; unfold raise |]);
    eexists; repeat split; reflexivity.
Qed.

(** X14.  The matrices that [set_predictor_pixels] stores have one row
    per sample and one column per selected location, and the column of a
    location is the light curve of that pixel: raw in
    [predictor_pixels_fluxes], rescaled in
    [rescaled_predictor_pixels_fluxes]. *)
Theorem predictor_matrices_hold_the_light_curves n method seed w w' :
  is_target_set (self w) = true ->
  is_exclusion_set (self w) = true ->
  set_predictor_pixels n method seed w = Returned tt w' ->
  exists locations pf rpf,
    predictor_pixels_locations (self w') = Some locations /\
    predictor_pixels_fluxes (self w') = Some pf /\
    rescaled_predictor_pixels_fluxes (self w') = Some rpf /\
    Mat.nrows pf = length (im_fluxes (self w)) /\
    Mat.nrows rpf = length (rescaled_im_fluxes (self w)) /\
    ncols pf = length locations /\ ncols rpf = length locations /\
    Mat.well_formed pf /\ Mat.well_formed rpf /\
    (forall j row col, nth_error locations j = Some (row, col) ->
       Mat.column j pf = map (fun img => Img.pixel img row col) (im_fluxes (self w)) /\
       Mat.column j rpf
         = map (fun img => Img.pixel img row col) (rescaled_im_fluxes (self w))) /\
    num_predictor_pixels (self w') = Some n /\
    are_predictors_set (self w') = true.
Proof.
  intros Ht He H.
  pose proof (@set_predictor_pixels_returned n method seed w w' Ht He H) as R.
  cbv zeta in R. destruct R as (mask & possible & chosen & first & _ & _ & _ & _ & _ & Hs & _).
  set (locations := locations_of (Img.image_rows (im_fluxes (self w))) chosen) in *.
  assert (Hcol : forall (a : cube) j row col,
            nth_error locations j = Some (row, col) ->
            Mat.column j (light_curves locations a)
            = map (fun img => Img.pixel img row col) a).
  { intros a j row col Hj. unfold Mat.column, light_curves. simpl. rewrite map_map.
    apply map_ext. intro img.
    rewrite (@nth_map_in_range _ (fun rc => Img.pixel img (fst rc) (snd rc)) j locations
               (row, col)) by (apply nth_error_Some; congruence).
    now rewrite (nth_error_nth _ _ _ Hj). }
  assert (Hwf : forall a : cube, Mat.well_formed (light_curves locations a)).
  { intro a. unfold Mat.well_formed, light_curves. simpl. apply Forall_forall.
    intros r Hr. apply in_map_iff in Hr. destruct Hr as (img & <- & _).
    now rewrite length_map. }
  exists locations, (light_curves locations (im_fluxes (self w))),
         (light_curves locations (rescaled_im_fluxes (self w))).
  rewrite Hs. simpl. unfold Mat.nrows. simpl. rewrite !length_map.
  repeat split; auto.
Qed.

Context {laws : NumpyLaws np}.

(** X15.  With the method [random], a call that returns has selected
    exactly [n] different eligible pixels; when fewer than [n] pixels are
    eligible the call raises. *)
Theorem random_selection_is_distinct_and_eligible n seed w mask :
  is_target_set (self w) = true ->
  is_exclusion_set (self w) = true ->
  excluded_pixels_mask (self w) = Some mask ->
  let side := Img.image_rows (im_fluxes (self w)) in
  let eligible := Vec.select (concat mask) (seq 0 (side * side)) in
  (forall w',
     set_predictor_pixels n "random" seed w = Returned tt w' ->
     exists chosen,
       predictor_pixels_locations (self w') = Some (locations_of side chosen) /\
       length chosen = n /\ NoDup chosen /\ incl chosen eligible /\
       (0 < n <= length eligible)%nat) /\
  ((length eligible < n)%nat ->
   exists w', set_predictor_pixels n "random" seed w = Raised w').
Proof.
  intros Ht He Hm side eligible.
  assert (Hret : forall w',
            set_predictor_pixels n "random" seed w = Returned tt w' ->
            exists chosen,
              predictor_pixels_locations (self w') = Some (locations_of side chosen) /\
              length chosen = n /\ NoDup chosen /\ incl chosen eligible /\
              (0 < n <= length eligible)%nat).
  { intros w' H.
    pose proof (@set_predictor_pixels_returned n "random" seed w w' Ht He H) as R.
    cbv zeta in R.
    destruct R as (mask' & possible & chosen & first & Hm' & Hp & _ & Hne & _ & Hs & Hch).
    rewrite Hm in Hm'. injection Hm' as <-. fold side in Hp, Hs.
    assert (Hpos : possible = eligible)
      by (unfold Img.mask_index in Hp; destruct (Nat.eqb _ _); [|discriminate];
          injection Hp as <-; reflexivity).
    subst possible.
    destruct Hch as [(_ & Hle & Hg & _) | [(E & _) | (E & _)]]; try discriminate E.
    set (perm := fst (np_random_permutation
                        (match seed with Some sd => np_random_seed sd | None => rng w end)
                        (length eligible))) in *.
    pose proof (np_random_permutation_perm
                  (match seed with Some sd => np_random_seed sd | None => rng w end)
                  (length eligible)) as Hperm.
    fold perm in Hperm.
    assert (Hnd : NoDup perm)
      by (eapply Permutation_NoDup; [symmetry; exact Hperm | apply seq_NoDup]).
    assert (Hlen : length perm = length eligible)
      by (apply Permutation_length in Hperm; now rewrite length_seq in Hperm).
    destruct (gather_spec O _ _ Hg) as [Hc Hin]. pose proof (gather_incl _ _ Hg) as Hincl.
    assert (Hcl : length chosen = n)
      by (rewrite Hc, length_map, length_firstn; lia).
    exists chosen. rewrite Hs. simpl.
    split; [reflexivity|]. split; [assumption|]. split.
    - rewrite Hc. apply NoDup_map_nth; auto.
      + apply select_NoDup, seq_NoDup.
      + rewrite <- (firstn_skipn n perm) in Hnd. now apply NoDup_app_remove_r in Hnd.
    - split; [assumption|]. split; [|assumption].
      destruct chosen; [congruence | simpl in Hcl; lia]. }
  split; [exact Hret|].
  intro Hfew.
  destruct (set_predictor_pixels n "random" seed w) as [[] w'|w'] eqn:H; [exfalso | eauto].
  destruct (Hret w' eq_refl) as (chosen & _ & _ & _ & _ & Hn). lia.
Qed.

End MoreSelection.

Lemma target_is_never_its_own_predictor_witness :
  let side := Img.image_rows (im_fluxes (self Example.loaded)) in
  exists locations,
    predictor_pixels_locations (self Sample.prepared) = Some locations /\
    locations <> [] /\
    Forall (fun rc => (fst rc < side)%nat /\ (snd rc < side)%nat) locations /\
    ~ In (1%nat, 1%nat) locations /\
    is_target_set (self Sample.prepared) = true /\
    is_exclusion_set (self Sample.prepared) = true /\
    are_predictors_set (self Sample.prepared) = true.
Proof.
  apply (@target_is_never_its_own_predictor Reference.stable 1 1 0 "closest" 2
           "similar_brightness" None Example.loaded Sample.prepared).
  - vm_compute. reflexivity.
  - simpl. auto.
  - vm_compute. reflexivity.
Defined.

Lemma unknown_predictor_method_raises_witness :
  accepted None = true /\ accepted (Some (-1)%Z) = false /\
  (exists w',
     set_predictor_pixels (np := Reference.stable) 2 "brightness" None Example.targeted
       = Raised w' /\
     self w' = (if accepted None
                then Assign.num_predictor_pixels (Some 2%nat)
                       (Assign.method_predictor_pixels (Some "brightness"%string)
                          (self Example.targeted))
                else self Example.targeted) /\
     stdout w' = stdout Example.targeted /\
     rng w' = (if accepted None then rng Example.targeted else rng Example.targeted)) /\
  (exists w',
     set_predictor_pixels (np := Reference.stable) 2 "brightness" (Some (-1)%Z)
       Example.targeted = Raised w' /\
     self w' = (if accepted (Some (-1)%Z)
                then Assign.num_predictor_pixels (Some 2%nat)
                       (Assign.method_predictor_pixels (Some "brightness"%string)
                          (self Example.targeted))
                else self Example.targeted) /\
     stdout w' = stdout Example.targeted /\
     rng w' = (if accepted (Some (-1)%Z)
               then np_random_seed (Numpy := Reference.stable) (-1)
               else rng Example.targeted)).
Proof.
  assert (Ht : is_target_set (self Example.targeted) = true) by (vm_compute; reflexivity).
  assert (He : is_exclusion_set (self Example.targeted) = true)
    by (vm_compute; reflexivity).
  assert (Hn : ~ In "brightness"%string
                    ["random"; "similar_brightness"; "cosine_similarity"]%string)
    by (simpl; intros [H | [H | [H | []]]]; discriminate H).
  split; [reflexivity|]. split; [reflexivity|]. split.
  - exact (@unknown_predictor_method_raises Reference.stable 2 "brightness" None
             Example.targeted Ht He Hn).
  - exact (@unknown_predictor_method_raises Reference.stable 2 "brightness" (Some (-1)%Z)
             Example.targeted Ht He Hn).
Defined.

Lemma predictor_matrices_hold_the_light_curves_witness :
  let w := Example.targeted in
  let w' := Example.ready in
  exists locations pf rpf,
    predictor_pixels_locations (self w') = Some locations /\
    predictor_pixels_fluxes (self w') = Some pf /\
    rescaled_predictor_pixels_fluxes (self w') = Some rpf /\
    Mat.nrows pf = length (im_fluxes (self w)) /\
    Mat.nrows rpf = length (rescaled_im_fluxes (self w)) /\
    ncols pf = length locations /\ ncols rpf = length locations /\
    Mat.well_formed pf /\ Mat.well_formed rpf /\
    (forall j row col, nth_error locations j = Some (row, col) ->
       Mat.column j pf = map (fun img => Img.pixel img row col) (im_fluxes (self w)) /\
       Mat.column j rpf
         = map (fun img => Img.pixel img row col) (rescaled_im_fluxes (self w))) /\
    num_predictor_pixels (self w') = Some 2%nat /\
    are_predictors_set (self w') = true.
Proof.
  apply (@predictor_matrices_hold_the_light_curves Reference.stable 2
           "similar_brightness" None Example.targeted Example.ready).
  - vm_compute. reflexivity.
  - vm_compute. reflexivity.
  - vm_compute. reflexivity.
Defined.

Lemma random_selection_is_distinct_and_eligible_witness :
  let w := Example.targeted in
  let side := Img.image_rows (im_fluxes (self w)) in
  let eligible := Vec.select (concat Sample.ring) (seq 0 (side * side)) in
  (exists chosen,
     predictor_pixels_locations (self Sample.drawn) = Some (locations_of side chosen) /\
     length chosen = 2%nat /\ NoDup chosen /\ incl chosen eligible /\
     (0 < 2 <= length eligible)%nat) /\
  (length eligible < 9)%nat /\
  exists w',
    set_predictor_pixels (np := Reference.stable) 9 "random" (Some 3%Z) w = Raised w'.
Proof.
  intros w side eligible.
  assert (Ht : is_target_set (self w) = true) by (vm_compute; reflexivity).
  assert (He : is_exclusion_set (self w) = true) by (vm_compute; reflexivity).
  assert (Hm : excluded_pixels_mask (self w) = Some Sample.ring)
    by (vm_compute; reflexivity).
  assert (Hfew : (length eligible < 9)%nat) by (vm_compute; lia).
  split; [|split; [exact Hfew|]].
  - apply (proj1 (@random_selection_is_distinct_and_eligible Reference.stable
                    ReferenceFacts.stable_laws 2 (Some 3%Z) w Sample.ring Ht He Hm)
                 Sample.drawn).
    vm_compute. reflexivity.
  - exact (proj2 (@random_selection_is_distinct_and_eligible Reference.stable
                    ReferenceFacts.stable_laws 9 (Some 3%Z) w Sample.ring Ht He Hm) Hfew).
Defined.

(* ================================================================== *)
(** ** Selection by cosine similarity *)

Section CosineSelection.

Open Scope py_scope.

Lemma sorted_rev (A : Type) (R : A -> A -> Prop) l :
  StronglySorted R l -> StronglySorted (fun x y => R y x) (rev l).
Proof.
  induction 1 as [|a l Hs IH Hf]; simpl; [constructor|].
  assert (G : forall l1, StronglySorted (fun x y => R y x) l1 ->
            Forall (fun x => R a x) l1 -> StronglySorted (fun x y => R y x) (l1 ++ [a])).
  { induction 1 as [|b l1 Hs1 IH1 Hf1]; simpl; intro Hall.
    - repeat constructor.
    - inversion Hall; subst. constructor; [now apply IH1|].
      apply Forall_app. split; [assumption | repeat constructor; assumption]. }
  apply G; [assumption|]. apply Forall_forall. intros x Hx.
  rewrite Forall_forall in Hf. apply Hf. now apply in_rev.
Qed.

(** Reading a list of positions in the order of a ranking of their
    keys, and keeping the first [n]. *)
Lemma ranked_selection (R : Qc -> Qc -> Prop) (key : nat -> Qc) (pos : list nat)
    (keys : vec) (order : list nat) n chosen :
  NoDup pos ->
  length keys = length pos ->
  (forall a, (a < length pos)%nat -> nth a keys 0%Qc = key (nth a pos O)) ->
  Permutation order (seq 0 (length keys)) ->
  StronglySorted (fun i j => R (nth i keys 0%Qc) (nth j keys 0%Qc)) order ->
  Mat.gather (firstn n order) pos = Some chosen ->
  length chosen = Nat.min n (length pos) /\
  NoDup chosen /\
  incl chosen pos /\
  StronglySorted (fun i j => R (key i) (key j)) chosen /\
  (forall i j, In i chosen -> In j pos -> ~ In j chosen -> R (key i) (key j)).
Proof.
  intros Hposnd Hdl Hdist Hperm Hsort Hg.
  assert (Hnd : NoDup order)
    by (eapply Permutation_NoDup; [symmetry; exact Hperm | apply seq_NoDup]).
  assert (Hrange : forall a, In a order -> (a < length pos)%nat).
  { intros a Ha. eapply Permutation_in in Ha; [|exact Hperm].
    apply in_seq in Ha. lia. }
  destruct (gather_spec O _ _ Hg) as [-> Hin].
  repeat split.
  - rewrite length_map, length_firstn.
    apply Permutation_length in Hperm. rewrite length_seq in Hperm. lia.
  - apply NoDup_map_nth; auto.
    rewrite <- (firstn_skipn n order) in Hnd. now apply NoDup_app_remove_r in Hnd.
  - intros i Hi. apply in_map_iff in Hi. destruct Hi as (a & <- & Ha).
    apply nth_In, Hrange. eapply in_firstn; eauto.
  - assert (Hs : StronglySorted (fun i j => R (nth i keys 0%Qc) (nth j keys 0%Qc))
                   (firstn n order)) by now apply sorted_firstn.
    assert (Hr : Forall (fun a => (a < length pos)%nat) (firstn n order))
      by (apply Forall_forall; intros a Ha; apply Hrange; eapply in_firstn; eauto).
    clear - Hs Hr Hdist. induction Hs as [|a l Hs IH Hf]; simpl; constructor.
    + apply IH. now inversion Hr.
    + inversion Hr; subst. rewrite Forall_forall in *. intros j Hj.
      apply in_map_iff in Hj. destruct Hj as (b & <- & Hb).
      rewrite <- !Hdist; auto.
  - intros i j Hi Hj Hnj. apply in_map_iff in Hi. destruct Hi as (a & <- & Ha).
    destruct (In_nth _ _ O Hj) as (b & Hb & <-).
    assert (Hbo : In b order)
      by (eapply Permutation_in; [symmetry; exact Hperm | apply in_seq; lia]).
    rewrite <- (firstn_skipn n order) in Hbo. apply in_app_or in Hbo.
    destruct Hbo as [Hbo | Hbo].
    + exfalso. apply Hnj. apply in_map_iff. eauto.
    + rewrite <- !Hdist; auto; [|apply Hrange; eapply in_firstn; eauto].
      rewrite <- (firstn_skipn n order) in Hsort.
      apply (@sorted_app_inv _ _ (firstn n order) (skipn n order) Hsort); assumption.
Qed.

Lemma select_columns_rows mask : forall (a possible : list vec),
  Img.select_columns mask a = Some possible ->
  possible = map (Vec.select mask) a /\ Forall (fun r => length r = length mask) a.
Proof.
  induction a as [|r a IH]; intros possible H; simpl in H.
  - injection H as <-. split; [reflexivity | constructor].
  - unfold Img.mask_index in H. destruct (Nat.eqb_spec (length mask) (length r)); [|discriminate].
    destruct (Img.select_columns mask a) as [rs|]; [|discriminate].
    injection H as <-. destruct (IH rs eq_refl) as [-> Hall].
    split; [reflexivity | constructor; auto].
Qed.

Lemma zip_with_maps (A : Type) (f : Qc -> Qc -> Qc) (g h : A -> Qc) l :
  Vec.zip_with f (map g l) (map h l) = map (fun x => f (g x) (h x)) l.
Proof. induction l as [|x l IH]; simpl; [reflexivity | now rewrite IH]. Qed.


Context {np : Numpy} {laws : NumpyLaws np}.

Open Scope string_scope.

(** The similarities that [set_predictor_pixels] ranks are those of the
    eligible pixels, in the order of their flat indices. *)
Lemma cosine_keys mask (flattened possible : list vec) (pos : list nat) rtf dots side :
  Img.mask_index mask (seq 0 side) = Some pos ->
  Img.select_columns mask flattened = Some possible ->
  let possible_T := Mat.transpose {| ncols := length pos; rows := possible |} in
  Mat.dot_mv possible_T rtf = Some dots ->
  let keys := Vec.zip_with (fun d nrm => d / (nrm * Stats.norm rtf))%Qc
                           dots (map Stats.norm (rows possible_T)) in
  length keys = length pos /\
  forall a, (a < length pos)%nat -> nth a keys 0%Qc = cosine flattened rtf (nth a pos O).
Proof.
  intros Hp Hc possible_T Hd keys.
  apply select_columns_rows in Hc. destruct Hc as [-> Hlen].
  unfold Img.mask_index in Hp. rewrite length_seq in Hp.
  destruct (Nat.eqb_spec (length mask) side) as [El|]; [|discriminate].
  injection Hp as <-.
  set (pos := Vec.select mask (seq 0 side)) in *.
  apply dot_mv_rows in Hd. subst dots.
  unfold keys. rewrite zip_with_maps. unfold possible_T, Mat.transpose. cbn [rows ncols].
  rewrite map_map, length_map, length_seq. split; [reflexivity|].
  intros a Ha.
  rewrite (@nth_map_in_range nat _ a (seq 0 (length pos)) O) by now rewrite length_seq.
  rewrite seq_nth by assumption. simpl.
  unfold cosine, Mat.column. cbn [rows]. rewrite map_map.
  assert (E : map (fun r => nth a (Vec.select mask r) 0%Qc) flattened
              = map (fun r => nth (nth a pos O) r 0%Qc) flattened).
  { apply map_ext_in. intros r Hr. rewrite Forall_forall in Hlen.
    rewrite (select_positions 0%Qc mask r 0).
    replace (length r) with side by (rewrite (Hlen r Hr); symmetry; exact El). fold pos.
    rewrite (@nth_map_in_range nat (fun i => nth (i - 0) r 0%Qc) a pos O) by assumption.
    now rewrite Nat.sub_0_r. }
  rewrite E. reflexivity.
Qed.

(** X16.  With [cosine_similarity], where no light curve is degenerate
    (numpy would compute a NaN for a light curve of norm zero), a call that
    returns has selected the eligible pixels most similar to the target:
    [n] of them, or all when fewer are eligible, without repetition, in
    order of decreasing cosine similarity, and none left out is more
    similar than a selected one. *)
Theorem cosine_similarity_selects_most_similar n seed w w' mask rtf :
  is_target_set (self w) = true ->
  is_exclusion_set (self w) = true ->
  excluded_pixels_mask (self w) = Some mask ->
  rescaled_target_fluxes (self w) = Some rtf ->
  let side := Img.image_rows (im_fluxes (self w)) in
  let eligible := Vec.select (concat mask) (seq 0 (side * side)) in
  let curve idx := map (fun r => nth idx r 0%Qc) (flattened_rescaled_im_fluxes (self w)) in
  let similarity := cosine (flattened_rescaled_im_fluxes (self w)) rtf in
  Stats.norm rtf <> 0%Qc ->
  (forall idx, In idx eligible -> Stats.norm (curve idx) <> 0%Qc) ->
  set_predictor_pixels n "cosine_similarity" seed w = Returned tt w' ->
  exists chosen,
    predictor_pixels_locations (self w') = Some (locations_of side chosen) /\
    length chosen = Nat.min n (length eligible) /\
    NoDup chosen /\
    incl chosen eligible /\
    StronglySorted (fun i j => similarity j <= similarity i)%Qc chosen /\
    (forall i j, In i chosen -> In j eligible -> ~ In j chosen ->
                 (similarity j <= similarity i)%Qc).
Proof.
  intros Ht He Hm Hrtf side eligible curve similarity _ _ H.
  pose proof (@set_predictor_pixels_returned np n "cosine_similarity" seed w w' Ht He H) as R.
  cbv zeta in R.
  destruct R as (mask' & possible_idx & chosen & first & Hm' & Hp & _ & _ & _ & Hs & Hch).
  rewrite Hm in Hm'. injection Hm' as <-. fold side in Hp, Hs.
  destruct Hch as [(E & _) | [(E & _) | (_ & _ & possible & rtf' & dots & Hc & Hr & Hd & Hg)]];
    try discriminate E.
  rewrite Hrtf in Hr. injection Hr as <-.
  assert (Hpos : possible_idx = eligible)
    by (unfold Img.mask_index in Hp; destruct (Nat.eqb _ _); [|discriminate];
        injection Hp as <-; reflexivity).
  destruct (@cosine_keys (concat mask) (flattened_rescaled_im_fluxes (self w)) possible
              possible_idx rtf dots (side * side) Hp Hc Hd) as [Hkl Hkeys].
  match type of Hg with Mat.gather (firstn n (rev (np_argsort ?k))) _ = _ =>
    set (keys := k) in * end.
  assert (Hperm : Permutation (rev (np_argsort keys)) (seq 0 (length keys))).
  { eapply Permutation_trans; [apply Permutation_sym, Permutation_rev|].
    apply np_argsort_perm. }
  assert (Hsort : StronglySorted (fun i j => nth j keys 0 <= nth i keys 0)%Qc
                    (rev (np_argsort keys))).
  { apply (@sorted_rev nat (fun i j => nth i keys 0 <= nth j keys 0)%Qc).
    apply np_argsort_sorted. }
  assert (Hnd : NoDup possible_idx) by (rewrite Hpos; apply select_NoDup, seq_NoDup).
  destruct (@ranked_selection (fun x y => y <= x)%Qc similarity possible_idx keys
              (rev (np_argsort keys)) n chosen Hnd Hkl Hkeys Hperm Hsort Hg)
    as (C1 & C2 & C3 & C4 & C5).
  exists chosen. rewrite Hs. simpl. rewrite <- Hpos. repeat split; auto.
Qed.

End CosineSelection.

Lemma cosine_similarity_selects_most_similar_witness :
  let w := Example.targeted in
  let rtf := get_or [] (rescaled_target_fluxes (self w)) in
  let side := Img.image_rows (im_fluxes (self w)) in
  let eligible := Vec.select (concat Sample.ring) (seq 0 (side * side)) in
  let similarity :=
    cosine (np := Reference.stable) (flattened_rescaled_im_fluxes (self w)) rtf in
  exists chosen,
    predictor_pixels_locations (self Sample.similar) = Some (locations_of side chosen) /\
    length chosen = Nat.min 2 (length eligible) /\
    NoDup chosen /\
    incl chosen eligible /\
    StronglySorted (fun i j => similarity j <= similarity i)%Qc chosen /\
    (forall i j, In i chosen -> In j eligible -> ~ In j chosen ->
                 (similarity j <= similarity i)%Qc).
Proof.
  intros w rtf.
  apply (@cosine_similarity_selects_most_similar Reference.stable
           ReferenceFacts.stable_laws 2 None w Sample.similar Sample.ring rtf).
  - vm_compute. reflexivity.
  - vm_compute. reflexivity.
  - vm_compute. reflexivity.
  - vm_compute. reflexivity.
  - intro E. apply (f_equal this) in E. vm_compute in E. discriminate E.
  - intros idx Hin. vm_compute in Hin.
    repeat (destruct Hin as [<- | Hin];
            [intro E; apply (f_equal this) in E; vm_compute in E; discriminate E|]).
    contradiction.
  - vm_compute. reflexivity.
Defined.

(* ================================================================== *)
(** ** More about the fits *)

(** One step of a proof that a method keeps an invariant. *)
Ltac keeps_auto :=
  first
    [ apply keeps_bind; [|intro]
    | apply keeps_ret
    | apply keeps_raise
    | apply keeps_eval
    | apply keeps_get
    | apply keeps_assign; intros ? ?; simpl in *; solve [intuition auto]
    | apply keeps_print; intros ? ?; simpl in *; solve [intuition auto]
    | match goal with
      | |- keeps _ (when ?b _) => destruct b; unfold when
      | |- keeps _ (match ?x with _ => _ end) => destruct x
      | |- keeps _ (let (_, _) := ?x in _) => destruct x
      end ].

Section MoreFits.

Context {np : Numpy}.

Open Scope py_scope.

Lemma not_returned_raises (A : Type) (c : Py A) w :
  (forall a w', c w <> Returned a w') -> exists w', c w = Raised w'.
Proof.
  intro H. destruct (c w) as [a w'|w'] eqn:E; [exfalso; eapply H; eauto | eauto].
Qed.

Lemma xval_folds_keeps_orig_m o folds pol n y mat rm : forall prediction res,
  keeps (fun w => orig_m (self w) = o) (xval_folds folds pol n y mat rm prediction res).
Proof.
  induction folds as [|[train test] folds IH]; intros prediction res; simpl.
  - apply keeps_ret.
  - unfold decompose. repeat first [apply IH | keeps_auto].
Qed.

Lemma xval_keeps_orig_m o cpm_reg rescale pol k :
  keeps (fun w => orig_m (self w) = o) (xval cpm_reg rescale pol k).
Proof.
  unfold xval. repeat first [apply xval_folds_keeps_orig_m | keeps_auto].
Qed.

Lemma xval_folds_trains folds pol n y mat rm : forall prediction res w p w',
  xval_folds folds pol n y mat rm prediction res w = Returned p w' ->
  trained (self w) = true \/ folds <> [] ->
  trained (self w') = true.
Proof.
  induction folds as [|[train test] folds IH]; intros prediction res w p w' H Ht; simpl in H.
  - py_inv H. destruct Ht as [Ht | Ht]; [assumption | congruence].
  - unfold decompose in H. py_inv H.
    all: match goal with Hx : xval_folds _ _ _ _ _ _ _ _ _ = _ |- _ =>
           apply IH in Hx; [exact Hx | left; reflexivity] end.
Qed.

Lemma split_bounds k n folds :
  KFold.split k n = Some folds -> (2 <= k <= n)%nat /\ length folds = k.
Proof.
  intro H. pose proof H as H'. apply split_partitions in H'. destruct H' as (Hl & _).
  unfold KFold.split in H. destruct (Nat.ltb k 2 || Nat.ltb n k) eqn:E; [discriminate|].
  apply orb_false_iff in E. destruct E as [E1 E2]. apply Nat.ltb_ge in E1, E2. lia.
Qed.

(** X17.  A cross-validation on an object that [lsq] has not fitted
    leaves it unusable for [lsq]: [xval] sets [trained] but not [orig_m],
    so every later call of [lsq] skips the assignment of [orig_m] and
    raises at the prediction. *)
Theorem lsq_after_xval_raises cpm_reg rescale pol k w p r w' :
  orig_m (self w) = None ->
  xval cpm_reg rescale pol k w = Returned (p, r) w' ->
  trained (self w') = true /\
  orig_m (self w') = None /\
  forall cpm_reg' rescale' pol' uy um,
    exists w'', lsq cpm_reg' rescale' pol' uy um w' = Raised w''.
Proof.
  intros Ho H.
  assert (Ho' : orig_m (self w') = None).
  { pose proof (@xval_keeps_orig_m None cpm_reg rescale pol k w Ho) as K.
    rewrite H in K. exact K. }
  assert (Ht' : trained (self w') = true).
  { unfold xval in H. py_inv H.
    all: match goal with
         | Hs : KFold.split _ _ = Some _, Hx : xval_folds _ _ _ _ _ _ _ _ _ = _ |- _ =>
             apply split_bounds in Hs; destruct Hs as (Hk & Hl);
             apply xval_folds_trains in Hx; [exact Hx | right];
             intro E'; rewrite E' in Hl; simpl in Hl; lia
         end. }
  split; [assumption|]. split; [assumption|].
  intros cpm_reg' rescale' pol' uy um. apply not_returned_raises.
  intros [prediction res] w'' Hl. apply lsq_returned in Hl. destruct Hl.
  rewrite Ht', Ho' in Hom. discriminate Hom.
Qed.


Lemma gather_length (A : Type) idx (l xs : list A) :
  Mat.gather idx l = Some xs -> length xs = length idx.
Proof.
  revert xs. induction idx as [|i idx IH]; intros xs H; simpl in *.
  - now injection H as <-.
  - destruct (nth_error l i); [|discriminate].
    destruct (Mat.gather idx l) as [xs'|]; [|discriminate].
    injection H as <-. simpl. now rewrite (IH xs' eq_refl).
Qed.

Lemma fold_prediction_length y mat rm fold prediction :
  fold_prediction y mat rm fold prediction -> length prediction = length (snd fold).
Proof.
  intros (yv & mv & y_train & m_train & m_test & params & _ & _ & _ & _ & Ht & _ & Hp).
  apply dot_mv_rows in Hp. rewrite Hp, length_map.
  unfold Mat.take_rows in Ht. destruct (Mat.gather (snd fold) (rows mv)) as [rs|] eqn:E;
    [|discriminate].
  injection Ht as <-. simpl. now apply gather_length in E.
Qed.

(** X18.  A cross-validation that returns has predicted every sample
    once: there is one prediction per fold, [k] in all with
    [2 <= k <= T], each as long as its fold, and together they have as many
    entries as there are samples. *)
Theorem xval_predicts_every_sample_once cpm_reg rescale pol k w p r w' :
  xval cpm_reg rescale pol k w = Returned (p, r) w' ->
  let T := length (time (self w)) in
  (2 <= k <= T)%nat /\
  length p = k /\
  length (concat p) = T /\
  Forall (fun v => length v = (T / k)%nat \/ length v = S (T / k)) p.
Proof.
  intros H T. apply xval_returned in H. destruct H as (_ & folds & mat & rm & Hs & Hf).
  fold T in Hs. pose proof (split_bounds _ _ Hs) as [Hk Hl].
  pose proof (split_partitions _ _ Hs) as (_ & Hc & _).
  assert (Hlens : map (@length Qc) p = map (fun f => length (snd f)) folds).
  { clear - Hf. induction Hf as [|f v folds p Hv _ IH]; simpl; [reflexivity|].
    now rewrite IH, (fold_prediction_length Hv). }
  split; [assumption|].
  split; [rewrite <- Hl; symmetry; eapply Forall2_length; eauto|].
  split.
  - rewrite length_concat, Hlens, <- map_map, <- length_concat, Hc. apply length_seq.
  - unfold KFold.split in Hs. destruct (Nat.ltb k 2 || Nat.ltb T k); [discriminate|].
    injection Hs as <-.
    assert (Hsz : forall q rr kk, Forall (fun n => n = q \/ n = S q) (KFold.fold_sizes kk q rr)).
    { intros q rr kk. revert rr. induction kk as [|kk IH]; intro rr; simpl; constructor;
        [destruct (Nat.ltb 0 rr); auto | apply IH]. }
    assert (Htf : forall sizes start q,
              Forall (fun n => n = q \/ n = S q) sizes ->
              Forall (fun t => length t = q \/ length t = S q)
                     (KFold.test_folds start sizes)).
    { induction sizes as [|sz sizes IH]; intros start q Hq; simpl; constructor.
      - rewrite length_seq. now inversion Hq.
      - apply IH. now inversion Hq. }
    specialize (Htf _ 0%nat _ (Hsz (T / k)%nat (T mod k) k)).
    rewrite map_map in Hlens. simpl in Hlens.
    clear - Hlens Htf. revert p Hlens.
    induction Htf as [|t tf Ht _ IH]; intros [|v p] Hlens; simpl in *; try discriminate;
      constructor.
    + injection Hlens as Hv _. rewrite Hv. exact Ht.
    + apply IH. now injection Hlens.
Qed.

(** X19.  Whatever the flags and overrides, the residual that [lsq]
    stores and returns is the rescaled target light curve minus the
    prediction: a fit on the raw fluxes ([rescale=False]) still subtracts
    its prediction from the rescaled light curve. *)
Theorem residual_is_against_the_rescaled_target cpm_reg rescale pol uy um w prediction
    res w' :
  lsq cpm_reg rescale pol uy um w = Returned (prediction, res) w' ->
  exists rtf,
    rescaled_target_fluxes (self w) = Some rtf /\
    Vec.broadcast Qcminus rtf prediction = Some res /\
    lsq_prediction (self w') = Some prediction /\
    residual (self w') = Some res /\
    (length rtf = length prediction -> res = Vec.sub rtf prediction).
Proof.
  intro H. apply lsq_returned in H. destruct H.
  exists rtf. repeat split; auto.
  intro Hl. unfold Vec.broadcast in Hres. rewrite Hl, Nat.eqb_refl in Hres.
  now injection Hres as <-.
Qed.

(** X20.  [lsq] raises when exactly one of [updated_y] and [updated_m]
    is passed: the other is then [None] where an array is needed. *)
Theorem lsq_with_one_override_raises cpm_reg rescale pol uy um w :
  (uy = None /\ um <> None) \/ (uy <> None /\ um = None) ->
  exists w', lsq cpm_reg rescale pol uy um w = Raised w'.
Proof.
  intro Hone. apply not_returned_raises. intros [prediction res] w' H.
  apply lsq_returned in H. destruct H.
  destruct Hone as [[-> Hm] | [Hy0 ->]].
  - destruct um; [|congruence]. discriminate Hy.
  - destruct uy; [|congruence]. unfold Spec.design_matrix in HM. discriminate HM.
Qed.

End MoreFits.

Section UniqueSolution.

Context {np : Numpy}.

(** X21.  A fit that returns has found the only solution of its normal
    equations: every vector that satisfies them is the stored
    [lsq_params] ([np.linalg.solve] raises on a singular matrix). *)
Theorem lsq_coefficients_are_the_only_solution cpm_reg rescale pol uy um w prediction
    res w' M reg y beta :
  lsq (Some cpm_reg) rescale pol uy um w = Returned (prediction, res) w' ->
  Spec.design_matrix (self w) rescale pol uy um = Some M ->
  Spec.regularisation (self w) cpm_reg pol = Some reg ->
  ncols M = length reg ->
  trend_consistent (self w) ->
  Spec.target_vector (self w) rescale uy um = Some y ->
  Spec.normal_equations M reg y beta ->
  lsq_params (self w') = Some beta.
Proof.
  intros H HM Hreg Hcols Ht Hy (MtM & b & Eg & Eb & Hb).
  apply lsq_returned in H. destruct H.
  inversion Hreg0; subst reg0. rewrite HM in HM0. inversion HM0; subst M0.
  rewrite Hy in Hy0. inversion Hy0; subst y0.
  assert (Erm : reg_matrix = Mat.diag reg)
    by (eapply regularisation_matrix with (s := self w); eauto).
  subst reg_matrix.
  unfold solve_normal_equations in Hsolve. rewrite Eg in Hsolve.
  destruct (MatFacts.gram_shape _ Eg) as (Wg & Hgr & Hgc).
  destruct (MatFacts.diag_shape reg) as [Hdr Hdc].
  rewrite MatFacts.broadcast_add in Hsolve
    by (auto using MatFacts.diag_well_formed; congruence).
  rewrite Eb in Hsolve.
  assert (Wa : Mat.well_formed (Mat.add MtM (Mat.diag reg))).
  { apply add_shape; auto using MatFacts.diag_well_formed; congruence. }
  rewrite Hparams'. f_equal. symmetry.
  exact (MatFacts.solve_unique _ Wa Hsolve Hb).
Qed.

End UniqueSolution.

(** Equality of two lists of rationals given by their values. *)
Ltac same_rationals :=
  vm_compute; try apply (f_equal (@Some vec));
  repeat (apply f_equal2; [apply Qc_is_canon; vm_compute; reflexivity|]);
  reflexivity.

Lemma lsq_after_xval_raises_witness :
  trained (self Sample.crossvalidated) = true /\
  orig_m (self Sample.crossvalidated) = None /\
  exists w'',
    lsq (Some (Example.q 1)) (Some true) (Some false) None None Sample.crossvalidated
      = Raised w''.
Proof.
  destruct (@lsq_after_xval_raises (Some (Example.q 1)) (Some true) (Some false) 2
              Example.ready (fst (value_of ([], []) Sample.crossval))
              (snd (value_of ([], []) Sample.crossval)) Sample.crossvalidated)
    as (H1 & H2 & H3).
  - vm_compute. reflexivity.
  - vm_compute. reflexivity.
  - split; [exact H1|]. split; [exact H2|].
    exact (H3 (Some (Example.q 1)) (Some true) (Some false) None None).
Defined.

Lemma xval_predicts_every_sample_once_witness :
  let p := fst (value_of ([], []) Sample.crossval) in
  let T := length (time (self Example.ready)) in
  (2 <= 2 <= T)%nat /\
  length p = 2%nat /\
  length (concat p) = T /\
  Forall (fun v => length v = (T / 2)%nat \/ length v = S (T / 2)) p.
Proof.
  apply (@xval_predicts_every_sample_once (Some (Example.q 1)) (Some true) (Some false) 2
           Example.ready (fst (value_of ([], []) Sample.crossval))
           (snd (value_of ([], []) Sample.crossval)) Sample.crossvalidated).
  vm_compute. reflexivity.
Defined.

Lemma residual_is_against_the_rescaled_target_witness :
  let prediction := fst (value_of ([], []) Sample.raw_fit) in
  let res := snd (value_of ([], []) Sample.raw_fit) in
  exists rtf,
    rescaled_target_fluxes (self Example.ready) = Some rtf /\
    Vec.broadcast Qcminus rtf prediction = Some res /\
    lsq_prediction (self Sample.raw_fitted) = Some prediction /\
    residual (self Sample.raw_fitted) = Some res /\
    res = Vec.sub rtf prediction.
Proof.
  intros prediction res.
  destruct (@residual_is_against_the_rescaled_target (Some (Example.q 1)) (Some false)
              (Some false) None None Example.ready prediction res Sample.raw_fitted)
    as (rtf & H1 & H2 & H3 & H4 & H5).
  - vm_compute. reflexivity.
  - exists rtf. repeat split; auto. apply H5.
    assert (Hl : option_map (@length Qc) (rescaled_target_fluxes (self Example.ready))
                 = Some 4%nat) by (vm_compute; reflexivity).
    rewrite H1 in Hl. simpl in Hl. injection Hl as Hl. rewrite Hl.
    vm_compute. reflexivity.
Defined.

Lemma lsq_with_one_override_raises_witness :
  exists w',
    lsq (Some (Example.q 1)) (Some true) (Some false) (Some [Example.q 1]) None
        Example.ready = Raised w'.
Proof.
  apply (@lsq_with_one_override_raises (Some (Example.q 1)) (Some true) (Some false)
           (Some [Example.q 1]) None Example.ready).
  right. split; [discriminate | reflexivity].
Defined.

Lemma lsq_coefficients_are_the_only_solution_witness :
  lsq_params (self Example.plain_fitted) = Some [Q2Qc (39 # 22); Q2Qc (-3 # 22)].
Proof.
  apply (@lsq_coefficients_are_the_only_solution 0%Qc (Some true) (Some false) None None
           Example.ready (fst (value_of ([], []) Example.plain_fit))
           (snd (value_of ([], []) Example.plain_fit)) Example.plain_fitted
           Example.plain_design (repeat 0%Qc 2)
           (get_or [] (Spec.target_vector (self Example.ready) (Some true) None None))).
  - vm_compute. reflexivity.
  - vm_compute. reflexivity.
  - vm_compute. reflexivity.
  - vm_compute. reflexivity.
  - vm_compute. reflexivity.
  - vm_compute. reflexivity.
  - unfold Spec.normal_equations.
    exists (get_or (Mat.identity 0)
              (Mat.dot_mm (Mat.transpose Example.plain_design) Example.plain_design)),
           (get_or []
              (Mat.dot_mv (Mat.transpose Example.plain_design)
                 (get_or [] (Spec.target_vector (self Example.ready) (Some true) None None)))).
    split; [vm_compute; reflexivity|]. split; [vm_compute; reflexivity|].
    same_rationals.
Defined.

(* ================================================================== *)
(** ** Reasoning about the whole-image methods *)

Lemma run_bind_done (A B : Type) (c : PyS A) (k : A -> PyS B) s b s' :
  Run.bind c k s = Done b s' ->
  exists a s1, c s = Done a s1 /\ k a s1 = Done b s'.
Proof.
  unfold Run.bind. destruct (c s) as [a s1|s1|]; [eauto | discriminate | discriminate].
Qed.

Lemma run_lift_done (A : Type) (c : Py A) s a s' :
  Run.lift c s = Done a s' ->
  exists w', c (world s) = Returned a w' /\
             s' = {| world := w'; images := images s; notices := notices s |}.
Proof.
  unfold Run.lift. destruct (c (world s)) as [a' w'|w']; [|discriminate].
  intro H. injection H as <- <-. eauto.
Qed.

Lemma run_eval_done (A : Type) (o : option A) s a s' :
  Run.eval o s = Done a s' -> o = Some a /\ s' = s.
Proof.
  destruct o; simpl; unfold Run.ret, Run.raise; intro H; inversion H; auto.
Qed.

(** Inversion of a primitive step of a whole-image method that returned. *)
Ltac run_prim H :=
  lazymatch type of H with
  | Run.eval _ _ = Done _ _ =>
      let E := fresh "E" in
      apply run_eval_done in H; destruct H as [E ->]
  | Run.lift get _ = Done _ _ => unfold Run.lift, get in H; inversion H; subst; clear H
  | Run.get_images _ = Done _ _ => unfold Run.get_images in H; inversion H; subst; clear H
  | Run.assign_images _ _ = Done _ _ =>
      unfold Run.assign_images in H; inversion H; subst; clear H
  | Run.notify _ _ = Done _ _ => unfold Run.notify in H; inversion H; subst; clear H
  | Run.ret _ _ = Done _ _ => unfold Run.ret in H; inversion H; subst; clear H
  | Run.raise _ _ = Done _ _ => discriminate H
  | Run.beyond _ _ = Done _ _ => discriminate H
  end.

Ltac run_inv H :=
  first
    [ run_prim H
    | lazymatch type of H with
      | Run.bind _ _ _ = Done _ _ =>
          let a := fresh "a" in let s1 := fresh "s" in let H1 := fresh "H" in
          apply run_bind_done in H; destruct H as (a & s1 & H1 & H);
          run_inv H1; run_inv H
      | Run.when _ _ _ = Done _ _ =>
          unfold Run.when in H; cbv beta iota in H; run_inv H
      | (if ?b then _ else _) _ = Done _ _ =>
          let E := fresh "E" in destruct b eqn:E; run_inv H
      end
    | idtac ].

(** [Some x = Some y] among the hypotheses, with [y] a variable. *)
Ltac some_inj :=
  repeat match goal with
         | Hx : Some ?x = Some ?y |- _ => injection Hx as Hx; first [subst y | subst x]
         end.

(* ================================================================== *)
(** ** The most contributing pixels *)

Section Contributing.

Context {np : Numpy} {laws : NumpyLaws np}.

Open Scope run_scope.

Lemma abs_keys (params : vec) i :
  nth i (map Qc_abs params) 0%Qc = Qc_abs (nth i params 0%Qc).
Proof. change 0%Qc with (Qc_abs 0%Qc) at 1. apply map_nth. Qed.

Lemma sorted_impl (A : Type) (R R' : A -> A -> Prop) l :
  (forall x y, R x y -> R' x y) -> StronglySorted R l -> StronglySorted R' l.
Proof.
  intros HR. induction 1 as [|a l Hs IH Hf]; constructor; [assumption|].
  eapply Forall_impl; [|exact Hf]. intros b. apply HR.
Qed.

Lemma NoDup_firstn (A : Type) n (l : list A) : NoDup l -> NoDup (firstn n l).
Proof.
  intro H. rewrite <- (firstn_skipn n l) in H. now apply NoDup_app_remove_r in H.
Qed.

(** X22.  On a trained object [get_contributing_pixels(number)] returns
    the locations of the predictors with the largest coefficients in
    absolute value: [number] of them, or all when there are fewer, without
    repetition, largest first, and no predictor left out has a larger
    coefficient than one returned.  The mask it returns shows exactly those
    locations, and the object is not changed. *)
Theorem contributing_pixels_have_the_largest_coefficients number s top mask s' params
    locations first :
  trained (self (world s)) = true ->
  cpm_params (self (world s)) = Some params ->
  predictor_pixels_locations (self (world s)) = Some locations ->
  nth_error (im_fluxes (self (world s))) 0 = Some first ->
  get_contributing_pixels number s = Done (top, mask) s' ->
  let size i := Qc_abs (nth i params 0%Qc) in
  s' = s /\
  exists idx,
    top = map (fun i => nth i locations (O, O)) idx /\
    length idx = Nat.min number (length params) /\
    NoDup idx /\
    Forall (fun i => (i < length params)%nat /\ (i < length locations)%nat) idx /\
    StronglySorted (fun i j => size j <= size i)%Qc idx /\
    (forall i j, In i idx -> (j < length params)%nat -> ~ In j idx ->
                 (size j <= size i)%Qc) /\
    (forall row col, (row < length first)%nat -> (col < length (hd [] first))%nat ->
       (nth col (nth row mask []) true = false <-> In (row, col) top)).
Proof.
  intros Ht Hp Hl Hf H size. unfold get_contributing_pixels in H.
  apply run_bind_done in H. destruct H as (s0 & s1 & Hg & H). run_prim Hg.
  rewrite Ht, Hp, Hl, Hf in H. cbn [negb Run.when] in H. run_inv H.
  some_inj.
  split; [destruct s; reflexivity|].
  set (keys := map Qc_abs params) in *.
  set (order := rev (np_argsort keys)) in *.
  assert (Hperm : Permutation order (seq 0 (length params))).
  { unfold order. eapply Permutation_trans; [apply Permutation_sym, Permutation_rev|].
    unfold keys. rewrite <- (length_map Qc_abs params). apply np_argsort_perm. }
  assert (Hsort : StronglySorted (fun i j => size j <= size i)%Qc order).
  { unfold order. apply (@sorted_rev nat (fun i j => size i <= size j)%Qc).
    apply (@sorted_impl nat (fun i j => nth i keys 0 <= nth j keys 0)%Qc).
    - intros i j Hij. unfold size. rewrite <- !abs_keys. exact Hij.
    - apply np_argsort_sorted. }
  assert (Hnd : NoDup order)
    by (eapply Permutation_NoDup; [symmetry; exact Hperm | apply seq_NoDup]).
  match goal with Hg : Mat.gather _ locations = Some top |- _ =>
    destruct (gather_spec (O, O) _ _ Hg) as [Htop Hin] end.
  exists (firstn number order).
  split; [exact Htop|].
  split; [rewrite length_firstn; apply Permutation_length in Hperm;
          rewrite length_seq in Hperm; lia|].
  split; [now apply NoDup_firstn|].
  split.
  { apply Forall_forall. intros i Hi. split.
    - apply in_firstn in Hi. eapply Permutation_in in Hi; [|exact Hperm].
      apply in_seq in Hi. lia.
    - rewrite Forall_forall in Hin. now apply Hin. }
  split; [now apply sorted_firstn|].
  split.
  { intros i j Hi Hj Hnj.
    assert (Hjo : In j order)
      by (eapply Permutation_in; [symmetry; exact Hperm | apply in_seq; lia]).
    rewrite <- (firstn_skipn number order) in Hjo. apply in_app_or in Hjo.
    destruct Hjo as [Hjo | Hjo]; [contradiction|].
    rewrite <- (firstn_skipn number order) in Hsort.
    exact (@sorted_app_inv _ _ (firstn number order) (skipn number order) Hsort i j Hi Hjo). }
  intros row col Hrow Hcol. rewrite tabulate_nth by assumption.
  rewrite negb_false_iff, existsb_exists. split.
  - intros ([r c] & Hin' & Hrc). simpl in Hrc. apply andb_true_iff in Hrc.
    destruct Hrc as [Hr Hc]. apply Nat.eqb_eq in Hr, Hc. now subst.
  - intro Hin'. exists (row, col). split; [assumption|]. simpl. now rewrite !Nat.eqb_refl.
Qed.

(** X23.  On an object that is not trained [get_contributing_pixels]
    prints its notice and goes on, to raise at the coefficients that are
    not there. *)
Theorem contributing_pixels_need_a_fit number s :
  trained (self (world s)) = false ->
  cpm_params (self (world s)) = None ->
  get_contributing_pixels number s
    = Failed {| world := world s; images := images s;
                notices := notices s ++ [YouNeedToTrainFirst] |}.
Proof.
  intros Ht Hp. unfold get_contributing_pixels, Run.bind, Run.lift, get.
  cbn [world]. rewrite Ht. cbn [negb Run.when Run.notify world]. rewrite Hp. reflexivity.
Qed.

End Contributing.

(* ================================================================== *)
(** ** The whole-image methods *)

Section Batch.

Context {np : Numpy} {mem : Memory}.

Open Scope py_scope.

Lemma set_target_keeps_frozen o r c : keeps (frozen o) (set_target r c).
Proof. unfold set_target, frozen. repeat keeps_auto. Qed.

Lemma set_exclusion_keeps_frozen o exc em : keeps (frozen o) (set_exclusion exc em).
Proof. unfold set_exclusion, frozen. repeat keeps_auto. Qed.

Lemma set_predictor_pixels_keeps_frozen o n pm seed :
  keeps (frozen o) (set_predictor_pixels n pm seed).
Proof.
  unfold set_predictor_pixels, seed_generator, random_choice, frozen. repeat keeps_auto.
Qed.


(** What a fit that returns predicts with. *)
Lemma fit_result_matrix s cpm_reg rescale pol uy um prediction res s' :
  fit_result s cpm_reg rescale pol uy um prediction res s' ->
  trained s' = true /\
  exists om,
    orig_m s' = Some om /\
    (if trained s then orig_m s = Some om else m s' = Some om) /\
    predicted_from om s' /\
    lsq_prediction s' = Some prediction /\
    polynomials s' = pol.
Proof.
  intro H. destruct H. split; [assumption|]. exists om.
  split; [assumption|]. split.
  { destruct (trained s); [now symmetry | congruence]. }
  split; [|split; assumption].
  exists beta, n. repeat split; auto; try congruence.
  intro Hp. rewrite Hflag' in Hp. rewrite Hp in Hdec.
  destruct Hdec as (const & cp & pp & Hc & Hcp & Hpp & Hc' & Hcp' & Hpp').
  exists const. rewrite Hcp, Hpp. auto.
Qed.

Open Scope run_scope.

(** What one turn of the loop of [_batch] has done when it returns. *)
Lemma batch_step_done cpm_reg exc em n pm rescale
    (polynomials : bool) row col s s' :
  batch_step cpm_reg exc em n pm rescale (Some polynomials) row col s = Done tt s' ->
  let before := self (world s) in
  let after := self (world s') in
  trained after = true /\
  exists om predicted series written,
    orig_m after = Some om /\
    (if trained before then orig_m before = Some om else m after = Some om) /\
    predicted_from om after /\
    im_predicted_fluxes (images s) = Some predicted /\
    Cube.set_series predicted row col series = Some written /\
    im_predicted_fluxes (images s') = Some written /\
    (if polynomials
     then exists cp c,
            cpm_prediction after = Some cp /\ const_prediction after = Some c /\
            series = map (fun x => x + c)%Qc cp
     else lsq_prediction after = Some series).
Proof.
  intros H before after. unfold batch_step in H.
  apply run_bind_done in H. destruct H as ([] & s1 & H1 & H).
  apply run_lift_done in H1. destruct H1 as (w1 & H1 & ->).
  apply run_bind_done in H. destruct H as ([] & s2 & H2 & H).
  apply run_lift_done in H2. destruct H2 as (w2 & H2 & ->). cbn [world images notices] in *.
  apply run_bind_done in H. destruct H as ([] & s3 & H3 & H).
  apply run_lift_done in H3. destruct H3 as (w3 & H3 & ->). cbn [world images notices] in *.
  apply run_bind_done in H. destruct H as ([prediction res] & s4 & H4 & H).
  apply run_lift_done in H4. destruct H4 as (w4 & H4 & ->). cbn [world images notices] in *.
  assert (Hpre : trained (self w3) = trained before /\
                 (trained before = true -> orig_m (self w3) = orig_m before)).
  { destruct (trained before) eqn:Et.
    - assert (F : frozen (orig_m before) (world s)) by (split; [reflexivity | exact Et]).
      apply (@set_target_keeps_frozen _ row col) in F. rewrite H1 in F. cbn [world_of] in F.
      apply (@set_exclusion_keeps_frozen _ exc em) in F. rewrite H2 in F. cbn [world_of] in F.
      apply (@set_predictor_pixels_keeps_frozen _ n pm None) in F. rewrite H3 in F.
      cbn [world_of] in F.
      destruct F as [F1 F2]. simpl in F1, F2. auto.
    - split; [|discriminate].
      assert (K : forall (c : Py unit) w w',
                keeps (fun w => trained (self w) = false) c ->
                trained (self w) = false -> c w = Returned tt w' ->
                trained (self w') = false).
      { intros c w w' Kc Hw Hc. specialize (Kc w Hw). now rewrite Hc in Kc. }
      eapply K; [| |exact H3].
      + unfold set_predictor_pixels, random_choice. repeat keeps_auto.
      + eapply K; [| |exact H2].
        * unfold set_exclusion. repeat keeps_auto.
        * eapply K; [| |exact H1]; [unfold set_target; repeat keeps_auto | exact Et]. }
  destruct Hpre as [Htr Hom].
  apply lsq_returned in H4. apply fit_result_matrix in H4.
  destruct H4 as (Ht4 & om & Ho4 & Hwhich & Hpred & Hlp & Hpol).
  rewrite Htr in Hwhich.
  destruct polynomials; run_inv H; some_inj; cbn [world images notices].
  all: split; [exact Ht4|].
  all: do 4 eexists.
  all: (split; [exact Ho4|]).
  all: (split; [destruct (trained before); [rewrite <- Hom by reflexivity|]; exact Hwhich|]).
  all: (split; [exact Hpred|]).
  all: (split; [eassumption|]).
  all: (split; [eassumption|]).
  all: (split; [reflexivity|]).
  - do 2 eexists. repeat split; eassumption.
  - assumption.
Qed.

(** X24.  One turn of the loop of [_batch] fits the target pixel with
    its own predictors but predicts with [orig_m]: on an object that is
    already trained -- at every turn but the first -- that is the design
    matrix of an earlier fit, which the turn leaves in place, and what is
    written into [im_predicted_fluxes] for the pixel is the product of that
    matrix with the new coefficients.  Only a turn that starts untrained
    predicts with the design matrix it has built. *)
Theorem batch_step_predicts_with_the_frozen_matrix cpm_reg exc em n pm rescale
    (polynomials : bool) row col s s' :
  batch_step cpm_reg exc em n pm rescale (Some polynomials) row col s = Done tt s' ->
  let before := self (world s) in
  let after := self (world s') in
  trained after = true /\
  exists om predicted series written,
    orig_m after = Some om /\
    (if trained before then orig_m before = Some om else m after = Some om) /\
    predicted_from om after /\
    im_predicted_fluxes (images s) = Some predicted /\
    Cube.set_series predicted row col series = Some written /\
    im_predicted_fluxes (images s') = Some written /\
    (if polynomials
     then exists cp c,
            cpm_prediction after = Some cp /\ const_prediction after = Some c /\
            series = map (fun x => x + c)%Qc cp
     else lsq_prediction after = Some series).
Proof. apply batch_step_done. Qed.


Lemma batch_loop_keeps_frozen cpm_reg exc em n pm rescale (polynomials : bool) o targets :
  forall s s',
    frozen o (world s) ->
    batch_loop (batch_step cpm_reg exc em n pm rescale (Some polynomials)) targets s
      = Done tt s' ->
    frozen o (world s').
Proof.
  induction targets as [|[row col] targets IH]; intros s s' F H; simpl in H.
  - run_prim H. exact F.
  - apply run_bind_done in H. destruct H as ([] & s1 & H1 & H).
    apply (IH s1 s'); [|exact H].
    apply batch_step_done in H1. destruct F as [Fo Ft].
    destruct H1 as (Ht1 & om & _ & _ & _ & Ho1 & Hw & _).
    rewrite Ft in Hw. split; [congruence | exact Ht1].
Qed.

(** X26.  On an object that is not yet trained, [_batch] over several
    pixels freezes the design matrix of its first pixel: when it returns,
    [orig_m] is the matrix [m] that the first turn built, and (by the turn
    above) every later pixel was predicted with it. *)
Theorem batch_keeps_the_first_design_matrix cpm_reg r0 c0 rows cols exc em n pm rescale
    (polynomials : bool) s s' :
  trained (self (world s)) = false ->
  _batch cpm_reg (r0 :: rows) (c0 :: cols) exc em n pm rescale (Some polynomials) s
    = Done tt s' ->
  exists s0 s1 M0,
    self (world s0) = Assign.cpm_regularization cpm_reg (self (world s)) /\
    batch_step cpm_reg exc em n pm rescale (Some polynomials) r0 c0 s0 = Done tt s1 /\
    m (self (world s1)) = Some M0 /\
    orig_m (self (world s')) = Some M0 /\
    trained (self (world s')) = true.
Proof.
  intros Ht H. unfold _batch in H.
  apply run_bind_done in H. destruct H as ([] & sa & Ha & H).
  apply run_lift_done in Ha. destruct Ha as (wa & Ha & ->). py_prim Ha.
  apply run_bind_done in H. destruct H as (sb & sc & Hb & H). run_prim Hb.
  apply run_bind_done in H. destruct H as ([] & sd & Hd & H). run_prim Hd.
  apply run_bind_done in H. destruct H as ([] & se & Hloop & H).
  simpl combine in Hloop. simpl batch_loop in Hloop.
  apply run_bind_done in Hloop. destruct Hloop as ([] & s1 & H1 & Hloop).
  pose proof H1 as H1'. apply batch_step_done in H1'.
  destruct H1' as (Ht1 & om & _ & _ & _ & Ho1 & Hw & _).
  cbn [world self trained] in Hw. simpl in Hw. rewrite Ht in Hw.
  assert (F : frozen (Some om) (world se)).
  { eapply batch_loop_keeps_frozen; [|exact Hloop]. split; assumption. }
  run_inv H. cbn [world]. destruct F as [Fo Ft].
  eexists _, s1, om. split; [|split; [exact H1|]]; [reflexivity|].
  repeat split; assumption.
Qed.

End Batch.

Lemma batch_step_predicts_with_the_frozen_matrix_witness :
  let before := self (world Sample.after_first) in
  let after := self (world Sample.after_second) in
  trained before = true /\
  m after <> orig_m after /\
  exists om predicted series written,
    orig_m after = Some om /\
    orig_m before = Some om /\
    predicted_from om after /\
    im_predicted_fluxes (images Sample.after_first) = Some predicted /\
    Cube.set_series predicted 1 1 series = Some written /\
    im_predicted_fluxes (images Sample.after_second) = Some written /\
    lsq_prediction after = Some series.
Proof.
  intros before after.
  assert (Ht : trained before = true) by (vm_compute; reflexivity).
  split; [exact Ht|]. split.
  { intro E. apply (f_equal (option_map (fun a => map (map this) (rows a)))) in E.
    vm_compute in E. discriminate E. }
  destruct (@batch_step_predicts_with_the_frozen_matrix Reference.stable
              (Some (Example.q 1)) 0 "closest" 2 "similar_brightness" (Some true) false
              1 1 Sample.after_first Sample.after_second)
    as (_ & om & predicted & series & written & H1 & H2 & H3 & H4 & H5 & H6 & H7).
  - vm_compute. reflexivity.
  - fold before in H2. rewrite Ht in H2.
    exists om, predicted, series, written. repeat split; assumption.
Defined.

Lemma batch_keeps_the_first_design_matrix_witness :
  let s := Sample.session in
  let s' := Sample.batched in
  m (self (world s')) <> orig_m (self (world s')) /\
  exists s0 s1 M0,
    self (world s0) = Assign.cpm_regularization (Some (Example.q 1)) (self (world s)) /\
    batch_step (np := Reference.stable) (Some (Example.q 1)) 0 "closest" 2
               "similar_brightness" (Some true) (Some false) 0 0 s0 = Done tt s1 /\
    m (self (world s1)) = Some M0 /\
    orig_m (self (world s')) = Some M0 /\
    trained (self (world s')) = true.
Proof.
  intros s s'. split.
  { intro E. apply (f_equal (option_map (fun a => map (map this) (rows a)))) in E.
    vm_compute in E. discriminate E. }
  apply (@batch_keeps_the_first_design_matrix Reference.stable Sample.zeroed
           (Some (Example.q 1)) 0 0 [1%nat] [1%nat] 0 "closest" 2 "similar_brightness"
           (Some true) false s s').
  - vm_compute. reflexivity.
  - vm_compute. reflexivity.
Defined.

Section WholeImageFacts.

Context {np : Numpy} {mem : Memory}.

Open Scope run_scope.

Lemma NoDup_map_injective (A B : Type) (f : A -> B) l :
  (forall x y, f x = f y -> x = y) -> NoDup l -> NoDup (map f l).
Proof.
  intros Hf. induction 1 as [|x l Hx _ IH]; simpl; constructor; [|assumption].
  intro Hin. apply in_map_iff in Hin. destruct Hin as (y & Hy & Hin).
  apply Hf in Hy. now subst.
Qed.

Lemma all_pixels n :
  let idx := seq 0 (n * n) in
  let targets := combine (map (fun i => i / n)%nat idx) (map (fun i => i mod n)%nat idx) in
  targets = map (fun i => (i / n, i mod n)%nat) idx /\
  NoDup targets /\
  forall row col, In (row, col) targets <-> (row < n)%nat /\ (col < n)%nat.
Proof.
  intros idx targets.
  assert (E : targets = map (fun i => (i / n, i mod n)%nat) idx).
  { unfold targets. generalize idx. induction idx0 as [|i l IH]; simpl; [reflexivity|].
    now rewrite IH. }
  split; [exact E|]. rewrite E. split.
  - apply NoDup_map_injective; [|apply seq_NoDup].
    intros i j Hij. now apply location_injective in Hij.
  - intros row col. rewrite in_map_iff. split.
    + intros (i & Hi & Hin). apply in_seq in Hin. injection Hi as <- <-.
      assert (0 < n)%nat by (destruct n; simpl in Hin; lia).
      split; [apply Nat.Div0.div_lt_upper_bound; lia | apply Nat.mod_upper_bound; lia].
    + intros [Hr Hc]. exists (row * n + col)%nat. split.
      * f_equal.
        -- rewrite Nat.div_add_l, Nat.div_small by lia. lia.
        -- rewrite Nat.add_comm, Nat.Div0.mod_add. apply Nat.mod_small. lia.
      * apply in_seq. nia.
Qed.

(** X25.  [entire_image] is [_batch] over every pixel of the image,
    each exactly once, row by row, followed by the assignment of
    [over_entire_image]. *)
Theorem entire_image_fits_every_pixel_once cpm_reg exc em n pm rescale pol s s' :
  entire_image cpm_reg exc em n pm rescale pol s = Done tt s' ->
  exists first rows cols s1,
    nth_error (im_fluxes (self (world s))) 0 = Some first /\
    let num_col := length (hd [] first) in
    _batch cpm_reg rows cols exc em n pm rescale pol s = Done tt s1 /\
    s' = {| world := world s1; images := set_over_entire_image true (images s1);
            notices := notices s1 |} /\
    combine rows cols
      = map (fun i => (i / num_col, i mod num_col)%nat) (seq 0 (num_col * num_col)) /\
    NoDup (combine rows cols) /\
    (forall row col,
       In (row, col) (combine rows cols) <-> (row < num_col)%nat /\ (col < num_col)%nat) /\
    over_entire_image (images s') = true.
Proof.
  unfold entire_image. intro H.
  apply run_bind_done in H. destruct H as (s0 & s1 & Hg & H). run_prim Hg.
  apply run_bind_done in H. destruct H as (first & s2 & Hf & H). run_prim Hf.
  apply run_bind_done in H. destruct H as ([] & s3 & Hb & H). run_prim H.
  destruct (all_pixels (length (hd [] first))) as (E1 & E2 & E3).
  do 4 eexists. split; [eassumption|]. cbv zeta.
  split; [exact Hb|]. split; [reflexivity|].
  split; [exact E1|]. split; [exact E2|]. split; [exact E3 | reflexivity].
Qed.

End WholeImageFacts.

Lemma entire_image_fits_every_pixel_once_witness :
  let s := Sample.session in
  let s' := Sample.imaged in
  exists first rows cols s1,
    nth_error (im_fluxes (self (world s))) 0 = Some first /\
    let num_col := length (hd [] first) in
    _batch (np := Reference.stable) (mem := Sample.zeroed) (Some (Example.q 1)) rows cols 0
           "closest" 2 "similar_brightness" (Some true) (Some false) s = Done tt s1 /\
    s' = {| world := world s1; images := set_over_entire_image true (images s1);
            notices := notices s1 |} /\
    combine rows cols
      = map (fun i => (i / num_col, i mod num_col)%nat) (seq 0 (num_col * num_col)) /\
    NoDup (combine rows cols) /\
    (forall row col,
       In (row, col) (combine rows cols) <-> (row < num_col)%nat /\ (col < num_col)%nat) /\
    over_entire_image (images s') = true.
Proof.
  apply (@entire_image_fits_every_pixel_once Reference.stable Sample.zeroed
           (Some (Example.q 1)) 0 "closest" 2 "similar_brightness" (Some true) (Some false)
           Sample.session Sample.imaged).
  vm_compute. reflexivity.
Defined.

(* ================================================================== *)
(** ** The aperture at the edges of the image *)

Section Aperture.

Context {np : Numpy} {mem : Memory}.

Open Scope run_scope.

Lemma follows_bind (A B : Type) (c : PyS A) (k : A -> PyS B) :
  follows c -> (forall a, follows (k a)) -> follows (Run.bind c k).
Proof.
  intros Hc Hk s. unfold Run.bind. specialize (Hc s).
  destruct (c s) as [a s1|s1|]; [apply Hk | discriminate | congruence].
Qed.

Lemma follows_lift (A : Type) (c : Py A) : follows (Run.lift c).
Proof. intro s. unfold Run.lift. destruct (c (world s)); discriminate. Qed.

Lemma follows_eval (A : Type) (o : option A) : follows (Run.eval o).
Proof. intro s. destruct o; discriminate. Qed.

Lemma follows_ret (A : Type) (a : A) : follows (Run.ret a).
Proof. intro s. discriminate. Qed.

Lemma follows_get_images : follows Run.get_images.
Proof. intro s. discriminate. Qed.

Lemma follows_assign_images f : follows (Run.assign_images f).
Proof. intro s. discriminate. Qed.

Ltac follows_auto :=
  first
    [ apply follows_bind; [|intro]
    | apply follows_lift
    | apply follows_eval
    | apply follows_ret
    | apply follows_get_images
    | apply follows_assign_images
    | match goal with
      | |- follows (match ?x with _ => _ end) => destruct x
      end ].

Lemma batch_step_follows cpm_reg exc em n pm rescale pol row col :
  follows (batch_step cpm_reg exc em n pm rescale pol row col).
Proof. unfold batch_step. repeat follows_auto. Qed.

(** The lifted methods do not touch the image stack. *)
Lemma lift_keeps (I : World -> Prop) (A : Type) (c : Py A) s a s' :
  keeps I c -> I (world s) -> Run.lift c s = Done a s' -> I (world s').
Proof.
  intros K Hs H. apply run_lift_done in H. destruct H as (w' & Hc & ->).
  specialize (K _ Hs). rewrite Hc in K. exact K.
Qed.

Lemma batch_step_keeps_fluxes F cpm_reg exc em n pm rescale pol row col s s' :
  im_fluxes (self (world s)) = F ->
  batch_step cpm_reg exc em n pm rescale pol row col s = Done tt s' ->
  im_fluxes (self (world s')) = F.
Proof.
  intros HF H. unfold batch_step in H.
  apply run_bind_done in H. destruct H as ([] & s1 & H1 & H).
  apply (@lift_keeps (fun w => im_fluxes (self w) = F)) in H1;
    [| unfold set_target; repeat keeps_auto | exact HF].
  apply run_bind_done in H. destruct H as ([] & s2 & H2 & H).
  apply (@lift_keeps (fun w => im_fluxes (self w) = F)) in H2;
    [| unfold set_exclusion; repeat keeps_auto | exact H1].
  apply run_bind_done in H. destruct H as ([] & s3 & H3 & H).
  apply (@lift_keeps (fun w => im_fluxes (self w) = F)) in H3;
    [| unfold set_predictor_pixels, random_choice; repeat keeps_auto | exact H2].
  apply run_bind_done in H. destruct H as (pr & s4 & H4 & H).
  apply (@lift_keeps (fun w => im_fluxes (self w) = F)) in H4;
    [| unfold lsq, select_inputs, assemble, decompose; repeat keeps_auto | exact H3].
  destruct pol as [[|]|]; run_inv H; exact H4.
Qed.

Lemma batch_step_out_of_range cpm_reg exc em n pm rescale pol row col s :
  (Img.image_rows (im_fluxes (self (world s))) <= row
   \/ Img.image_cols (im_fluxes (self (world s))) <= col)%nat ->
  exists s', batch_step cpm_reg exc em n pm rescale pol row col s = Failed s'.
Proof.
  intro H. unfold batch_step, Run.bind at 1, Run.lift at 1.
  rewrite (@set_target_out_of_range row col (world s) H). eauto.
Qed.

Lemma batch_loop_out_of_range cpm_reg exc em n pm rescale pol F r c targets :
  In (r, c) targets ->
  (Img.image_rows F <= r \/ Img.image_cols F <= c)%nat ->
  forall s, im_fluxes (self (world s)) = F ->
  exists s', batch_loop (batch_step cpm_reg exc em n pm rescale pol) targets s = Failed s'.
Proof.
  intros Hin Hout. induction targets as [|[r0 c0] targets IH]; intros s HF; [contradiction|].
  simpl. unfold Run.bind.
  destruct (batch_step cpm_reg exc em n pm rescale pol r0 c0 s) as [[] s1|s1|] eqn:E.
  - destruct Hin as [Hhd | Hin].
    + injection Hhd as -> ->.
      destruct (@batch_step_out_of_range cpm_reg exc em n pm rescale pol r c s) as [s' E'];
        [rewrite HF; exact Hout | congruence].
    + apply (IH Hin). eapply batch_step_keeps_fluxes; eauto.
  - eauto.
  - exfalso. exact (@batch_step_follows cpm_reg exc em n pm rescale pol r0 c0 s E).
Qed.


Lemma run_bind_of_done (A B : Type) (c : PyS A) (k : A -> PyS B) s a s1 :
  c s = Done a s1 -> Run.bind c k s = k a s1.
Proof. intro H. unfold Run.bind. now rewrite H. Qed.

Lemma run_bind_of_failed (A B : Type) (c : PyS A) (k : A -> PyS B) s s1 :
  c s = Failed s1 -> Run.bind c k s = Failed s1.
Proof. intro H. unfold Run.bind. now rewrite H. Qed.

Lemma run_bind_get_images (B : Type) (k : Images -> PyS B) s :
  Run.bind Run.get_images k s = k (images s) s.
Proof. reflexivity. Qed.

Lemma run_bind_assign_images (B : Type) f (k : unit -> PyS B) s :
  Run.bind (Run.assign_images f) k s
  = k tt {| world := world s; images := f (images s); notices := notices s |}.
Proof. reflexivity. Qed.

Lemma run_bind_lift_get (B : Type) (k : CPM -> PyS B) s :
  Run.bind (Run.lift get) k s
  = k (self (world s)) {| world := world s; images := images s; notices := notices s |}.
Proof. reflexivity. Qed.

Lemma run_bind_lift_assign (B : Type) f (k : unit -> PyS B) s :
  Run.bind (Run.lift (assign f)) k s
  = k tt {| world := {| self := f (self (world s)); stdout := stdout (world s);
                        rng := rng (world s) |};
            images := images s; notices := notices s |}.
Proof. reflexivity. Qed.

Lemma batch_out_of_range cpm_reg rows cols exc em n pm rescale pol r c s :
  In (r, c) (combine rows cols) ->
  (Img.image_rows (im_fluxes (self (world s))) <= r
   \/ Img.image_cols (im_fluxes (self (world s))) <= c)%nat ->
  exists s', _batch cpm_reg rows cols exc em n pm rescale pol s = Failed s'.
Proof.
  intros Hin Hout. unfold _batch.
  rewrite run_bind_lift_assign, run_bind_lift_get, run_bind_assign_images.
  cbn [world images notices self stdout rng].
  match goal with |- exists s', Run.bind ?loop _ ?s0 = _ =>
    destruct (@batch_loop_out_of_range cpm_reg exc em n pm rescale pol
                (im_fluxes (self (world s))) r c (combine rows cols) Hin Hout s0 eq_refl)
      as [s' Hl] end.
  exists s'. apply run_bind_of_failed. exact Hl.
Qed.

Lemma arange_around (x size : nat) :
  (size <= x)%nat ->
  np_arange (Z.of_nat x - Z.of_nat size) (Z.of_nat x + Z.of_nat size + 1)
  = map Z.of_nat (seq (x - size) (2 * size + 1)).
Proof.
  intro H. unfold np_arange.
  replace (Z.to_nat (Z.of_nat x + Z.of_nat size + 1 - (Z.of_nat x - Z.of_nat size)))
    with (2 * size + 1)%nat by lia.
  rewrite <- (Nat.add_0_r (x - size)) at 1.
  generalize (2 * size + 1)%nat as k. generalize O as start.
  intros start k. revert start. induction k as [|k IH]; intro start; simpl; [reflexivity|].
  f_equal; [lia|]. rewrite IH. f_equal. f_equal. lia.
Qed.

Lemma np_repeat_map (A B : Type) (f : A -> B) l n :
  np_repeat (map f l) n = map f (np_repeat l n).
Proof.
  unfold np_repeat. induction l as [|x l IH]; simpl; [reflexivity|].
  rewrite map_app, IH. f_equal. clear. induction n; simpl; congruence.
Qed.

Lemma np_tile_map (A B : Type) (f : A -> B) l n :
  np_tile (map f l) n = map f (np_tile l n).
Proof.
  unfold np_tile. induction n as [|n IH]; simpl; [reflexivity|].
  now rewrite map_app, IH.
Qed.

Lemma natural_indices_of_naturals l s :
  natural_indices (map Z.of_nat l) s = Done l s.
Proof.
  unfold natural_indices.
  replace (forallb (Z.leb 0) (map Z.of_nat l)) with true.
  - rewrite map_map. rewrite (map_ext _ (fun x => x)) by (intro; apply Nat2Z.id).
    now rewrite map_id.
  - symmetry. apply forallb_forall. intros z Hz. apply in_map_iff in Hz.
    destruct Hz as (k & <- & _). apply Z.leb_le. lia.
Qed.

Lemma combine_repeat (A B : Type) (x : A) (l : list B) :
  combine (repeat x (length l)) l = map (fun y => (x, y)) l.
Proof. induction l as [|y l IH]; simpl; [reflexivity | now rewrite IH]. Qed.

Lemma combine_append (A B : Type) (l1 l2 : list A) (m1 m2 : list B) :
  length l1 = length m1 ->
  combine (l1 ++ l2) (m1 ++ m2) = combine l1 m1 ++ combine l2 m2.
Proof.
  revert m1. induction l1 as [|x l1 IH]; intros [|y m1] H; try discriminate; simpl.
  - reflexivity.
  - f_equal. apply IH. now injection H.
Qed.

(** The pixels of the aperture, row by row. *)
Lemma repeat_tile_pairs (rs cs : list nat) r c :
  In r rs -> In c cs ->
  In (r, c) (combine (np_repeat rs (length cs)) (np_tile cs (length rs))).
Proof.
  unfold np_repeat, np_tile. intros Hr Hc.
  induction rs as [|r0 rs IH]; [contradiction|]. simpl.
  rewrite combine_append by now rewrite repeat_length.
  apply in_or_app. destruct Hr as [-> | Hr].
  - left. rewrite combine_repeat. apply in_map_iff. eauto.
  - right. now apply IH.
Qed.

(** X27.  Without an earlier [entire_image], [difference_image_sap] for
    an aperture that reaches past the last row or the last column of the
    image raises: [_batch] is sent to the pixels past the edge, although
    the slices of the aperture are cut at the edge. *)
Theorem difference_image_sap_fails_at_the_far_edges cpm_reg row col size exc em n pm
    rescale pol s :
  over_entire_image (images s) = false ->
  (size <= row)%nat -> (size <= col)%nat ->
  (Img.image_rows (im_fluxes (self (world s))) <= row + size
   \/ Img.image_cols (im_fluxes (self (world s))) <= col + size)%nat ->
  exists s',
    difference_image_sap cpm_reg row col size exc em n pm rescale pol s = Failed s'.
Proof.
  intros Hov Hr Hc Hout. unfold difference_image_sap.
  rewrite run_bind_get_images. rewrite Hov. cbn [negb Run.when].
  rewrite !arange_around by assumption.
  rewrite np_repeat_map, np_tile_map.
  set (side := (2 * size + 1)%nat).
  set (rs := seq (row - size) side). set (cs := seq (col - size) side).
  assert (Hrs : length rs = side) by apply length_seq.
  assert (Hcs : length cs = side) by apply length_seq.
  assert (Hin : exists r c, In (r, c) (combine (np_repeat rs side) (np_tile cs side)) /\
                  (Img.image_rows (im_fluxes (self (world s))) <= r
                   \/ Img.image_cols (im_fluxes (self (world s))) <= c)%nat).
  { replace (np_repeat rs side) with (np_repeat rs (length cs)) by now rewrite Hcs.
    replace (np_tile cs side) with (np_tile cs (length rs)) by now rewrite Hrs.
    destruct Hout as [Hout | Hout].
    - exists (row + size)%nat, col. split; [|left; exact Hout].
      apply repeat_tile_pairs; apply in_seq; unfold side; lia.
    - exists row, (col + size)%nat. split; [|right; exact Hout].
      apply repeat_tile_pairs; apply in_seq; unfold side; lia. }
  destruct Hin as (r & c & Hin & Hfar).
  destruct (@batch_out_of_range cpm_reg (np_repeat rs side) (np_tile cs side) exc em n pm
              rescale pol r c s Hin Hfar) as [s' Hb].
  exists s'. apply run_bind_of_failed.
  rewrite (@run_bind_of_done _ _ _ _ _ _ _ (natural_indices_of_naturals _ s)).
  rewrite (@run_bind_of_done _ _ _ _ _ _ _ (natural_indices_of_naturals _ s)).
  exact Hb.
Qed.

End Aperture.

(* ================================================================== *)
(** ** The end of sigma clipping, and [_reset] *)

Section AfterClipping.

Context {np : Numpy}.

Open Scope py_scope.

Lemma shrinks_same_count v' v :
  shrinks v' v -> Img.count_false v' = Img.count_false v -> v' = v.
Proof.
  induction 1 as [|b' b v' v Hb Hs IH]; intro Hc; [reflexivity|].
  pose proof (shrinks_count Hs) as Hle.
  unfold Img.count_false in *. simpl in Hc.
  destruct b', b; simpl in Hc.
  - f_equal. apply IH. lia.
  - specialize (Hb eq_refl). discriminate.
  - lia.
  - f_equal. apply IH. lia.
Qed.

Lemma lsq_keeps_valid v cpm_reg rescale pol uy um :
  keeps (fun w => valid (self w) = v) (lsq cpm_reg rescale pol uy um).
Proof.
  unfold lsq, select_inputs, assemble, decompose. repeat keeps_auto.
Qed.

Lemma init_keeps_lsq_prediction p TIME FLUX FLUX_ERR QUALITY remove_bad :
  keeps (fun w => lsq_prediction (self w) = p) (init TIME FLUX FLUX_ERR QUALITY remove_bad).
Proof.
  unfold init. repeat keeps_auto.
Qed.

(** [_rerun] on a trained object: the fit is made on the rows of
    [orig_m] that [valid] keeps. *)
Lemma rerun_returned om v w w' :
  frozen (Some om) w -> valid (self w) = Some v ->
  rerun w = Returned tt w' ->
  (exists um, Mat.select_rows v om = Some um /\ m (self w') = Some um) /\
  valid (self w') = Some v /\ frozen (Some om) w'.
Proof.
  intros Hf Hv H. pose proof Hf as [Ho Ht]. unfold rerun in H.
  apply bind_returned in H. destruct H as (s & w1 & Hg & H). py_prim Hg.
  rewrite Ho, Hv in H.
  apply bind_returned in H. destruct H as (rtf & w2 & H1 & H). py_prim H1.
  apply bind_returned in H. destruct H as (v0 & w2 & H1 & H). py_prim H1.
  apply bind_returned in H. destruct H as (uy & w2 & H1 & H). py_prim H1.
  apply bind_returned in H. destruct H as (om0 & w2 & H1 & H). py_prim H1.
  apply bind_returned in H. destruct H as (um & w2 & H1 & H). py_prim H1.
  apply bind_returned in H. destruct H as ([prediction res] & w2 & H1 & H). py_prim H.
  some_inj.
  pose proof (@lsq_keeps_valid (Some v) (cpm_regularization (self w1)) (rescale (self w1))
                (polynomials (self w1)) (Some uy) (Some um) w1 Hv) as Kv.
  pose proof (@lsq_keeps_frozen (Some om) (cpm_regularization (self w1))
                (rescale (self w1)) (polynomials (self w1)) (Some uy) (Some um) w1 Hf) as Kf.
  cbv beta in Kv. rewrite H1 in Kv, Kf. cbn [world_of] in Kv, Kf.
  apply lsq_returned in H1. destruct H1.
  split; [|split; assumption].
  exists um. split; [assumption|].
  rewrite Hm'. rewrite <- HM. unfold Spec.design_matrix, Spec.predictor_matrix.
  destruct (is_true (polynomials (self w1))); reflexivity.
Qed.

Lemma sigma_clip_loop_end turns sigma sub om :
  forall valid0 prev iter w final n w',
    prev = Z.of_nat (Img.count_false valid0) ->
    frozen (Some om) w ->
    sigma_clip_loop turns sigma sub valid0 prev iter w = Returned (Break final n) w' ->
    (n = iter /\ w' = w /\ final = valid0) \/
    ((iter < n)%Z /\ valid (self w') = Some final /\
     (exists um, Mat.select_rows final om = Some um /\ m (self w') = Some um) /\
     frozen (Some om) w').
Proof.
  induction turns as [|turns IH]; intros valid0 prev iter w final n w' Hp Hf H.
  - simpl in H. py_inv H.
  - pose proof H as H0. rewrite sigma_clip_loop_S in H0.
    apply bind_returned in H0. destruct H0 as (valid' & w1 & Hc & _).
    destruct (@sigma_clip_loop_turn _ turns sigma sub valid0 prev iter w valid' w1 Hp Hc)
      as [Hstop Hgo].
    pose proof (clip_iteration_returned _ _ _ _ Hc) as [-> Hs].
    destruct (Nat.eq_dec (Img.count_false valid') (Img.count_false valid0)) as [E | E].
    + rewrite (Hstop E) in H. inversion H; subst. left.
      split; [reflexivity|]. split; [reflexivity|]. now apply shrinks_same_count.
    + destruct (Hgo E) as [Hlt Hn]. rewrite Hn in H. unfold next_turn in H.
      apply bind_returned in H. destruct H as (u1 & w2 & H1 & H). py_prim H1.
      apply bind_returned in H. destruct H as (u2 & w3 & H1 & H). py_prim H1.
      apply bind_returned in H. destruct H as ([] & w4 & Hr & H).
      apply rerun_returned with (om := om) (v := valid') in Hr;
        [|destruct Hf; split; assumption | reflexivity].
      destruct Hr as (Hm & Hv & Hf4).
      apply IH in H; [|lia|assumption].
      right. destruct H as [(-> & -> & ->) | (Hlt' & Hv' & Hm' & Hf')].
      * split; [lia|]. split; [assumption|]. split; assumption.
      * split; [lia|]. split; [assumption|]. split; assumption.
Qed.

(** X30.  When sigma clipping of a trained object has ended, either no
    sample was clipped, and the object is as it was ([valid] is not
    stored), or [valid] is the final mask, [m] holds exactly the rows of
    the first design matrix that the mask keeps, and [orig_m] is still that
    first matrix. *)
Theorem sigma_clip_ends_fitted_on_the_valid_samples sigma sub om w final n w' :
  frozen (Some om) w ->
  sigma_clip_process sigma sub w = Returned (Break final n) w' ->
  (n = 1%Z /\ w' = w /\ final = repeat true (length (time (self w)))) \/
  ((1 < n)%Z /\ valid (self w') = Some final /\
   (exists um, Mat.select_rows final om = Some um /\ m (self w') = Some um) /\
   orig_m (self w') = Some om).
Proof.
  intros Hf H. unfold sigma_clip_process in H.
  apply bind_returned in H. destruct H as (s & w1 & Hg & H). py_prim Hg.
  destruct (count_repeat_true (length (time (self w1)))) as [_ Hc].
  apply sigma_clip_loop_end with (om := om) in H; [| now rewrite Hc | assumption].
  destruct H as [H | (Hn & Hv & Hm & Ho & _)]; [left; exact H | right; auto].
Qed.

(** X29.  Sigma clipping needs a target and a fit: without the rescaled
    target series, or with neither [lsq_prediction] nor [cpm_prediction],
    [sigma_clip_process] raises in its first turn and leaves the object as
    it was. *)
Theorem sigma_clip_needs_a_target_and_a_fit sigma sub w :
  rescaled_target_fluxes (self w) = None \/
  (lsq_prediction (self w) = None /\ cpm_prediction (self w) = None) ->
  sigma_clip_process sigma sub w = Raised w.
Proof.
  intro H. unfold sigma_clip_process. unfold bind at 1. unfold get at 1.
  rewrite sigma_clip_loop_S. unfold bind at 1. unfold clip_iteration.
  unfold bind at 1. unfold get at 1. unfold bind at 1.
  destruct H as [Hr | [Hl Hc]].
  - rewrite Hr.
    destruct (negb sub && match cpm_prediction (self w) with Some _ => true | None => false end).
    + unfold bind, eval, ret, raise.
      destruct (cpm_prediction (self w)); [|reflexivity].
      destruct (const_prediction (self w)); reflexivity.
    + unfold bind, eval, ret, raise.
      destruct (lsq_prediction (self w)); reflexivity.
  - rewrite Hc, Hl, andb_false_r. reflexivity.
Qed.

End AfterClipping.

Lemma sigma_clip_ends_fitted_on_the_valid_samples_witness :
  frozen (orig_m (self Example.fitted)) Example.fitted /\
  let final := [false; true; true; false] in
  Example.clipping = Returned (Break final 2) Example.clipped /\
  valid (self Example.clipped) = Some final /\
  (exists um, Mat.select_rows final (get_or (Mat.identity 0) (orig_m (self Example.fitted)))
              = Some um /\ m (self Example.clipped) = Some um) /\
  orig_m (self Example.clipped) = orig_m (self Example.fitted).
Proof.
  assert (Hf : frozen (Some (get_or (Mat.identity 0) (orig_m (self Example.fitted))))
                      Example.fitted) by (split; vm_compute; reflexivity).
  assert (Hc : sigma_clip_process (np := Reference.stable) (Example.q 1) false Example.fitted
               = Returned (Break [false; true; true; false] 2) Example.clipped)
    by (vm_compute; reflexivity).
  split; [split; vm_compute; reflexivity|]. intro final.
  split; [exact Hc|].
  destruct (@sigma_clip_ends_fitted_on_the_valid_samples Reference.stable (Example.q 1) false
              _ Example.fitted final 2 Example.clipped Hf Hc)
    as [(Hn & _) | (_ & Hv & Hm & Ho)]; [discriminate Hn|].
  split; [exact Hv|]. split; [exact Hm|]. rewrite Ho. vm_compute. reflexivity.
Defined.

Lemma sigma_clip_needs_a_target_and_a_fit_witness :
  (rescaled_target_fluxes (self Example.loaded) = None \/
   (lsq_prediction (self Example.loaded) = None /\
    cpm_prediction (self Example.loaded) = None)) /\
  sigma_clip_process (np := Reference.stable) (Example.q 5) false Example.loaded
  = Raised Example.loaded.
Proof.
  assert (H : rescaled_target_fluxes (self Example.loaded) = None \/
              (lsq_prediction (self Example.loaded) = None /\
               cpm_prediction (self Example.loaded) = None))
    by (left; vm_compute; reflexivity).
  split; [exact H|].
  apply (@sigma_clip_needs_a_target_and_a_fit Reference.stable (Example.q 5) false
           Example.loaded H).
Defined.

Section Reset.

Open Scope run_scope.

(** X28.  [_reset] loads the file again, always without the flagged
    samples: the target, the selection, the trend model, the fit and the
    images of [_batch] are forgotten, but [lsq_prediction], which
    [__init__] does not assign, is still the one of the last fit. *)
Theorem reset_forgets_all_but_the_last_prediction TIME FLUX FLUX_ERR QUALITY s s' :
  _reset TIME FLUX FLUX_ERR QUALITY s = Done tt s' ->
  let c := self (world s') in
  lsq_prediction c = lsq_prediction (self (world s)) /\
  Img.mask_index (map (Z.eqb 0) QUALITY) TIME = Some (time c) /\
  Img.mask_index (map (Z.eqb 0) QUALITY) FLUX = Some (im_fluxes c) /\
  is_target_set c = false /\ is_exclusion_set c = false /\
  are_predictors_set c = false /\ trained c = false /\
  rescaled_target_fluxes c = None /\ v_matrix c = None /\
  orig_m c = None /\ lsq_params c = None /\ cpm_prediction c = None /\
  valid c = None /\
  images s' = {| im_predicted_fluxes := None; im_diff := None;
                 over_entire_image := false |}.
Proof.
  unfold _reset, __init__. intro H.
  apply run_bind_done in H. destruct H as ([] & s1 & Hi & H).
  apply run_lift_done in Hi. destruct Hi as (w' & Hi & ->).
  unfold Run.assign_images in H. injection H as <-. cbn [world images].
  pose proof (@init_keeps_lsq_prediction (lsq_prediction (self (world s)))
                TIME FLUX FLUX_ERR QUALITY true (world s) eq_refl) as K.
  cbv beta in K. rewrite Hi in K. cbn [world_of] in K.
  apply init_returned in Hi. cbv zeta in Hi.
  destruct Hi as (first & [Hf Ht] & _ & _ & _ & _ & _ & _ & Hc & _).
  split; [exact K|]. split; [exact Ht|]. split; [exact Hf|].
  rewrite Hc. cbn. repeat split; reflexivity.
Qed.

End Reset.

Lemma reset_forgets_all_but_the_last_prediction_witness :
  let c := self (world Sample.reset) in
  _reset Example.TIME Example.FLUX Example.FLUX_ERR Example.QUALITY Sample.fitted_session
  = Done tt Sample.reset /\
  lsq_prediction c = lsq_prediction (self (world Sample.fitted_session)) /\
  lsq_prediction c <> None /\
  trained c = false /\ lsq_params c = None /\ rescaled_target_fluxes c = None.
Proof.
  intro c.
  assert (H : _reset Example.TIME Example.FLUX Example.FLUX_ERR Example.QUALITY
                Sample.fitted_session = Done tt Sample.reset) by (vm_compute; reflexivity).
  split; [exact H|].
  destruct (@reset_forgets_all_but_the_last_prediction Example.TIME Example.FLUX
              Example.FLUX_ERR Example.QUALITY Sample.fitted_session Sample.reset H)
    as (Hp & _ & _ & _ & _ & _ & Ht & Hr & _ & _ & Hl & _).
  split; [exact Hp|]. split; [|split; [exact Ht | split; [exact Hl | exact Hr]]].
  unfold c. rewrite Hp. vm_compute. discriminate.
Defined.

Lemma contributing_pixels_have_the_largest_coefficients_witness :
  let s := Sample.fitted_session in
  exists top mask idx,
    get_contributing_pixels (np := Reference.stable) 1 s = Done (top, mask) s /\
    top = map (fun i => nth i (get_or [] (predictor_pixels_locations (self (world s)))) (O, O))
              idx /\
    length idx = 1%nat /\
    (forall row col, (row < 3)%nat -> (col < 3)%nat ->
       (nth col (nth row mask []) true = false <-> In (row, col) top)).
Proof.
  intro s.
  destruct (get_contributing_pixels (np := Reference.stable) 1 s)
    as [[top mask] s'|s'|] eqn:E; [| vm_compute in E; discriminate E
                                    | vm_compute in E; discriminate E].
  destruct (@contributing_pixels_have_the_largest_coefficients Reference.stable
              ReferenceFacts.stable_laws 1 s top mask s'
              (get_or [] (cpm_params (self (world s))))
              (get_or [] (predictor_pixels_locations (self (world s))))
              (get_or [] (nth_error (im_fluxes (self (world s))) 0)))
    as (Hs & idx & Htop & Hlen & _ & _ & _ & _ & Hmask);
    [vm_compute; reflexivity | vm_compute; reflexivity | vm_compute; reflexivity
    | vm_compute; reflexivity | exact E |].
  exists top, mask, idx. rewrite Hs.
  split; [reflexivity|]. split; [exact Htop|]. split; [exact Hlen|]. exact Hmask.
Defined.

Lemma contributing_pixels_need_a_fit_witness :
  trained (self (world Sample.session)) = false /\
  cpm_params (self (world Sample.session)) = None /\
  get_contributing_pixels (np := Reference.stable) 1 Sample.session
  = Failed {| world := world Sample.session; images := images Sample.session;
              notices := notices Sample.session ++ [YouNeedToTrainFirst] |}.
Proof.
  assert (Ht : trained (self (world Sample.session)) = false) by (vm_compute; reflexivity).
  assert (Hp : cpm_params (self (world Sample.session)) = None) by (vm_compute; reflexivity).
  split; [exact Ht|]. split; [exact Hp|].
  apply (@contributing_pixels_need_a_fit Reference.stable 1 Sample.session Ht Hp).
Defined.

Lemma difference_image_sap_fails_at_the_far_edges_witness :
  over_entire_image (images Sample.session) = false /\
  (Img.image_rows (im_fluxes (self (world Sample.session))) <= 2 + 1)%nat /\
  exists s',
    difference_image_sap (np := Reference.stable) (mem := Sample.zeroed)
      (Some (Example.q 1)) 2 1 1 0 "closest" 2 "similar_brightness" (Some true) (Some false)
      Sample.session = Failed s'.
Proof.
  assert (Ho : over_entire_image (images Sample.session) = false) by reflexivity.
  assert (Hb : (Img.image_rows (im_fluxes (self (world Sample.session))) <= 2 + 1)%nat)
    by (vm_compute; lia).
  split; [exact Ho|]. split; [exact Hb|].
  apply (@difference_image_sap_fails_at_the_far_edges Reference.stable Sample.zeroed
           (Some (Example.q 1)) 2 1 1 0 "closest" 2 "similar_brightness" (Some true)
           (Some false) Sample.session Ho); [lia | lia | left; exact Hb].
Defined.
